(** * SLR(1) visual parser: grammar analysis, LR(0) automaton, table and simulator

    A shallow embedding of [grammar.ts], [lr0.ts], the table builder and
    [simulator.ts].

    Conventions of the embedding.
    - A JavaScript string is the list of its UTF-16 code units, so that
      [length], [startsWith], [substring] and [s[0]] mean what they mean in
      the source (the empty marker 'ε' is ONE code unit, 949).
    - A JavaScript [Set<string>] is the list of its elements in insertion
      order; [jsset_add] appends an element only when it is absent.
    - A JavaScript object used as a dictionary ([Record<K,V>]) is a [gmap].
    - Arrays used as stacks keep the orientation of the source: the top of
      the stack is the LAST element.
    - Code that can raise a [TypeError] returns an [outcome]; loops whose
      termination is not structural carry a fuel argument and [OutOfFuel]
      is a result of its own, never confused with a thrown error. *)

From Stdlib Require Import List NArith Lia String Ascii.
From Stdlib Require Import Sorting.Permutation Sorting.Sorted.
From stdpp Require Import base option list gmap sorting.

Open Scope nat_scope.

(** ** JavaScript strings *)

Abbreviation jsstring := (list N).

Fixpoint js (s : string) : jsstring :=
  match s with
  | EmptyString => []
  | String a r => N_of_ascii a :: js r
  end.

Definition DOLLAR : jsstring := [36%N].
Definition EPS : jsstring := [949%N].
Definition PRIME : jsstring := [39%N].
Definition SPACE : jsstring := [32%N].
Definition UNDEFINED_KEY : jsstring := js "undefined".

(** [s.startsWith(t)] *)
Fixpoint startsWith (s t : jsstring) {struct t} : bool :=
  match t, s with
  | [], _ => true
  | _ :: _, [] => false
  | b :: t', a :: s' => if decide (a = b) then startsWith s' t' else false
  end.

(** [s.endsWith(t)] *)
Definition endsWith (s t : jsstring) : bool := startsWith (rev s) (rev t).

(** Code units removed by [String.prototype.trim]: white space and line
    terminators of ECMAScript. *)
Definition isWhiteSpace (c : N) : bool :=
  ((9 <=? c) && (c <=? 13) || (c =? 32) || (c =? 160) || (c =? 5760)
   || (8192 <=? c) && (c <=? 8202) || (c =? 8232) || (c =? 8233)
   || (c =? 8239) || (c =? 8287) || (c =? 12288) || (c =? 65279))%N.

Fixpoint trimStart (s : jsstring) : jsstring :=
  match s with
  | [] => []
  | c :: r => if isWhiteSpace c then trimStart r else s
  end.

Definition trim (s : jsstring) : jsstring := rev (trimStart (rev (trimStart s))).

(** ** JavaScript sets in insertion order *)

Definition jsset_has (x : jsstring) (s : list jsstring) : bool := bool_decide (x ∈ s).

Definition jsset_add (x : jsstring) (s : list jsstring) : list jsstring :=
  if jsset_has x s then s else s ++ [x].

(** ** Results of code that may throw *)

Inductive outcome (A : Type) : Type :=
  | Ok (a : A)
  | Throw (msg : string)
  | OutOfFuel.
Arguments Ok {A} a.
Arguments Throw {A} msg.
Arguments OutOfFuel {A}.

Definition obind {A B} (m : outcome A) (k : A → outcome B) : outcome B :=
  match m with
  | Ok a => k a
  | Throw msg => Throw msg
  | OutOfFuel => OutOfFuel
  end.

Notation "'perform' p <- m ; k" := (obind m (λ p, k))
  (at level 10, p pattern, m at level 100, k at level 200, only parsing).

(** ** The grammar model (types.ts) *)

(** Modelled from the spec: types.ts is not among the sources.  The
    records of this file follow the data model of the specification and
    the fields that the code reads and writes ([p.head], [p.body], [p.id],
    [grammar.productions], ...). *)

Record Production := mkProduction {
  prod_head : jsstring;
  prod_body : list jsstring;
  prod_id : nat
}.

Record Grammar := mkGrammar {
  productions : list Production;
  terminals : list jsstring;
  nonTerminals : list jsstring;
  startSymbol : jsstring
}.

#[global] Instance Production_eq_dec : EqDecision Production.
Proof. solve_decision. Defined.

(** [grammar.productions.find(p => p.id === pid)] *)
Definition findProduction (g : Grammar) (pid : nat) : option Production :=
  List.find (λ p, Nat.eqb (prod_id p) pid) (productions g).

(** ** grammar.ts: augmentGrammar *)

Definition augmentGrammar (grammar : Grammar) : Grammar :=
  let newStartSymbol := startSymbol grammar ++ PRIME in
  let augmentedProduction :=
    {| prod_head := newStartSymbol; prod_body := [startSymbol grammar]; prod_id := 0 |} in
  let newProductions :=
    augmentedProduction ::
    imap (λ i p, {| prod_head := prod_head p; prod_body := prod_body p; prod_id := i + 1 |})
         (productions grammar) in
  let newNonTerminals := jsset_add newStartSymbol (nonTerminals grammar) in
  {| productions := newProductions;
     terminals := terminals grammar;
     nonTerminals := newNonTerminals;
     startSymbol := newStartSymbol |}.

(** Every symbol that appears in a grammar: its start symbol, the two
    symbol sets, and the heads and bodies of its productions. *)
Definition symbolOf (g : Grammar) (s : jsstring) : Prop :=
  s = startSymbol g ∨ s ∈ terminals g ∨ s ∈ nonTerminals g
  ∨ ∃ p, p ∈ productions g ∧ (s = prod_head p ∨ s ∈ prod_body p).

(** ** Tables, steps and parse trees (types.ts) *)

(** Modelled from the spec: types.ts is not among the sources.  An action
    table entry is "a tagged variant — Shift(targetState) |
    Reduce(productionId) | Accept"; the source builds it as
    [{type: 'shift', value}], [{type: 'reduce', value}] and
    [{type: 'accept'}] and reads it through [.type] and [.value]. *)
Inductive ActionEntry : Type :=
  | Shift (target : nat)
  | Reduce (productionId : nat)
  | Accept.

Inductive ActionType : Type := shift | reduce | accept.

Definition ae_type (a : ActionEntry) : ActionType :=
  match a with Shift _ => shift | Reduce _ => reduce | Accept => accept end.

Definition ae_value (a : ActionEntry) : option nat :=
  match a with Shift n => Some n | Reduce n => Some n | Accept => None end.

Inductive ConflictType : Type := ShiftReduce | ReduceReduce.

Record Conflict := mkConflict {
  c_state : nat;
  c_symbol : jsstring;
  c_type : ConflictType;
  c_existing : ActionEntry;
  c_new : ActionEntry
}.

#[global] Instance ActionEntry_eq_dec : EqDecision ActionEntry.
Proof. solve_decision. Defined.
#[global] Instance ActionType_eq_dec : EqDecision ActionType.
Proof. solve_decision. Defined.
#[global] Instance ConflictType_eq_dec : EqDecision ConflictType.
Proof. solve_decision. Defined.
#[global] Instance Conflict_eq_dec : EqDecision Conflict.
Proof. solve_decision. Defined.

Record ParsingTable := mkParsingTable {
  t_action : gmap nat (gmap jsstring ActionEntry);
  t_goto : gmap nat (gmap jsstring nat);
  t_terminals : list jsstring;
  t_nonTerminals : list jsstring;
  t_conflicts : list Conflict
}.

(** A value of type [string] that may be [undefined] at run time (a token
    read past the end of the token array). *)
Abbreviation tok := (option jsstring).

(** The key under which JavaScript looks up [obj[k]] for such a value. *)
Definition propertyKey (k : tok) : jsstring := default UNDEFINED_KEY k.

(** [id] is the number [n] of the source's [`node-${n}`]. *)
Inductive ParseTreeNode : Type :=
  mkNode (node_id : nat) (node_label : tok)
         (node_children : list ParseTreeNode) (node_value : option jsstring).

Definition node_label_of (n : ParseTreeNode) : tok :=
  match n with mkNode _ l _ _ => l end.
Definition node_children_of (n : ParseTreeNode) : list ParseTreeNode :=
  match n with mkNode _ _ c _ => c end.

(** The [action] label of a step; the source renders it as a string:
    ['Error'], [`Shift S${n}`], [`Reduce R${id}: ${head} → ${body}`],
    [`GoTo(${head}, ${before}) = ${next}`], ['Accept']. *)
Inductive StepAction : Type :=
  | ActError
  | ActShift (nextState : nat)
  | ActReduce (prod : Production)
  | ActGoTo (head : jsstring) (stateBeforeGoto : option nat) (nextState : nat)
  | ActAccept.

(** The [explanation] of a step, likewise. *)
Inductive Explanation : Type :=
  | ExplSyntaxError (currentState : option nat) (lookahead : tok)
  | ExplShift (lookahead : tok) (nextState : nat)
  | ExplReduce (prod : Production)
  | ExplGotoError (stateBeforeGoto : option nat) (head : jsstring)
  | ExplGoTo (nextState : nat) (head : jsstring)
  | ExplAccept
  | ExplRuntimeError (msg : string).

Record ParseStep := mkParseStep {
  ps_step : nat;
  ps_stack : list nat;
  ps_symbols : list tok;
  ps_input : list jsstring;
  ps_action : StepAction;
  ps_explanation : Explanation;
  ps_forest : list ParseTreeNode
}.

(** ** simulator.ts *)

(** [Array.prototype.sort((a, b) => b.length - a.length)]: a stable sort,
    longest first. *)
Fixpoint insertByLength (t : jsstring) (l : list jsstring) : list jsstring :=
  match l with
  | [] => [t]
  | x :: r => if length x <=? length t then t :: l else x :: insertByLength t r
  end.

Definition sortByLengthDesc (l : list jsstring) : list jsstring :=
  foldr insertByLength [] l.

Definition sortedTerminals (grammar : Grammar) : list jsstring :=
  sortByLengthDesc
    (List.filter (λ t, negb (bool_decide (t = DOLLAR)) && negb (bool_decide (t = EPS)))
                 (terminals grammar)).

(** The tokenizing loop [while (remaining.length > 0)].  One unit of fuel
    is one iteration; [None] is a loop that has not finished. *)
Fixpoint tokenizeLoop (fuel : nat) (sorted : list jsstring)
    (remaining : jsstring) (tokens : list jsstring) : option (list jsstring) :=
  match remaining with
  | [] => Some tokens
  | char :: rest =>
    match fuel with
    | 0 => None
    | S fuel' =>
      if startsWith remaining SPACE then tokenizeLoop fuel' sorted rest tokens
      else
        match List.find (startsWith remaining) sorted with
        | Some t =>
          tokenizeLoop fuel' sorted (trim (drop (length t) remaining)) (tokens ++ [t])
        | None =>
          tokenizeLoop fuel' sorted (trim rest) (tokens ++ [[char]])
        end
    end
  end.

Definition tokenize (fuel : nat) (grammar : Grammar) (inputStr : jsstring)
    : option (list jsstring) :=
  tokens ← tokenizeLoop fuel (sortedTerminals grammar) (trim inputStr) [];
  Some (tokens ++ [DOLLAR]).

Record Opts := mkOpts {
  initialStack : option (list nat);
  initialSymbols : option (list jsstring);
  debug : bool
}.

(** [opts?.initialStack && opts.initialStack.length > 0]: the array when it
    is there and not empty. *)
Definition providedStack (opts : option Opts) : option (list nat) :=
  match opts ≫= initialStack with
  | Some (x :: l) => Some (x :: l)
  | _ => None
  end.

Definition providedSymbols (opts : option Opts) : option (list jsstring) :=
  match opts ≫= initialSymbols with
  | Some (x :: l) => Some (x :: l)
  | _ => None
  end.

(** Lines 42-53: the two stacks before the loop. *)
Definition initStacks (opts : option Opts) : list nat * list tok :=
  let stack := default [0] (providedStack opts) in
  let symbols : list tok :=
    match providedSymbols opts with
    | Some l => Some <$> l
    | None => replicate (length stack) (Some DOLLAR)
    end in
  let symbols :=
    if length symbols <? length stack
    then replicate (length stack - length symbols) (Some DOLLAR) ++ symbols
    else symbols in
  let stack :=
    if length stack <? length symbols
    then replicate (length symbols - length stack) 0 ++ stack
    else stack in
  (stack, symbols).

Record SimState := mkSimState {
  stack : list nat;
  symbols : list tok;
  nodeStack : list ParseTreeNode;
  steps : list ParseStep;
  inputIdx : nat;
  stepCount : nat;
  nodeIdCounter : nat
}.

(** [const val = s === '$' || s === EPS ? undefined : s] *)
Definition leafValue (s : jsstring) : option jsstring :=
  if bool_decide (s = DOLLAR) || bool_decide (s = EPS) then None else Some s.

(** Placeholder leaves, one per symbol, numbered from [n]. *)
Fixpoint placeholderNodes (n : nat) (l : list jsstring) : list ParseTreeNode :=
  match l with
  | [] => []
  | s :: r => mkNode n (Some s) [] (leafValue s) :: placeholderNodes (S n) r
  end.

(** Lines 42-82: the configuration in which the loop starts. *)
Definition initState (opts : option Opts) : SimState :=
  let '(stack, symbols) := initStacks opts in
  let nodes1 :=
    match providedSymbols opts with
    | Some l => placeholderNodes 0 l
    | None => []
    end in
  let nodes2 :=
    match providedSymbols opts with
    | None =>
      if bool_decide (0 < length symbols) && negb (length nodes1 =? length symbols)
      then placeholderNodes (length nodes1) (default DOLLAR <$> symbols)
      else []
    | Some _ => []
    end in
  {| stack := stack; symbols := symbols; nodeStack := nodes1 ++ nodes2;
     steps := []; inputIdx := 0; stepCount := 0;
     nodeIdCounter := length (nodes1 ++ nodes2) |}.

Definition MAX_STEPS : nat := 500.

(** A snapshot step of the current configuration. *)
Definition snapshot (tokens : list jsstring) (st : SimState) (n : nat)
    (a : StepAction) (e : Explanation) : ParseStep :=
  {| ps_step := n; ps_stack := stack st; ps_symbols := symbols st;
     ps_input := drop (inputIdx st) tokens; ps_action := a;
     ps_explanation := e; ps_forest := nodeStack st |}.

(** [table.action[currentState]?.[lookahead]]; an empty stack reads
    [undefined] as the state, for which a table keyed by numbers has no row. *)
Definition lookupAction (table : ParsingTable) (currentState : option nat)
    (lookahead : tok) : option ActionEntry :=
  s ← currentState; row ← t_action table !! s; row !! propertyKey lookahead.

Definition lookupGoto (table : ParsingTable) (state : option nat)
    (head : jsstring) : option nat :=
  s ← state; row ← t_goto table !! s; row !! head.

(** The pops of a reduction, [popCount] times [x.pop()] on an array: the
    array without its last [popCount] elements (all of them when it is
    shorter). *)
Definition popN {A} (popCount : nat) (l : list A) : list A :=
  take (length l - popCount) l.

(** The popped elements, in the order they had in the array: the [children]
    built by [unshift]. *)
Definition poppedN {A} (popCount : nat) (l : list A) : list A :=
  drop (length l - popCount) l.

Inductive iteration : Type :=
  | Continue (st : SimState)
  | Break (st : SimState)
  | Raise (msg : string) (st : SimState).

Definition isEpsilonReduction (prod : Production) : bool :=
  bool_decide (prod_body prod = [EPS]).

Definition popCountOf (prod : Production) : nat :=
  if isEpsilonReduction prod then 0 else length (prod_body prod).

(** The [reduce] branch of the loop body, lines 132-193. *)
Definition reduceStep (tokens : list jsstring) (grammar : Grammar)
    (table : ParsingTable) (prodId : nat) (st : SimState) : iteration :=
  match findProduction grammar prodId with
  | None => Raise "Cannot read properties of undefined (reading 'body')" st
  | Some prod =>
    let popCount := popCountOf prod in
    let reduceRecord :=
      snapshot tokens st (stepCount st) (ActReduce prod) (ExplReduce prod) in
    let st1 :=
      {| stack := popN popCount (stack st);
         symbols := popN popCount (symbols st);
         nodeStack := popN popCount (nodeStack st);
         steps := steps st ++ [reduceRecord];
         inputIdx := inputIdx st;
         stepCount := S (stepCount st);
         nodeIdCounter := nodeIdCounter st |} in
    let children := poppedN popCount (nodeStack st) in
    let '(children, counter) :=
      if isEpsilonReduction prod
      then (children ++ [mkNode (nodeIdCounter st) (Some EPS) [] None],
            S (nodeIdCounter st))
      else (children, nodeIdCounter st) in
    let newNode := mkNode counter (Some (prod_head prod)) children None in
    let stateBeforeGoto := last (stack st1) in
    match lookupGoto table stateBeforeGoto (prod_head prod) with
    | None =>
      Break
        {| stack := stack st1; symbols := symbols st1; nodeStack := nodeStack st1;
           steps := steps st1 ++
             [snapshot tokens st1 (stepCount st1) ActError
                (ExplGotoError stateBeforeGoto (prod_head prod))];
           inputIdx := inputIdx st1; stepCount := stepCount st1;
           nodeIdCounter := S counter |}
    | Some nextState =>
      let st2 :=
        {| stack := stack st1 ++ [nextState];
           symbols := symbols st1 ++ [Some (prod_head prod)];
           nodeStack := nodeStack st1 ++ [newNode];
           steps := steps st1;
           inputIdx := inputIdx st1;
           stepCount := stepCount st1;
           nodeIdCounter := S counter |} in
      Continue
        {| stack := stack st2; symbols := symbols st2; nodeStack := nodeStack st2;
           steps := steps st2 ++
             [snapshot tokens st2 (stepCount st2)
                (ActGoTo (prod_head prod) stateBeforeGoto nextState)
                (ExplGoTo nextState (prod_head prod))];
           inputIdx := inputIdx st2; stepCount := S (stepCount st2);
           nodeIdCounter := nodeIdCounter st2 |}
    end
  end.

(** The [shift] branch, lines 112-131. *)
Definition shiftStep (tokens : list jsstring) (lookahead : tok)
    (nextState : nat) (st : SimState) : iteration :=
  let leafVal :=
    match lookahead with
    | Some l => if bool_decide (l = DOLLAR) then None else Some l
    | None => None
    end in
  let leaf := mkNode (nodeIdCounter st) lookahead [] leafVal in
  Continue
    {| stack := stack st ++ [nextState];
       symbols := symbols st ++ [lookahead];
       nodeStack := nodeStack st ++ [leaf];
       steps := steps st ++
         [snapshot tokens st (stepCount st) (ActShift nextState)
            (ExplShift lookahead nextState)];
       inputIdx := S (inputIdx st);
       stepCount := S (stepCount st);
       nodeIdCounter := S (nodeIdCounter st) |}.

Definition pushStep (st : SimState) (s : ParseStep) : SimState :=
  {| stack := stack st; symbols := symbols st; nodeStack := nodeStack st;
     steps := steps st ++ [s]; inputIdx := inputIdx st;
     stepCount := stepCount st; nodeIdCounter := nodeIdCounter st |}.

(** One pass through the body of [while (stepCount < MAX_STEPS)]. *)
Definition loopBody (tokens : list jsstring) (grammar : Grammar)
    (table : ParsingTable) (st : SimState) : iteration :=
  let currentState := last (stack st) in
  let lookahead := tokens !! inputIdx st in
  match lookupAction table currentState lookahead with
  | None =>
    Break (pushStep st
      (snapshot tokens st (stepCount st) ActError
         (ExplSyntaxError currentState lookahead)))
  | Some (Shift nextState) => shiftStep tokens lookahead nextState st
  | Some (Reduce prodId) => reduceStep tokens grammar table prodId st
  | Some Accept =>
    Break (pushStep st (snapshot tokens st (stepCount st) ActAccept ExplAccept))
  end.

Inductive loopResult : Type :=
  | Finished (st : SimState)
  | Thrown (msg : string) (st : SimState)
  | Unfinished.

(** The loop of lines 93-208.  [Finished] is leaving the loop by [break] or
    by the failed test [stepCount < MAX_STEPS]; [Thrown] is an exception
    that escapes the loop body. *)
Fixpoint runLoop (fuel : nat) (tokens : list jsstring) (grammar : Grammar)
    (table : ParsingTable) (st : SimState) : loopResult :=
  if stepCount st <? MAX_STEPS then
    match fuel with
    | 0 => Unfinished
    | S fuel' =>
      match loopBody tokens grammar table st with
      | Continue st' => runLoop fuel' tokens grammar table st'
      | Break st' => Finished st'
      | Raise msg st' => Thrown msg st'
      end
    end
  else Finished st.

(** The [try]/[catch] around the loop, and the [return steps]. *)
Definition runGuarded (tokens : list jsstring) (grammar : Grammar)
    (table : ParsingTable) (st : SimState) : option (list ParseStep) :=
  match runLoop MAX_STEPS tokens grammar table st with
  | Finished st' => Some (steps st')
  | Thrown msg st' =>
    Some (steps st' ++
          [snapshot tokens st' (stepCount st') ActError (ExplRuntimeError msg)])
  | Unfinished => None
  end.

(** [simulateParsing]; [fuel] bounds the tokenizing loop only, and [None]
    is a call that does not return. *)
Definition simulateParsing (fuel : nat) (inputStr : jsstring) (grammar : Grammar)
    (table : ParsingTable) (opts : option Opts) : option (list ParseStep) :=
  tokens ← tokenize fuel grammar inputStr;
  runGuarded tokens grammar table (initState opts).

(** ** Items, states and FIRST/FOLLOW (types.ts) *)

Record LRItem := mkItem {
  productionId : nat;
  dotPosition : nat
}.

#[global] Instance LRItem_eq_dec : EqDecision LRItem.
Proof. solve_decision. Defined.

Record State := mkState {
  st_id : nat;
  st_items : list LRItem;
  st_transitions : gmap jsstring nat
}.

Record FirstFollowSets := mkFirstFollow {
  first : gmap jsstring (list jsstring);
  follow : gmap jsstring (list jsstring)
}.

(** [arr.forEach(x => ...)] over a body that may throw. *)
Fixpoint forEachM {A B} (f : A → B → outcome A) (a : A) (l : list B) : outcome A :=
  match l with
  | [] => Ok a
  | x :: r => perform a' <- f a x; forEachM f a' r
  end.

(** ** The table builder: buildTable *)

Abbreviation ActionTable := (gmap nat (gmap jsstring ActionEntry)).
Abbreviation GotoTable := (gmap nat (gmap jsstring nat)).

(** [action[state][symbol]] on a row that exists. *)
Definition cell (a : ActionTable) (state : nat) (symbol : jsstring) : option ActionEntry :=
  row ← a !! state; row !! symbol.

(** [action[state][symbol] = e] on a row that exists. *)
Definition setCell (a : ActionTable) (state : nat) (symbol : jsstring)
    (e : ActionEntry) : ActionTable :=
  alter (λ row, <[symbol := e]> row) state a.

Definition setGoto (gt : GotoTable) (state : nat) (symbol : jsstring)
    (target : nat) : GotoTable :=
  alter (λ row, <[symbol := target]> row) state gt.

(** [existing.type === 'shift' ? 'Shift-Reduce' : 'Reduce-Reduce'] *)
Definition conflictTypeOf (existing : ActionEntry) : ConflictType :=
  match ae_type existing with shift => ShiftReduce | _ => ReduceReduce end.

(** The body of [Object.entries(state.transitions).forEach]: every entry
    has a key of its own, so the order of the entries does not matter. *)
Definition installTransition (grammar : Grammar) (sid : nat)
    (symbol : jsstring) (nextStateId : nat)
    (acc : ActionTable * GotoTable) : ActionTable * GotoTable :=
  if jsset_has symbol (terminals grammar)
  then (setCell acc.1 sid symbol (Shift nextStateId), acc.2)
  else if jsset_has symbol (nonTerminals grammar)
  then (acc.1, setGoto acc.2 sid symbol nextStateId)
  else acc.

(** [item.dotPosition === prod.body.length ||
     (prod.body.length === 1 && prod.body[0] === 'ε')] *)
Definition isComplete (item : LRItem) (prod : Production) : bool :=
  (dotPosition item =? length (prod_body prod)) || bool_decide (prod_body prod = [EPS]).

(** [conflicts.some(c => c.state === state.id && c.symbol === terminal &&
     c.new.value === prod.id && c.type === type)] *)
Definition isDuplicate (conflicts : list Conflict) (sid : nat)
    (terminal : jsstring) (pid : nat) (type : ConflictType) : bool :=
  existsb (λ c, bool_decide (c_state c = sid) && bool_decide (c_symbol c = terminal)
                && bool_decide (ae_value (c_new c) = Some pid)
                && bool_decide (c_type c = type)) conflicts.

Definition ROW_MISSING : string := "Cannot read properties of undefined".
Definition PROD_MISSING : string := "Cannot read properties of undefined (reading 'body')".

(** The body of [follow.forEach(terminal => ...)]: one reduce candidate. *)
Definition reduceCandidate (sid : nat) (prod : Production)
    (acc : ActionTable * list Conflict) (terminal : jsstring)
    : outcome (ActionTable * list Conflict) :=
  match acc.1 !! sid with
  | None => Throw ROW_MISSING
  | Some row =>
    match row !! terminal with
    | Some existing =>
      let type := conflictTypeOf existing in
      if isDuplicate acc.2 sid terminal (prod_id prod) type then Ok acc
      else Ok (acc.1, acc.2 ++ [mkConflict sid terminal type existing (Reduce (prod_id prod))])
    | None => Ok (setCell acc.1 sid terminal (Reduce (prod_id prod)), acc.2)
    end
  end.

(** The [Accept] branch. *)
Definition installAccept (sid : nat) (acc : ActionTable * list Conflict)
    : outcome (ActionTable * list Conflict) :=
  match acc.1 !! sid with
  | None => Throw ROW_MISSING
  | Some row =>
    let conflicts :=
      match row !! DOLLAR with
      | Some existing =>
        if bool_decide (ae_type existing ≠ accept)
        then acc.2 ++ [mkConflict sid DOLLAR (conflictTypeOf existing) existing Accept]
        else acc.2
      | None => acc.2
      end in
    Ok (setCell acc.1 sid DOLLAR Accept, conflicts)
  end.

(** The body of [state.items.forEach(item => ...)]. *)
Definition processItem (grammar : Grammar) (ff : FirstFollowSets) (sid : nat)
    (acc : ActionTable * list Conflict) (item : LRItem)
    : outcome (ActionTable * list Conflict) :=
  match findProduction grammar (productionId item) with
  | None => Throw PROD_MISSING
  | Some prod =>
    if isComplete item prod then
      if bool_decide (prod_head prod = startSymbol grammar)
      then installAccept sid acc
      else
        match follow ff !! prod_head prod with
        | Some fl => forEachM (reduceCandidate sid prod) acc fl
        | None => Ok acc
        end
    else Ok acc
  end.

Record TableAcc := mkTableAcc {
  acc_action : ActionTable;
  acc_goto : GotoTable;
  acc_conflicts : list Conflict
}.

(** The body of [states.forEach(state => ...)]. *)
Definition processState (grammar : Grammar) (ff : FirstFollowSets)
    (acc : TableAcc) (state : State) : outcome TableAcc :=
  let sid := st_id state in
  let action0 := <[sid := ∅]> (acc_action acc) in
  let goto0 := <[sid := ∅]> (acc_goto acc) in
  let '(action1, goto1) :=
    map_fold (installTransition grammar sid) (action0, goto0) (st_transitions state) in
  perform (action2, conflicts) <-
    forEachM (processItem grammar ff sid) (action1, acc_conflicts acc) (st_items state);
  Ok {| acc_action := action2; acc_goto := goto1; acc_conflicts := conflicts |}.

Definition buildTable (grammar : Grammar) (states : list State)
    (ff : FirstFollowSets) : outcome ParsingTable :=
  perform acc <- forEachM (processState grammar ff)
          {| acc_action := ∅; acc_goto := ∅; acc_conflicts := [] |} states;
  Ok {| t_action := acc_action acc;
        t_goto := acc_goto acc;
        t_terminals := terminals grammar;
        t_nonTerminals :=
          List.filter (λ nt, negb (bool_decide (nt = startSymbol grammar)))
                      (nonTerminals grammar);
        t_conflicts := acc_conflicts acc |}.

(** ** lr0.ts *)

Definition areItemsEqual (a b : LRItem) : bool :=
  (productionId a =? productionId b) && (dotPosition a =? dotPosition b).

(** The comparator [x.productionId - y.productionId ||
    x.dotPosition - y.dotPosition] is not positive. *)
Definition itemLe (x y : LRItem) : bool :=
  (productionId x <? productionId y)
  || ((productionId x =? productionId y) && (dotPosition x <=? dotPosition y)).

Fixpoint insertItem (x : LRItem) (l : list LRItem) : list LRItem :=
  match l with
  | [] => [x]
  | y :: r => if itemLe x y then x :: l else y :: insertItem x r
  end.

(** [[...a].sort(comparator)] *)
Definition sortItems (l : list LRItem) : list LRItem := foldr insertItem [] l.

(** [sortedA.every((item, i) => areItemsEqual(item, sortedB[i]))], used on
    arrays of one length. *)
Fixpoint everyEqual (a b : list LRItem) : bool :=
  match a, b with
  | [], _ => true
  | x :: a', y :: b' => areItemsEqual x y && everyEqual a' b'
  | _ :: _, [] => false
  end.

Definition areItemSetsEqual (a b : list LRItem) : bool :=
  if negb (length a =? length b) then false
  else everyEqual (sortItems a) (sortItems b).

(** The body of [grammar.productions.forEach(p => ...)] in getClosure. *)
Definition addProductionItem (symbolAfterDot : jsstring)
    (acc : list LRItem * bool) (p : Production) : list LRItem * bool :=
  if bool_decide (prod_head p = symbolAfterDot) then
    let newItem := {| productionId := prod_id p; dotPosition := 0 |} in
    if existsb (λ it, areItemsEqual it newItem) acc.1 then acc
    else (acc.1 ++ [newItem], true)
  else acc.

(** The body of [for (let i = 0; i < closure.length; i++)]. *)
Definition closureItem (grammar : Grammar) (item : LRItem)
    (acc : list LRItem * bool) : outcome (list LRItem * bool) :=
  match findProduction grammar (productionId item) with
  | None => Throw PROD_MISSING
  | Some prod =>
    match prod_body prod !! dotPosition item with
    | Some symbolAfterDot =>
      if jsset_has symbolAfterDot (nonTerminals grammar)
      then Ok (foldl (addProductionItem symbolAfterDot) acc (productions grammar))
      else Ok acc
    | None => Ok acc
    end
  end.

(** The [for] loop over the growing array, from index [i]. *)
Fixpoint closureFor (fuel : nat) (grammar : Grammar) (i : nat)
    (acc : list LRItem * bool) : outcome (list LRItem * bool) :=
  match acc.1 !! i with
  | None => Ok acc
  | Some item =>
    match fuel with
    | 0 => OutOfFuel
    | S fuel' =>
      perform acc' <- closureItem grammar item acc;
      closureFor fuel' grammar (S i) acc'
    end
  end.

(** [while (changed)]: [n] passes at most, each with [fuel] iterations of
    the inner loop at most. *)
Fixpoint closureWhile (n fuel : nat) (grammar : Grammar)
    (closure : list LRItem) : outcome (list LRItem) :=
  match n with
  | 0 => OutOfFuel
  | S n' =>
    perform (closure', changed) <- closureFor fuel grammar 0 (closure, false);
    if changed then closureWhile n' fuel grammar closure' else Ok closure'
  end.

(** A budget that [getClosure_total] shows is never used up: one pass adds
    at most one item per production and visits each item once, and the
    second pass adds nothing. *)
Definition closureBudget (items : list LRItem) (grammar : Grammar) : nat :=
  length items + 2 * length (productions grammar) + 2.

Definition getClosure (items : list LRItem) (grammar : Grammar) : outcome (list LRItem) :=
  closureWhile 2 (closureBudget items grammar) grammar items.

(** The body of [items.forEach(item => ...)] in getGoto. *)
Definition gotoItem (grammar : Grammar) (symbol : jsstring)
    (nextItems : list LRItem) (item : LRItem) : outcome (list LRItem) :=
  match findProduction grammar (productionId item) with
  | None => Throw PROD_MISSING
  | Some prod =>
    match prod_body prod !! dotPosition item with
    | Some sym =>
      if bool_decide (sym = symbol)
      then Ok (nextItems ++ [{| productionId := productionId item;
                                dotPosition := dotPosition item + 1 |}])
      else Ok nextItems
    | None => Ok nextItems
    end
  end.

Definition getGoto (items : list LRItem) (symbol : jsstring) (grammar : Grammar)
    : outcome (list LRItem) :=
  perform nextItems <- forEachM (gotoItem grammar symbol) [] items;
  getClosure nextItems grammar.

(** [currentState.transitions[symbol] = target] where [currentState] is
    [states[i]]: the state object is shared with the array. *)
Definition setTransition (i : nat) (symbol : jsstring) (target : nat)
    (states : list State) : list State :=
  alter (λ s, {| st_id := st_id s; st_items := st_items s;
                 st_transitions := <[symbol := target]> (st_transitions s) |}) i states.

(** [states.findIndex(s => areItemSetsEqual(s.items, nextItems))] *)
Definition findStateIndex (states : list State) (nextItems : list LRItem) : option nat :=
  fst <$> list_find (λ s, areItemSetsEqual (st_items s) nextItems = true) states.

(** The body of [allSymbols.forEach(symbol => ...)] for the state at [i]. *)
Definition dfaSymbol (grammar : Grammar) (i : nat) (currentItems : list LRItem)
    (states : list State) (symbol : jsstring) : outcome (list State) :=
  if bool_decide (symbol = DOLLAR) || bool_decide (symbol = EPS) then Ok states
  else
    perform nextItems <- getGoto currentItems symbol grammar;
    if length nextItems =? 0 then Ok states
    else
      match findStateIndex states nextItems with
      | Some existingStateIndex => Ok (setTransition i symbol existingStateIndex states)
      | None =>
        let newStateId := length states in
        Ok (setTransition i symbol newStateId
              (states ++ [{| st_id := newStateId; st_items := nextItems;
                             st_transitions := ∅ |}]))
      end.

(** [while (i < states.length)]; one unit of fuel is one state processed. *)
Fixpoint dfaLoop (fuel : nat) (grammar : Grammar) (allSymbols : list jsstring)
    (i : nat) (states : list State) : outcome (list State) :=
  match states !! i with
  | None => Ok states
  | Some currentState =>
    match fuel with
    | 0 => OutOfFuel
    | S fuel' =>
      perform states' <- forEachM (dfaSymbol grammar i (st_items currentState)) states allSymbols;
      dfaLoop fuel' grammar allSymbols (S i) states'
    end
  end.

Definition buildDFA (fuel : nat) (grammar : Grammar) : outcome (list State) :=
  match productions grammar with
  | [] => Throw "Cannot read properties of undefined (reading 'id')"
  | p0 :: _ =>
    let startItem := {| productionId := prod_id p0; dotPosition := 0 |} in
    perform initialItems <- getClosure [startItem] grammar;
    let states := [{| st_id := 0; st_items := initialItems; st_transitions := ∅ |}] in
    let allSymbols := nonTerminals grammar ++ terminals grammar in
    dfaLoop fuel grammar allSymbols 0 states
  end.

(** ** grammar.ts: computeFirstFollow *)

Abbreviation SetMap := (gmap jsstring (list jsstring)).

(** [src.forEach(f => { if (f !== EPS) dst.add(f); })] *)
Definition addAllExceptEps (src dst : list jsstring) : list jsstring :=
  foldl (λ d f, if bool_decide (f = EPS) then d else jsset_add f d) dst src.

(** [first[symbol] || new Set([symbol])] *)
Definition firstOf (first : SetMap) (symbol : jsstring) : list jsstring :=
  default [symbol] (first !! symbol).

(** The loop [for (const symbol of p.body)] of the FIRST pass, adding to
    [first[head]]; the boolean is [allNullable]. *)
Fixpoint firstBody (head : jsstring) (body : list jsstring) (first : SetMap)
    : SetMap * bool :=
  match body with
  | [] => (first, true)
  | symbol :: rest =>
    let symbolFirst := firstOf first symbol in
    let first' := alter (addAllExceptEps symbolFirst) head first in
    if jsset_has EPS symbolFirst then firstBody head rest first' else (first', false)
  end.

Definition SIZE_MISSING : string := "Cannot read properties of undefined (reading 'size')".

(** The body of [grammar.productions.forEach(p => ...)] in the FIRST loop. *)
Definition firstProduction (acc : SetMap * bool) (p : Production)
    : outcome (SetMap * bool) :=
  let head := prod_head p in
  match acc.1 !! head with
  | None => Throw SIZE_MISSING
  | Some before =>
    let '(first1, allNullable) := firstBody head (prod_body p) acc.1 in
    let first2 := if allNullable then alter (jsset_add EPS) head first1 else first1 in
    let changed :=
      if bool_decide (length (default [] (first2 !! head)) ≠ length before)
      then true else acc.2 in
    Ok (first2, changed)
  end.

(** [let changed = true; while (changed) { changed = false; pass }]: one
    unit of fuel is one pass, and a pass returns the flag it has set. *)
Fixpoint whileChanged (fuel : nat) (pass : SetMap → outcome (SetMap * bool))
    (m : SetMap) : outcome SetMap :=
  match fuel with
  | 0 => OutOfFuel
  | S fuel' =>
    perform (m', changed) <- pass m;
    if changed then whileChanged fuel' pass m' else Ok m'
  end.

(** One pass of the FIRST loop over the productions. *)
Definition firstPass (grammar : Grammar) (first : SetMap) : outcome (SetMap * bool) :=
  forEachM firstProduction (first, false) (productions grammar).

Definition firstWhile (fuel : nat) (grammar : Grammar) (first : SetMap) : outcome SetMap :=
  whileChanged fuel (firstPass grammar) first.

(** The loop [for (const sym of beta)] of the FOLLOW pass, adding to
    [follow[B]]; the boolean is [betaIsNullable]. *)
Fixpoint followBeta (first : SetMap) (B : jsstring) (beta : list jsstring)
    (follow : SetMap) : SetMap * bool :=
  match beta with
  | [] => (follow, true)
  | sym :: rest =>
    let symFirst := firstOf first sym in
    let follow' := alter (addAllExceptEps symFirst) B follow in
    if jsset_has EPS symFirst then followBeta first B rest follow' else (follow', false)
  end.

(** The loop [for (let i = 0; i < body.length; i++)] of the FOLLOW pass,
    over the part of the body from position [i] on. *)
Fixpoint followBody (grammar : Grammar) (first : SetMap) (head : jsstring)
    (body : list jsstring) (acc : SetMap * bool) : outcome (SetMap * bool) :=
  match body with
  | [] => Ok acc
  | B :: beta =>
    if negb (jsset_has B (nonTerminals grammar)) then followBody grammar first head beta acc
    else
      match acc.1 !! B with
      | None => Throw SIZE_MISSING
      | Some before =>
        let '(follow1, betaIsNullable) := followBeta first B beta acc.1 in
        let inherited : outcome SetMap :=
          if betaIsNullable then
            match follow1 !! head with
            | None => Throw "Cannot read properties of undefined (reading 'forEach')"
            | Some hs => Ok (alter (addAllExceptEps hs) B follow1)
            end
          else Ok follow1 in
        perform follow2 <- inherited;
        let changed :=
          if bool_decide (length (default [] (follow2 !! B)) ≠ length before)
          then true else acc.2 in
        followBody grammar first head beta (follow2, changed)
      end
  end.

Definition followProduction (grammar : Grammar) (first : SetMap)
    (acc : SetMap * bool) (p : Production) : outcome (SetMap * bool) :=
  followBody grammar first (prod_head p) (prod_body p) acc.

(** One pass of the FOLLOW loop over the productions. *)
Definition followPass (grammar : Grammar) (first follow : SetMap)
    : outcome (SetMap * bool) :=
  forEachM (followProduction grammar first) (follow, false) (productions grammar).

Definition followWhile (fuel : nat) (grammar : Grammar) (first follow : SetMap)
    : outcome SetMap :=
  whileChanged fuel (followPass grammar first) follow.

(** Lines 101-103: the initial maps. *)
Definition initFirst (grammar : Grammar) : SetMap :=
  let m1 := foldl (λ m nt, <[nt := []]> m) ∅ (nonTerminals grammar) in
  let m2 := foldl (λ m t, <[t := [t]]> m) m1 (terminals grammar) in
  <[EPS := [EPS]]> m2.

Definition initFollow (grammar : Grammar) : SetMap :=
  foldl (λ m nt, <[nt := []]> m) ∅ (nonTerminals grammar).

(** Lines 122-124: the seeds of FOLLOW.  [if (userStart)] is false for the
    empty string as well as for [undefined]. *)
Definition ADD_MISSING : string := "Cannot read properties of undefined (reading 'add')".

Definition seedFollow (grammar : Grammar) (follow : SetMap) : outcome SetMap :=
  match follow !! startSymbol grammar with
  | None => Throw ADD_MISSING
  | Some _ =>
    let follow1 := alter (jsset_add DOLLAR) (startSymbol grammar) follow in
    match List.find (λ nt, negb (endsWith nt PRIME)) (nonTerminals grammar) with
    | Some (c :: userStart) =>
      match follow1 !! (c :: userStart) with
      | None => Throw ADD_MISSING
      | Some _ => Ok (alter (jsset_add DOLLAR) (c :: userStart) follow1)
      end
    | _ => Ok follow1
    end
  end.

(** [computeFirstFollow]; [fuel] bounds the passes of each of the two
    [while (changed)] loops. *)
Definition computeFirstFollow (fuel : nat) (grammar : Grammar) : outcome FirstFollowSets :=
  perform first <- firstWhile fuel grammar (initFirst grammar);
  perform follow0 <- seedFollow grammar (initFollow grammar);
  perform follow <- followWhile fuel grammar first follow0;
  Ok {| first := first; follow := follow |}.

(** ** Specification-side notions *)

(** [t] is a longest element of [cands] that is a prefix of [r]. *)
Definition longestMatch (cands : list jsstring) (r t : jsstring) : Prop :=
  t ∈ cands ∧ t `prefix_of` r ∧ ∀ t', t' ∈ cands → t' `prefix_of` r → length t' ≤ length t.

(** The terminals the tokenizer matches against. *)
Definition candidates (g : Grammar) : list jsstring :=
  List.filter (λ t, negb (bool_decide (t = DOLLAR)) && negb (bool_decide (t = EPS)))
              (terminals g).

(** The token sequence expected for a remaining input [r] that starts at
    a token: the longest matching terminal, or one character
    when no terminal matches, then white space skipped, and so on. *)
Inductive Lexes (cands : list jsstring) : jsstring → list jsstring → Prop :=
  | Lexes_end : Lexes cands [] []
  | Lexes_terminal r t toks :
      r ≠ [] → longestMatch cands r t →
      Lexes cands (trim (drop (length t) r)) toks →
      Lexes cands r (t :: toks)
  | Lexes_char c r toks :
      (∀ t, t ∈ cands → ¬ t `prefix_of` (c :: r)) →
      Lexes cands (trim r) toks →
      Lexes cands (c :: r) ([c] :: toks).

(** The key by which reduce conflicts are deduplicated. *)
Definition conflictKey (c : Conflict) : nat * jsstring * ConflictType * option nat :=
  (c_state c, c_symbol c, c_type c, ae_value (c_new c)).

Definition countKey (k : nat * jsstring * ConflictType * option nat)
    (cs : list Conflict) : nat :=
  length (List.filter (λ c, bool_decide (conflictKey c = k)) cs).

(** [item] is a completed item of [prod], found by its id. *)
Definition completedItem (g : Grammar) (item : LRItem) (prod : Production) : Prop :=
  findProduction g (productionId item) = Some prod ∧ isComplete item prod = true.

(** Items that refer to productions of the grammar. *)
Definition validItem (g : Grammar) (item : LRItem) : Prop :=
  is_Some (findProduction g (productionId item)).

(** A set of items is closed when expanding any of its items adds nothing. *)
Definition closedItems (g : Grammar) (C : list LRItem) : Prop :=
  ∀ item prod sym p,
    item ∈ C → findProduction g (productionId item) = Some prod →
    prod_body prod !! dotPosition item = Some sym →
    sym ∈ nonTerminals g → p ∈ productions g → prod_head p = sym →
    {| productionId := prod_id p; dotPosition := 0 |} ∈ C.

(** The part of the data model that [computeFirstFollow] relies on: heads
    of productions and the start symbol are nonterminals. *)
Definition headsAreNonTerminals (g : Grammar) : Prop :=
  startSymbol g ∈ nonTerminals g
  ∧ ∀ p, p ∈ productions g → prod_head p ∈ nonTerminals g.

(** ** Example inputs *)

(** The grammar [S -> S' a], [S' -> b], which the grammar reader accepts:
    the name [S'] is taken. *)
Definition primedGrammar : Grammar :=
  {| productions :=
       [ {| prod_head := js "S"; prod_body := [js "S'"; js "a"]; prod_id := 0 |};
         {| prod_head := js "S'"; prod_body := [js "b"]; prod_id := 1 |} ];
     terminals := [js "a"; js "b"; DOLLAR];
     nonTerminals := [js "S"; js "S'"];
     startSymbol := js "S" |}.

(** [A -> a A | ε], augmented by hand. *)
Definition nullableGrammar : Grammar :=
  {| productions :=
       [ {| prod_head := js "A'"; prod_body := [js "A"]; prod_id := 0 |};
         {| prod_head := js "A"; prod_body := [js "a"; js "A"]; prod_id := 1 |};
         {| prod_head := js "A"; prod_body := [EPS]; prod_id := 2 |} ];
     terminals := [js "a"; DOLLAR];
     nonTerminals := [js "A"; js "A'"];
     startSymbol := js "A'" |}.

(** A malformed table for [nullableGrammar]: in state 0 it reduces by the
    empty production on the end marker, and its goto on [A] leads back to
    state 0. *)
Definition cyclicTable : ParsingTable :=
  {| t_action := {[ 0 := {[ DOLLAR := Reduce 2 ]} ]};
     t_goto := {[ 0 := {[ js "A" := 0 ]} ]};
     t_terminals := [js "a"; DOLLAR];
     t_nonTerminals := [js "A"];
     t_conflicts := [] |}.

(** A configuration of the simulator with the symbols [a A] on the stack. *)
Definition reduceExample : SimState :=
  {| stack := [0; 0; 0];
     symbols := [Some DOLLAR; Some (js "a"); Some (js "A")];
     nodeStack := [mkNode 0 (Some DOLLAR) [] None;
                   mkNode 1 (Some (js "a")) [] (Some (js "a"));
                   mkNode 2 (Some (js "A")) [] None];
     steps := []; inputIdx := 0; stepCount := 0; nodeIdCounter := 3 |}.

(** A grammar with the terminals [a], [ab] and [abc]. *)
Definition tokenExample : Grammar :=
  {| productions := [ {| prod_head := js "S"; prod_body := [js "a"; js "ab"; js "abc"];
                         prod_id := 0 |} ];
     terminals := [js "a"; js "ab"; js "abc"; DOLLAR];
     nonTerminals := [js "S"];
     startSymbol := js "S" |}.

(** A step that reports how a run ended. *)
Definition isHaltStep (s : ParseStep) : bool :=
  match ps_action s with
  | ActError | ActAccept => true
  | _ => false
  end.

(** A table for [nullableGrammar] that reduces by a production the
    grammar does not have. *)
Definition danglingTable : ParsingTable :=
  {| t_action := {[ 0 := {[ DOLLAR := Reduce 7 ]} ]};
     t_goto := ∅;
     t_terminals := [js "a"; DOLLAR];
     t_nonTerminals := [js "A"];
     t_conflicts := [] |}.

(** FOLLOW sets in which ['$'] follows [A], a row of state 0 that shifts
    on ['$'], and the conflict that the empty production of
    [nullableGrammar] causes there. *)
Definition exampleFollow : FirstFollowSets :=
  {| first := ∅; follow := {[ js "A" := [DOLLAR] ]} |}.

Definition exampleAction : ActionTable := {[ 0 := {[ DOLLAR := Shift 3 ]} ]}.

Definition exampleConflict : Conflict :=
  {| c_state := 0; c_symbol := DOLLAR; c_type := ShiftReduce;
     c_existing := Shift 3; c_new := Reduce 2 |}.

(** ** Notions used in the proofs *)

(** A string that does not start with white space. *)
Definition headNotWhite (s : jsstring) : Prop :=
  match s with [] => True | c :: _ => isWhiteSpace c = false end.

(** The order of the sorted terminals: longest first. *)
Definition longerFirst (a b : jsstring) : Prop := length b ≤ length a.

(** What one pass over a list of steps preserves: the conflict log only
    grows at its end, a reduce key is logged once at most, and a cell that
    holds an action keeps it. *)
Definition keepsCells (a a' : ActionTable) : Prop :=
  ∀ s t e, cell a s t = Some e → cell a' s t = Some e.

Definition appendsOnly (cs cs' : list Conflict) : Prop := ∃ new, cs' = cs ++ new.

Definition keepsKeysUnique (cs cs' : list Conflict) : Prop :=
  ∀ s t ty pid,
    countKey (s, t, ty, Some pid) cs' ≤ max 1 (countKey (s, t, ty, Some pid) cs).

(** The item that the closure adds for a production. *)
Definition initialItem (p : Production) : LRItem :=
  {| productionId := prod_id p; dotPosition := 0 |}.

(** The closure under construction from [items]: the given items, then
    items added once each, all of them initial items of productions. *)
Definition growing (g : Grammar) (items cl : list LRItem) : Prop :=
  ∃ added, cl = items ++ added ∧ NoDup added
           ∧ ∀ it, it ∈ added →
                   (it ∉ items) ∧ (∃ p, p ∈ productions g ∧ it = initialItem p).

(** The items of [cl] from index [i] on have been expanded into [cl']. *)
Definition expandedFrom (g : Grammar) (i : nat) (cl cl' : list LRItem) : Prop :=
  ∀ j item prod sym p,
    i ≤ j → cl !! j = Some item →
    findProduction g (productionId item) = Some prod →
    prod_body prod !! dotPosition item = Some sym →
    sym ∈ nonTerminals g → p ∈ productions g → prod_head p = sym →
    initialItem p ∈ cl'.

Definition allValid (g : Grammar) (cl : list LRItem) : Prop :=
  ∀ item, item ∈ cl → validItem g item.

(** The order in which [sortItems] puts items. *)
Definition itemOrder (x y : LRItem) : Prop := itemLe x y = true.

(** An item of a production of the grammar with its dot inside the body
    or at its end. *)
Definition boundedItem (g : Grammar) (item : LRItem) : Prop :=
  ∃ prod, findProduction g (productionId item) = Some prod
          ∧ dotPosition item ≤ length (prod_body prod).

(** All the items that can occur in a state, production by production. *)
Definition itemUniverse (g : Grammar) : list LRItem :=
  flat_map (λ p, (λ d, {| productionId := prod_id p; dotPosition := d |})
                   <$> seq 0 (S (length (prod_body p))))
           (productions g).

(** The membership vector of a set of items over the universe. *)
Definition itemVector (g : Grammar) (I : list LRItem) : list bool :=
  (λ u, bool_decide (u ∈ I)) <$> itemUniverse g.

(** All boolean vectors of a length. *)
Fixpoint allVectors (n : nat) : list (list bool) :=
  match n with
  | 0 => [[]]
  | S n' => ((true ::.) <$> allVectors n') ++ ((false ::.) <$> allVectors n')
  end.

(** A bound on the number of states: the number of sets of items. *)
Definition stateBound (g : Grammar) : nat := 2 ^ length (itemUniverse g).

(** What [buildDFA] maintains on the array of states for grammar [g]
    whose state 0 has the items [C0]. *)
Record dfaInvariant (g : Grammar) (C0 : list LRItem) (states : list State) : Prop := {
  dfa_initial : ∃ s0, states !! 0 = Some s0 ∧ st_items s0 = C0;
  dfa_ids : ∀ i s, states !! i = Some s → st_id s = i;
  dfa_items : ∀ i s, states !! i = Some s →
                NoDup (st_items s) ∧ ∀ item, item ∈ st_items s → boundedItem g item;
  dfa_distinct : ∀ i j si sj,
      states !! i = Some si → states !! j = Some sj →
      areItemSetsEqual (st_items si) (st_items sj) = true → i = j;
  dfa_transitions : ∀ i s sym t,
      states !! i = Some s → st_transitions s !! sym = Some t →
      sym ≠ DOLLAR ∧ sym ≠ EPS
      ∧ ∃ target I', states !! t = Some target
                     ∧ getGoto (st_items s) sym g = Ok I' ∧ I' ≠ []
                     ∧ areItemSetsEqual (st_items target) I' = true
}.

(** The states of [states] are still there in [states'], with their ids
    and items. *)
Definition extendsStates (states states' : list State) : Prop :=
  length states ≤ length states'
  ∧ ∀ i s, states !! i = Some s →
           ∃ s', states' !! i = Some s' ∧ st_id s' = st_id s ∧ st_items s' = st_items s.

(** The sets of a map have no element twice and lie within [U]. *)
Definition setsWithin (U : list jsstring) (m : SetMap) : Prop :=
  ∀ k l, m !! k = Some l → NoDup l ∧ ∀ x, x ∈ l → x ∈ U.

(** The number of elements of all the sets of a map. *)
Definition totalSize (m : SetMap) : nat :=
  sum_list_with (λ kl, length kl.2) (map_to_list m).

(** [m'] has the keys of [m], and each of its sets starts with the set
    of [m]: sets only grow, at their end. *)
Definition growsTo (m m' : SetMap) : Prop :=
  (∀ k l, m !! k = Some l → ∃ l', m' !! k = Some l' ∧ l `prefix_of` l')
  ∧ (∀ k, m !! k = None → m' !! k = None).

(** The symbols that can occur in a FIRST set, and in a FOLLOW set. *)
Definition firstUniverse (g : Grammar) : list jsstring :=
  terminals g ++ [EPS] ++ flat_map prod_body (productions g).

Definition followUniverse (g : Grammar) : list jsstring :=
  DOLLAR :: firstUniverse g.

(** Passes that are enough for the loops of [computeFirstFollow]: every
    pass but the last adds an element to some set. *)
Definition firstFollowBudget (g : Grammar) : nat :=
  S (size (initFirst g) * length (firstUniverse g)
     + size (initFollow g) * length (followUniverse g)).

(** What the FOLLOW loop maintains: bounded sets without repetition, and
    a set for every nonterminal. *)
Definition followInv (g : Grammar) (m : SetMap) : Prop :=
  setsWithin (followUniverse g) m
  ∧ ∀ nt, nt ∈ nonTerminals g → is_Some (m !! nt).

(** The grammar [S -> a], whose heads are nonterminals. *)
Definition tinyGrammar : Grammar :=
  {| productions := [ {| prod_head := js "S"; prod_body := [js "a"]; prod_id := 0 |} ];
     terminals := [js "a"; DOLLAR];
     nonTerminals := [js "S"];
     startSymbol := js "S" |}.

(** A grammar one of whose terminals is the empty string. *)
Definition emptyTerminalGrammar : Grammar :=
  {| productions := [ {| prod_head := js "S"; prod_body := [[]]; prod_id := 0 |} ];
     terminals := [[]; DOLLAR];
     nonTerminals := [js "S"];
     startSymbol := js "S" |}.

(** The grammar [E' -> E], [E -> a]: its start symbol ends in an
    apostrophe. *)
Definition primedStartGrammar : Grammar :=
  {| productions :=
       [ {| prod_head := js "E'"; prod_body := [js "E"]; prod_id := 0 |};
         {| prod_head := js "E"; prod_body := [js "a"]; prod_id := 1 |} ];
     terminals := [js "a"; DOLLAR];
     nonTerminals := [js "E'"; js "E"];
     startSymbol := js "E'" |}.

(** What one item does to the cell of terminal [t] in the row of its
    state, when the cell holds [c]: Accept is written over anything, a
    reduction only into an empty cell. *)
Definition stepCell (g : Grammar) (ff : FirstFollowSets) (t : jsstring)
    (c : option ActionEntry) (item : LRItem) : option ActionEntry :=
  match findProduction g (productionId item) with
  | None => c
  | Some prod =>
    if isComplete item prod then
      if bool_decide (prod_head prod = startSymbol g) then
        if bool_decide (t = DOLLAR) then Some Accept else c
      else
        match c with
        | Some e => Some e
        | None =>
          if bool_decide (t ∈ default [] (follow ff !! prod_head prod))
          then Some (Reduce (prod_id prod)) else None
        end
    else c
  end.

(** The cell after the transitions of the state have been installed. *)
Definition shiftCell (g : Grammar) (state : State) (t : jsstring) : option ActionEntry :=
  n ← st_transitions state !! t;
  if jsset_has t (terminals g) then Some (Shift n) else None.

(** The cell of [t] in the finished row of a state: the shift if there is
    one, then the items in their order. *)
Definition rowSpec (g : Grammar) (ff : FirstFollowSets) (state : State)
    (t : jsstring) : option ActionEntry :=
  foldl (stepCell g ff t) (shiftCell g state t) (st_items state).

(** Resume options with three states and one symbol, and a table that
    reduces by [A -> a A] in state 2. *)
Definition paddedOpts : Opts :=
  {| initialStack := Some [0; 1; 2]; initialSymbols := Some [js "a"]; debug := false |}.

Definition paddedTable : ParsingTable :=
  {| t_action := {[ 2 := {[ DOLLAR := Reduce 1 ]} ]};
     t_goto := {[ 0 := {[ js "A" := 0 ]} ]};
     t_terminals := [js "a"; DOLLAR];
     t_nonTerminals := [js "A"];
     t_conflicts := [] |}.

(** ** grammar.ts: isEpsilon and parseGrammar *)

(** [\d], [\w] of a regular expression without flags; [\s] is
    [isWhiteSpace], the code units that [trim] removes. *)
Definition isDigitUnit (c : N) : bool := ((48 <=? c) && (c <=? 57))%N.

Definition isWordUnit (c : N) : bool :=
  ((65 <=? c) && (c <=? 90) || (97 <=? c) && (c <=? 122) || isDigitUnit c || (c =? 95))%N.

(** [String.prototype.toLowerCase], as far as a comparison with an ASCII
    literal can tell: ['A'..'Z'] become ['a'..'z'], U+0130 becomes ['i']
    followed by U+0307, and U+212A (KELVIN SIGN) becomes ['k'].  The lower
    case of any other character has no code unit below 128; such units are
    left as they are. *)
Definition lowerUnit (c : N) : jsstring :=
  if ((65 <=? c) && (c <=? 90))%N then [(c + 32)%N]
  else if (c =? 304)%N then [105%N; 775%N]
  else if (c =? 8490)%N then [107%N]
  else [c].

Definition toLowerCase (s : jsstring) : jsstring := flat_map lowerUnit s.

(** [s === 'ε' || s.toLowerCase() === 'epsilon'] *)
Definition isEpsilon (s : jsstring) : bool :=
  bool_decide (s = EPS) || bool_decide (toLowerCase s = js "epsilon").

(** [s.split(sep)] for a separator of one code unit; [piece] is what has
    been read since the last separator. *)
Fixpoint splitUnitFrom (sep : N) (piece s : jsstring) : list jsstring :=
  match s with
  | [] => [piece]
  | c :: r =>
    if (c =? sep)%N then piece :: splitUnitFrom sep [] r
    else splitUnitFrom sep (piece ++ [c]) r
  end.

Definition splitUnit (sep : N) (s : jsstring) : list jsstring := splitUnitFrom sep [] s.

Definition NEWLINE : N := 10%N.
Definition BAR : N := 124%N.

(** The alternatives of [/->|→|::=/], in the order of the pattern. *)
Definition ARROWS : list jsstring := [js "->"; [8594%N]; js "::="].

(** [s.split(/->|→|::=/)]: at every position the first alternative that
    matches there is a separator; [skip] counts the code units of a
    separator that are still to be passed over. *)
Fixpoint splitArrowFrom (skip : nat) (piece s : jsstring) : list jsstring :=
  match s with
  | [] => [piece]
  | c :: r =>
    match skip with
    | S k => splitArrowFrom k piece r
    | 0 =>
      match List.find (startsWith s) ARROWS with
      | Some t => piece :: splitArrowFrom (length t - 1) [] r
      | None => splitArrowFrom 0 (piece ++ [c]) r
      end
    end
  end.

Definition splitArrow (s : jsstring) : list jsstring := splitArrowFrom 0 [] s.

(** [s.split(/\s+/)]: a separator is a maximal run of white space;
    [inSeparator] says that the last code unit belonged to one. *)
Fixpoint splitWhiteSpaceFrom (inSeparator : bool) (piece s : jsstring) : list jsstring :=
  match s with
  | [] => [piece]
  | c :: r =>
    if isWhiteSpace c then
      if inSeparator then splitWhiteSpaceFrom true piece r
      else piece :: splitWhiteSpaceFrom true [] r
    else splitWhiteSpaceFrom false (piece ++ [c]) r
  end.

Definition splitWhiteSpace (s : jsstring) : list jsstring := splitWhiteSpaceFrom false [] s.

(** The class [[{}:;(),|]]. *)
Definition isPunctuation (c : N) : bool :=
  bool_decide (c ∈ [123; 125; 58; 59; 40; 41; 44; 124]%N).

(** [s.split(/(\s+|[{}:;(),|])/)]: the separators, runs of white space
    and single punctuation marks, are captured, so they are elements of
    the result as well; [run] is the run of white space being read. *)
Fixpoint splitBodyFrom (run : option jsstring) (piece s : jsstring) : list jsstring :=
  match s with
  | [] => match run with Some w => [w; piece] | None => [piece] end
  | c :: r =>
    if isWhiteSpace c then
      match run with
      | Some w => splitBodyFrom (Some (w ++ [c])) piece r
      | None => piece :: splitBodyFrom (Some [c]) [] r
      end
    else
      let captured := match run with Some w => [w] | None => [] end in
      if isPunctuation c
      then captured ++ piece :: [c] :: splitBodyFrom None [] r
      else captured ++ splitBodyFrom None (piece ++ [c]) r
  end.

Definition splitBody (s : jsstring) : list jsstring := splitBodyFrom None [] s.

(** [.replace(/[^\w\d\s'<>]|_/g, '')]: the code units that the pattern
    matches are removed. *)
Definition matchesHeadNoise (c : N) : bool :=
  negb (isWordUnit c || isDigitUnit c || isWhiteSpace c
        || (c =? 39)%N || (c =? 60)%N || (c =? 62)%N)
  || (c =? 95)%N.

(** [parts[0].split(/\s+/)[0].replace(/[^\w\d\s'<>]|_/g, '').trim()] *)
Definition headOf (part : jsstring) : jsstring :=
  trim (List.filter (λ c, negb (matchesHeadNoise c)) (hd [] (splitWhiteSpace part))).

(** [line.split(/->|→|::=/).map(p => p.trim())] *)
Definition lineParts (line : jsstring) : list jsstring := trim <$> splitArrow line.

(** The first pass, lines 22-29: the body of [lines.forEach]. *)
Definition collectHead (nonTerminals : list jsstring) (line : jsstring) : list jsstring :=
  match lineParts line with
  | part0 :: _ =>
    if bool_decide (part0 ≠ []) then
      let head := headOf part0 in
      if bool_decide (head ≠ []) then jsset_add head nonTerminals else nonTerminals
    else nonTerminals
  | [] => nonTerminals
  end.

(** Lines 41-43: the tokens of one alternative. *)
Definition bodyTokens (bodyStr : jsstring) : list jsstring :=
  List.filter (λ t, bool_decide (t ≠ []) && bool_decide (t ≠ [BAR]))
              (trim <$> splitBody bodyStr).

(** Lines 47-57: the three branches push the marker or the token. *)
Definition bodySymbol (nonTerminals : list jsstring) (token : jsstring) : jsstring :=
  if isEpsilon token then EPS
  else if jsset_has token nonTerminals then token
  else token.

(** Lines 62-64 *)
Definition addTerminal (nonTerminals : list jsstring) (terminals : list jsstring)
    (sym : jsstring) : list jsstring :=
  if negb (jsset_has sym nonTerminals) && bool_decide (sym ≠ EPS)
  then jsset_add sym terminals else terminals.

(** The body of [bodies.forEach], lines 38-65. *)
Definition parseBody (nonTerminals : list jsstring) (head : jsstring)
    (acc : list Production * list jsstring) (bodyStr : jsstring)
    : list Production * list jsstring :=
  let finalBody := bodySymbol nonTerminals <$> bodyTokens bodyStr in
  let cleanBody := if length finalBody =? 0 then [EPS] else finalBody in
  (acc.1 ++ [{| prod_head := head; prod_body := cleanBody; prod_id := length acc.1 |}],
   foldl (addTerminal nonTerminals) acc.2 cleanBody).

(** The second pass, lines 32-66: the body of [lines.forEach]. *)
Definition parseLine (nonTerminals : list jsstring)
    (acc : list Production * list jsstring) (line : jsstring)
    : list Production * list jsstring :=
  match lineParts line with
  | part0 :: part1 :: _ =>
    foldl (parseBody nonTerminals (headOf part0)) acc (trim <$> splitUnit BAR part1)
  | _ => acc
  end.

(** [input.split('\n').filter(l => l.trim() !== '')] *)
Definition grammarLines (input : jsstring) : list jsstring :=
  List.filter (λ l, bool_decide (trim l ≠ [])) (splitUnit NEWLINE input).

Definition parseGrammar (input : jsstring) : Grammar :=
  let lines := grammarLines input in
  let nonTerminals := foldl collectHead [] lines in
  let '(productions, terminals) := foldl (parseLine nonTerminals) ([], []) lines in
  {| productions := productions;
     terminals := jsset_add DOLLAR terminals;
     nonTerminals := nonTerminals;
     startSymbol :=
       match productions with
       | p :: _ => if bool_decide (prod_head p ≠ []) then prod_head p else []
       | [] => []
       end |}.

(** The code units of a nonterminal name that the reader keeps: letters,
    digits, and ['], [<], [>]. *)
Definition isNameUnit (c : N) : bool :=
  (isWordUnit c && negb (c =? 95)%N) || (c =? 39)%N || (c =? 60)%N || (c =? 62)%N.

(** A symbol as the reader cuts it out of an alternative: one punctuation
    mark other than [|], or a word without white space and punctuation. *)
Definition isBodyWord (t : jsstring) : Prop :=
  (∃ c, t = [c] ∧ isPunctuation c = true ∧ c ≠ BAR)
  ∨ (t ≠ [] ∧ ∀ c, c ∈ t → isWhiteSpace c = false ∧ isPunctuation c = false).

(** What the second pass of [parseGrammar] maintains on the productions
    and the terminals collected so far, for the nonterminals [nts] of the
    first pass. *)
Definition readerInvariant (nts : list jsstring)
    (acc : list Production * list jsstring) : Prop :=
  prod_id <$> acc.1 = seq 0 (length acc.1)
  ∧ Forall (λ p, (prod_head p = [] ∨ prod_head p ∈ nts)
                 ∧ prod_body p ≠ []
                 ∧ ∀ sym, sym ∈ prod_body p →
                     isBodyWord sym ∧ (isEpsilon sym = true → sym = EPS)
                     ∧ (sym = EPS ∨ sym ∈ nts ∨ sym ∈ acc.2)) acc.1
  ∧ NoDup acc.2
  ∧ ∀ t, t ∈ acc.2 → (t ∉ nts) ∧ t ≠ EPS ∧ ∃ p, p ∈ acc.1 ∧ t ∈ prod_body p.

(** A recorded step whose two stacks have one height and whose forest is
    labelled by the topmost symbols of the symbol stack. *)
Definition alignedStep (s : ParseStep) : Prop :=
  length (ps_stack s) = length (ps_symbols s)
  ∧ (node_label_of <$> ps_forest s) `suffix_of` ps_symbols s.

(** The steps recorded while the loop is running: numbered by their
    position, aligned, and none of them a halt step. *)
Definition runningSteps (l : list ParseStep) : Prop :=
  ∀ i s, l !! i = Some s → ps_step s = i ∧ isHaltStep s = false ∧ alignedStep s.

(** What the loop of the simulator maintains. *)
Definition simInvariant (st : SimState) : Prop :=
  stepCount st = length (steps st)
  ∧ length (stack st) = length (symbols st)
  ∧ (node_label_of <$> nodeStack st) `suffix_of` symbols st
  ∧ runningSteps (steps st).

(** The steps of a finished run: a halt step can only be the last one. *)
Definition finishedSteps (l : list ParseStep) : Prop :=
  ∀ i s, l !! i = Some s →
    ps_step s = i ∧ alignedStep s ∧ (isHaltStep s = true → S i = length l).

(** The grammar [A' -> A], [A -> a A | ε] has this SLR(1) table. *)
Definition nullableTable : ParsingTable :=
  {| t_action :=
       {[ 0 := {[ js "a" := Shift 2; DOLLAR := Reduce 2 ]};
          1 := {[ DOLLAR := Accept ]};
          2 := {[ js "a" := Shift 2; DOLLAR := Reduce 2 ]};
          3 := {[ DOLLAR := Reduce 1 ]} ]};
     t_goto := {[ 0 := {[ js "A" := 1 ]}; 1 := ∅; 2 := {[ js "A" := 3 ]}; 3 := ∅ ]};
     t_terminals := [js "a"; DOLLAR];
     t_nonTerminals := [js "A"];
     t_conflicts := [] |}.

(** A table for [nullableGrammar] that shifts one [a] and then reduces
    by the empty production for ever. *)
Definition shiftCycleTable : ParsingTable :=
  {| t_action := {[ 0 := {[ js "a" := Shift 1 ]}; 1 := {[ DOLLAR := Reduce 2 ]} ]};
     t_goto := {[ 1 := {[ js "A" := 1 ]} ]};
     t_terminals := [js "a"; DOLLAR];
     t_nonTerminals := [js "A"];
     t_conflicts := [] |}.

(** The code units of a string that are not white space. *)
Definition visible (s : jsstring) : jsstring :=
  List.filter (λ c, negb (isWhiteSpace c)) s.

(** [symbol] stands right after the dot of [item]. *)
Definition afterDot (g : Grammar) (item : LRItem) (symbol : jsstring) : Prop :=
  ∃ prod, findProduction g (productionId item) = Some prod
          ∧ prod_body prod !! dotPosition item = Some symbol.

(** [item] with its dot moved over one symbol. *)
Definition advance (item : LRItem) : LRItem :=
  {| productionId := productionId item; dotPosition := dotPosition item + 1 |}.

(** The states of [states] are still there in [states'] with their
    items, and with a transition on every symbol on which they had one. *)
Definition keepsStates (states states' : list State) : Prop :=
  ∀ j s, states !! j = Some s →
    ∃ s', states' !! j = Some s' ∧ st_items s' = st_items s
          ∧ ∀ sym, is_Some (st_transitions s !! sym) → is_Some (st_transitions s' !! sym).

(** A state that has a transition on every symbol of [allSymbols], other
    than ['$'] and ['ε'], on which its goto is not empty. *)
Definition completeState (g : Grammar) (allSymbols : list jsstring) (s : State) : Prop :=
  ∀ sym J, sym ∈ allSymbols → sym ≠ DOLLAR → sym ≠ EPS →
    getGoto (st_items s) sym g = Ok J → J ≠ [] → is_Some (st_transitions s !! sym).

(** The actions that the automaton and the FOLLOW sets call for in the
    cell of terminal [t] in the row of a state: the shift of a
    transition on [t]; Accept on ['$'] for a completed item of the start
    symbol; the reduction of a completed item of another production when
    [t] is in FOLLOW of its head. *)
Inductive offered (g : Grammar) (ff : FirstFollowSets) (state : State) (t : jsstring)
    : ActionEntry → Prop :=
  | offered_shift n :
      st_transitions state !! t = Some n → t ∈ terminals g →
      offered g ff state t (Shift n)
  | offered_accept item prod :
      item ∈ st_items state → completedItem g item prod →
      prod_head prod = startSymbol g → t = DOLLAR →
      offered g ff state t Accept
  | offered_reduce item prod fl :
      item ∈ st_items state → completedItem g item prod →
      prod_head prod ≠ startSymbol g →
      follow ff !! prod_head prod = Some fl → t ∈ fl →
      offered g ff state t (Reduce (prod_id prod)).

(** The automaton and the FIRST and FOLLOW sets of [nullableGrammar]. *)
Definition nullableStates : list State :=
  [ {| st_id := 0;
       st_items := [mkItem 0 0; mkItem 1 0; mkItem 2 0];
       st_transitions := {[ js "A" := 1; js "a" := 2 ]} |};
    {| st_id := 1; st_items := [mkItem 0 1]; st_transitions := ∅ |};
    {| st_id := 2;
       st_items := [mkItem 1 1; mkItem 1 0; mkItem 2 0];
       st_transitions := {[ js "A" := 3; js "a" := 2 ]} |};
    {| st_id := 3; st_items := [mkItem 1 2]; st_transitions := ∅ |} ].

Definition nullableSets : FirstFollowSets :=
  {| first := {[ EPS := [EPS]; js "a" := [js "a"]; DOLLAR := [DOLLAR];
                 js "A" := [js "a"; EPS]; js "A'" := [js "a"; EPS] ]};
     follow := {[ js "A" := [DOLLAR]; js "A'" := [DOLLAR] ]} |}.

(** ** FIRST and FOLLOW as solutions of their equations *)

(** The symbols of [body] before position [i] all have ['ε'] in their
    FIRST set. *)
Definition nullableBefore (m : SetMap) (body : list jsstring) (i : nat) : Prop :=
  ∀ j s, j < i → body !! j = Some s → EPS ∈ firstOf m s.

(** The rule of FIRST for a production [A -> X1 ... Xn] holds in [m]:
    FIRST(A) has what FIRST(Xi) has, but for ['ε'], whenever all of
    [X1 ... Xi-1] can be empty, and it has ['ε'] when all of
    [X1 ... Xn] can be empty. *)
Definition firstRule (m : SetMap) (p : Production) : Prop :=
  ∃ l, m !! prod_head p = Some l
    ∧ (∀ i sym x, prod_body p !! i = Some sym → nullableBefore m (prod_body p) i →
                  x ∈ firstOf m sym → x ≠ EPS → x ∈ l)
    ∧ ((∀ s, s ∈ prod_body p → EPS ∈ firstOf m s) → EPS ∈ l).

(** A relation between symbols and terminals that has what the FIRST
    sets start with and satisfies the rule of every production. *)
Definition firstModel (g : Grammar) (F : jsstring → jsstring → Prop) : Prop :=
  (∀ s, s ∈ terminals g ∨ s = EPS ∨ s ∉ nonTerminals g → F s s)
  ∧ ∀ p, p ∈ productions g →
      (∀ i sym x, prod_body p !! i = Some sym →
                  (∀ j s, j < i → prod_body p !! j = Some s → F s EPS) →
                  F sym x → x ≠ EPS → F (prod_head p) x)
      ∧ ((∀ s, s ∈ prod_body p → F s EPS) → F (prod_head p) EPS).

(** The sets of [m] lie within [F], and every nonterminal has a set. *)
Definition withinModel (g : Grammar) (F : jsstring → jsstring → Prop) (m : SetMap) : Prop :=
  (∀ k l x, m !! k = Some l → x ∈ l → F k x)
  ∧ ∀ nt, nt ∈ nonTerminals g → is_Some (m !! nt).

(** [userStart] of lines 123-124: the first nonterminal that does not end
    with an apostrophe, when there is one and it is not the empty string. *)
Definition userStart (g : Grammar) : option jsstring :=
  match List.find (λ nt, negb (endsWith nt PRIME)) (nonTerminals g) with
  | Some (c :: u) => Some (c :: u)
  | _ => None
  end.

(** The rule of FOLLOW for a production [A -> α B β] with a nonterminal
    [B] holds in [m]: FOLLOW(B) has what FIRST of the symbols of [β] has,
    but for ['ε'], as far as [β] can be empty, and what FOLLOW(A) has
    when all of [β] can be empty. *)
Definition followRule (g : Grammar) (first m : SetMap) (p : Production) : Prop :=
  ∀ pre B beta, prod_body p = pre ++ B :: beta → B ∈ nonTerminals g →
    ∃ lB, m !! B = Some lB
      ∧ (∀ k sym x, beta !! k = Some sym → nullableBefore first beta k →
                    x ∈ firstOf first sym → x ≠ EPS → x ∈ lB)
      ∧ ((∀ s, s ∈ beta → EPS ∈ firstOf first s) →
         ∃ lh, m !! prod_head p = Some lh ∧ ∀ x, x ∈ lh → x ≠ EPS → x ∈ lB).

(** A relation between nonterminals and terminals that has the seeds of
    FOLLOW and satisfies the rule of every production. *)
Definition followModel (g : Grammar) (first : SetMap)
    (G : jsstring → jsstring → Prop) : Prop :=
  G (startSymbol g) DOLLAR
  ∧ (∀ u, userStart g = Some u → G u DOLLAR)
  ∧ ∀ p pre B beta,
      p ∈ productions g → prod_body p = pre ++ B :: beta → B ∈ nonTerminals g →
      (∀ k sym x, beta !! k = Some sym → nullableBefore first beta k →
                  x ∈ firstOf first sym → x ≠ EPS → G B x)
      ∧ ((∀ s, s ∈ beta → EPS ∈ firstOf first s) →
         ∀ x, G (prod_head p) x → x ≠ EPS → G B x).

(** The sets of [m] lie within [G]. *)
Definition setsIn (G : jsstring → jsstring → Prop) (m : SetMap) : Prop :=
  ∀ k l x, m !! k = Some l → x ∈ l → G k x.

(** Every element of a set of [m] is still in the set of [m']. *)
Definition keepsElements (m m' : SetMap) : Prop :=
  ∀ k l x, m !! k = Some l → x ∈ l → ∃ l', m' !! k = Some l' ∧ x ∈ l'.

(** * Properties *)

(** ** augmentGrammar *)

Section Augment.
Variable G : Grammar.

Lemma augment_productions_length :
  length (productions (augmentGrammar G)) = S (length (productions G)).
Proof. simpl. by rewrite length_imap. Qed.

Lemma augment_lookup_S i :
  productions (augmentGrammar G) !! S i
  = (λ p, {| prod_head := prod_head p; prod_body := prod_body p; prod_id := i + 1 |})
      <$> productions G !! i.
Proof. simpl. by rewrite list_lookup_imap. Qed.

Lemma augment_start_longer :
  length (startSymbol (augmentGrammar G)) = S (length (startSymbol G)).
Proof. simpl. rewrite length_app. simpl. lia. Qed.
End Augment.

(** C7, counterexample: on [primedGrammar], which has two productions, the
    start symbol of the augmented grammar is a nonterminal of the grammar
    itself, the head of its production 1 and a symbol of the body of its
    production 0. *)
Lemma augmentGrammar_start_not_fresh :
  productions primedGrammar ≠ []
  ∧ startSymbol (augmentGrammar primedGrammar) ∈ nonTerminals primedGrammar
  ∧ symbolOf primedGrammar (startSymbol (augmentGrammar primedGrammar)).
Proof.
  split; [done|]. split.
  - vm_compute. apply list_elem_of_In. right. by left.
  - right. right. left. vm_compute. apply list_elem_of_In. right. by left.
Qed.

(** C7, as amended: [augmentGrammar G] has exactly one more production
    than [G]; its production 0, the only one with id 0, has the new start
    symbol as head and body exactly [[S]]; the new start symbol is [S]
    followed by an apostrophe, distinct from [S] and from every symbol of
    [G] that is not spelled that way; and the production at index [i] of
    [G] appears at index [i + 1] with id [i + 1] (its own id plus one when
    ids are the indices) and with its head and body unchanged. *)
Theorem augmentGrammar_shape (G : Grammar) :
  let G' := augmentGrammar G in
  let p0 := {| prod_head := startSymbol G'; prod_body := [startSymbol G]; prod_id := 0 |} in
  length (productions G') = S (length (productions G))
  ∧ productions G' !! 0 = Some p0
  ∧ (∀ p, p ∈ productions G' → prod_id p = 0 → p = p0)
  ∧ startSymbol G' = startSymbol G ++ PRIME
  ∧ startSymbol G' ≠ startSymbol G
  ∧ (∀ s, symbolOf G s → s ≠ startSymbol G ++ PRIME → startSymbol G' ≠ s)
  ∧ (∀ i p, productions G !! i = Some p →
       ∃ p', productions G' !! S i = Some p'
             ∧ prod_head p' = prod_head p ∧ prod_body p' = prod_body p
             ∧ prod_id p' = i + 1
             ∧ (prod_id p = i → prod_id p' = prod_id p + 1))
  ∧ (∀ i p', productions G' !! S i = Some p' → is_Some (productions G !! i)).
Proof.
  intros G' p0. repeat split.
  - apply augment_productions_length.
  - intros p Hp Hid. apply list_elem_of_lookup in Hp as [[|i] Hi].
    + simpl in Hi. by inversion Hi.
    + unfold G' in Hi. rewrite augment_lookup_S in Hi.
      destruct (productions G !! i); simplify_eq/=. lia.
  - intros Heq. pose proof (augment_start_longer G) as Hl.
    fold G' in Hl. rewrite Heq in Hl. lia.
  - intros s _ Hne Heq. apply Hne. by rewrite <- Heq.
  - intros i p Hp. eexists. unfold G'. rewrite augment_lookup_S, Hp. simpl.
    repeat split; try done. intros ->. done.
  - intros i p' Hp'. unfold G' in Hp'. rewrite augment_lookup_S in Hp'.
    destruct (productions G !! i); [by eexists | done].
Qed.

(** ** The simulator: initial stacks *)

Lemma providedStack_default opts :
  default [] (providedStack opts) = default [] (opts ≫= initialStack).
Proof. unfold providedStack. by destruct (opts ≫= initialStack) as [[|??]|]. Qed.

Lemma providedSymbols_default opts :
  default [] (providedSymbols opts) = default [] (opts ≫= initialSymbols).
Proof. unfold providedSymbols. by destruct (opts ≫= initialSymbols) as [[|??]|]. Qed.

Lemma initState_stacks opts :
  (stack (initState opts), symbols (initState opts)) = initStacks opts.
Proof. unfold initState. by destruct (initStacks opts). Qed.

Lemma padding_cases (st : list nat) (sy : list tok) :
  let sy' := if length sy <? length st
             then replicate (length st - length sy) (Some DOLLAR) ++ sy else sy in
  let st' := if length st <? length sy'
             then replicate (length sy' - length st) 0 ++ st else st in
  length st' = length sy'
  ∧ ((length sy < length st ∧ st' = st
      ∧ sy' = replicate (length st - length sy) (Some DOLLAR) ++ sy)
     ∨ (length st < length sy ∧ sy' = sy
        ∧ st' = replicate (length sy - length st) 0 ++ st)
     ∨ (length st = length sy ∧ st' = st ∧ sy' = sy)).
Proof.
  intros sy' st'. unfold st', sy'.
  destruct (Nat.ltb_spec (length sy) (length st)) as [Hlt|Hge].
  - rewrite length_app, length_replicate.
    destruct (Nat.ltb_spec (length st) (length st - length sy + length sy)); [lia|].
    split; [lia|]. left. done.
  - destruct (Nat.ltb_spec (length st) (length sy)).
    + rewrite length_app, length_replicate. split; [lia|]. right. left. done.
    + split; [lia|]. right. right. split; [lia|done].
Qed.

Lemma initStacks_length opts :
  length (initStacks opts).1 = length (initStacks opts).2.
Proof. unfold initStacks. simpl. apply padding_cases. Qed.

(** The arrays the padding starts from: the given stack, or [[0]]; the
    given symbols, or one ['$'] per state. *)
Lemma initStacks_cases opts :
  let st := default [0] (providedStack opts) in
  let sy := match providedSymbols opts with
            | Some l => Some <$> l
            | None => replicate (length st) (Some DOLLAR)
            end in
  (length sy < length st ∧ initStacks opts
     = (st, replicate (length st - length sy) (Some DOLLAR) ++ sy))
  ∨ (length st < length sy ∧ initStacks opts
     = (replicate (length sy - length st) 0 ++ st, sy))
  ∨ (length st = length sy ∧ initStacks opts = (st, sy)).
Proof.
  intros st sy. pose proof (padding_cases st sy) as [_ H]. cbv zeta in H.
  destruct H as [(?&H1&H2)|[(?&H2&H1)|(?&H1&H2)]];
    [left|right;left|right;right]; (split; [done|]);
    unfold initStacks; cbv zeta; f_equal; assumption.
Qed.

(** C9: when the initial state stack and the initial symbol stack have
    unequal lengths (an absent or empty one counts as empty), the loop
    starts with two stacks of equal length: the longer one as it was given
    and the shorter one padded on its left, the symbols with ['$'] and the
    states with 0. *)
Theorem initState_pads_shorter_stack (opts : option Opts) :
  let stack0 := default [] (opts ≫= initialStack) in
  let symbols0 := default [] (opts ≫= initialSymbols) in
  length stack0 ≠ length symbols0 →
  length (stack (initState opts)) = length (symbols (initState opts))
  ∧ ((length symbols0 < length stack0
      ∧ stack (initState opts) = stack0
      ∧ symbols (initState opts)
        = replicate (length stack0 - length symbols0) (Some DOLLAR) ++ (Some <$> symbols0))
     ∨ (length stack0 < length symbols0
        ∧ symbols (initState opts) = Some <$> symbols0
        ∧ stack (initState opts)
          = replicate (length symbols0 - length stack0) 0 ++ stack0)).
Proof.
  intros stack0 symbols0 Hne.
  assert (Hs1 : stack (initState opts) = (initStacks opts).1)
    by (by rewrite <- initState_stacks).
  assert (Hs2 : symbols (initState opts) = (initStacks opts).2)
    by (by rewrite <- initState_stacks).
  rewrite Hs1, Hs2. clear Hs1 Hs2.
  split; [apply initStacks_length|].
  pose proof (initStacks_cases opts) as Hc.
  pose proof (providedStack_default opts) as HS.
  pose proof (providedSymbols_default opts) as HY.
  fold stack0 in HS. fold symbols0 in HY. cbv zeta in Hc.
  destruct (providedStack opts) as [ps|] eqn:Hps;
    destruct (providedSymbols opts) as [py|] eqn:Hpy; simpl in HS, HY;
    simpl (default _ _) in Hc.
  - (* both given *)
    subst ps py. rewrite !length_fmap in Hc.
    destruct Hc as [(?&Hc)|[(?&Hc)|(?&Hc)]]; rewrite Hc; simpl; [left|right|lia]; done.
  - (* only the stack *)
    subst ps. rewrite <- HY in *. rewrite !length_replicate in Hc.
    change (length []) with 0 in *. left. split; [lia|].
    destruct Hc as [(?&Hc)|[(?&Hc)|(?&Hc)]]; rewrite Hc; try lia. simpl.
    by rewrite Nat.sub_0_r, app_nil_r.
  - (* only the symbols *)
    subst py. rewrite <- HS in *. rewrite !length_fmap in Hc.
    change (length []) with 0 in *. change (length [0]) with 1 in *.
    right. split; [lia|].
    destruct Hc as [(?&Hc)|[(?&Hc)|(?&Hc)]]; rewrite Hc; try lia; simpl.
    + split; [done|]. rewrite Nat.sub_0_r, app_nil_r.
      destruct (length symbols0) as [|n]; [lia|]. simpl.
      by rewrite Nat.sub_0_r, <- replicate_S_end.
    + split; [done|]. rewrite Nat.sub_0_r, app_nil_r.
      destruct symbols0 as [|? [|]]; simpl in *; try lia. done.
  - (* neither *)
    rewrite <- HS, <- HY in Hne. done.
Qed.

(** C9, witness: the state stack [5] with the symbols [a b c]. *)
Lemma initState_pads_shorter_stack_witness :
  stack (initState (Some {| initialStack := Some [5];
                            initialSymbols := Some [js "a"; js "b"; js "c"];
                            debug := false |})) = [0; 0; 5].
Proof.
  destruct (initState_pads_shorter_stack
              (Some {| initialStack := Some [5];
                       initialSymbols := Some [js "a"; js "b"; js "c"];
                       debug := false |})) as [_ [(H & _)|(_ & _ & H)]].
  - simpl. lia.
  - simpl in H. lia.
  - exact H.
Defined.

(** ** The simulator: the reduce step *)

Lemma popN_poppedN {A} n (l : list A) : popN n l ++ poppedN n l = l.
Proof. apply take_drop. Qed.

Lemma poppedN_length {A} n (l : list A) : length (poppedN n l) = n `min` length l.
Proof. unfold poppedN. rewrite length_drop. lia. Qed.

Lemma poppedN_0 {A} (l : list A) : poppedN 0 l = [].
Proof. unfold poppedN. rewrite Nat.sub_0_r. apply drop_all. Qed.




(** ** The simulator: tokenizing *)

Lemma startsWith_prefix (s t : jsstring) : startsWith s t = true ↔ t `prefix_of` s.
Proof.
  revert s. induction t as [|b t IH]; intros s; simpl.
  - split; [intros _; apply prefix_nil | done].
  - destruct s as [|a s].
    + split; [done|]. intros [k Hk]. done.
    + case_decide as Hab.
      * subst b. rewrite IH. split.
        -- by apply prefix_cons.
        -- intros [k Hk]. exists k. by simplify_eq/=.
      * split; [done|]. intros [k Hk]. simplify_eq/=.
Qed.

Lemma trimStart_suffix (s : jsstring) :
  ∃ w, s = w ++ trimStart s ∧ Forall (λ c, isWhiteSpace c = true) w.
Proof.
  induction s as [|c s (w & Hw & Hall)]; simpl.
  - by exists [].
  - destruct (isWhiteSpace c) eqn:Hc.
    + exists (c :: w). split; [simpl; by f_equal | by constructor].
    + by exists [].
Qed.


Lemma trimStart_head (s : jsstring) : headNotWhite (trimStart s).
Proof.
  induction s as [|c s IH]; simpl; [done|].
  destruct (isWhiteSpace c) eqn:Hc; [done|]. simpl. done.
Qed.

Lemma trim_prefix (s : jsstring) : trim s `prefix_of` trimStart s.
Proof.
  unfold trim. destruct (trimStart_suffix (rev (trimStart s))) as (w & Hw & _).
  exists (rev w). apply (f_equal (@rev N)) in Hw.
  rewrite rev_involutive, rev_app_distr in Hw. done.
Qed.

Lemma trim_head (s : jsstring) : headNotWhite (trim s).
Proof.
  pose proof (trim_prefix s) as [k Hk]. pose proof (trimStart_head s) as Hh.
  rewrite Hk in Hh. by destruct (trim s).
Qed.

Lemma trim_length (s : jsstring) : length (trim s) ≤ length s.
Proof.
  pose proof (trim_prefix s) as [k Hk].
  destruct (trimStart_suffix s) as (w & Hw & _).
  rewrite Hw at 2. rewrite Hk, !length_app. lia.
Qed.

Lemma headNotWhite_no_space (s : jsstring) : headNotWhite s → startsWith s SPACE = false.
Proof.
  destruct s as [|c s]; simpl; [done|]. intros Hc.
  case_decide; [|done]. subst c. done.
Qed.

Lemma insertByLength_elem t x l : x ∈ insertByLength t l ↔ x = t ∨ x ∈ l.
Proof.
  induction l as [|y l IH]; simpl.
  - rewrite list_elem_of_singleton, elem_of_nil. tauto.
  - destruct (length y <=? length t); rewrite !elem_of_cons, ?IH; tauto.
Qed.

Lemma sortByLengthDesc_elem x l : x ∈ sortByLengthDesc l ↔ x ∈ l.
Proof.
  induction l as [|y l IH]; simpl; [done|].
  rewrite insertByLength_elem, IH, elem_of_cons. tauto.
Qed.


Lemma insertByLength_sorted t l :
  StronglySorted longerFirst l → StronglySorted longerFirst (insertByLength t l).
Proof.
  induction 1 as [|y l Hs IH Hall]; simpl.
  - repeat constructor.
  - destruct (Nat.leb_spec (length y) (length t)) as [Hle|Hgt].
    + constructor; [by constructor|]. constructor; [done|].
      eapply Forall_impl; [exact Hall|]. unfold longerFirst. simpl. lia.
    + constructor; [done|]. apply Forall_forall. intros x Hx.
      apply insertByLength_elem in Hx as [->|Hx].
      * unfold longerFirst. lia.
      * rewrite Forall_forall in Hall. by apply Hall.
Qed.

Lemma sortByLengthDesc_sorted l : StronglySorted longerFirst (sortByLengthDesc l).
Proof.
  induction l; simpl; [constructor | by apply insertByLength_sorted].
Qed.

(** In a list sorted longest first, the first element that satisfies a
    test is a longest one that does. *)
Lemma find_longest (P : jsstring → bool) l t :
  StronglySorted longerFirst l → List.find P l = Some t →
  t ∈ l ∧ P t = true ∧ ∀ t', t' ∈ l → P t' = true → length t' ≤ length t.
Proof.
  induction 1 as [|y l Hs IH Hall]; simpl; [done|].
  destruct (P y) eqn:Hy.
  - intros [= ->]. split; [left|]. split; [done|].
    intros t' Ht' _. apply elem_of_cons in Ht' as [->|Ht']; [done|].
    rewrite Forall_forall in Hall. by apply Hall.
  - intros Hf. destruct (IH Hf) as (Hin & HP & Hmax). split; [by right|].
    split; [done|]. intros t' Ht' HPt'.
    apply elem_of_cons in Ht' as [->|Ht']; [congruence | by apply Hmax].
Qed.

Lemma find_none_elem (P : jsstring → bool) l :
  List.find P l = None → ∀ t, t ∈ l → P t = false.
Proof.
  intros Hf t Ht. apply list_elem_of_In in Ht. by apply (find_none P l).
Qed.

Lemma sortedTerminals_elem g x : x ∈ sortedTerminals g ↔ x ∈ candidates g.
Proof. unfold sortedTerminals. by rewrite sortByLengthDesc_elem. Qed.

Lemma candidates_elem g x :
  x ∈ candidates g ↔ x ∈ terminals g ∧ x ≠ DOLLAR ∧ x ≠ EPS.
Proof.
  unfold candidates. rewrite !list_elem_of_In, filter_In.
  rewrite andb_true_iff, !negb_true_iff, !bool_decide_eq_false. tauto.
Qed.

Lemma tokenizeLoop_cons fuel sorted char rest tokens :
  tokenizeLoop (S fuel) sorted (char :: rest) tokens
  = if startsWith (char :: rest) SPACE then tokenizeLoop fuel sorted rest tokens
    else match List.find (startsWith (char :: rest)) sorted with
         | Some t => tokenizeLoop fuel sorted
                       (trim (drop (length t) (char :: rest))) (tokens ++ [t])
         | None => tokenizeLoop fuel sorted (trim rest) (tokens ++ [[char]])
         end.
Proof. reflexivity. Qed.

Section Tokenize.
Variable g : Grammar.
Hypothesis nonempty : ∀ t, t ∈ candidates g → t ≠ [].

(** The loop, started at a token with fuel for every character left,
    finishes, and the tokens it adds are those of [Lexes]. *)
Lemma tokenizeLoop_spec fuel remaining tokens :
  length remaining ≤ fuel → headNotWhite remaining →
  ∃ toks, tokenizeLoop fuel (sortedTerminals g) remaining tokens = Some (tokens ++ toks)
          ∧ Lexes (candidates g) remaining toks.
Proof.
  revert remaining tokens.
  induction fuel as [|fuel IH]; intros remaining tokens Hlen Hhead.
  - destruct remaining; [|simpl in Hlen; lia].
    exists []. simpl. rewrite app_nil_r. split; [done | constructor].
  - destruct remaining as [|char rest].
    { exists []. simpl. rewrite app_nil_r. split; [done | constructor]. }
    rewrite tokenizeLoop_cons, (headNotWhite_no_space _ Hhead).
    set (remaining := char :: rest) in *.
    destruct (List.find (startsWith remaining) (sortedTerminals g)) as [t|] eqn:Hfind.
    + apply find_longest in Hfind as (Hin & Hsw & Hmax);
        [|apply sortByLengthDesc_sorted].
      apply sortedTerminals_elem in Hin.
      assert (Hlt : 0 < length t).
      { pose proof (nonempty t Hin). destruct t; [done | simpl; lia]. }
      destruct (IH (trim (drop (length t) remaining)) (tokens ++ [t]))
        as (toks & Hrun & Hlex).
      { pose proof (trim_length (drop (length t) remaining)) as Htl.
        rewrite length_drop in Htl. lia. }
      { apply trim_head. }
      exists (t :: toks). split.
      * rewrite Hrun. by rewrite <- app_assoc.
      * apply Lexes_terminal; [done| |done].
        split; [done|]. split; [by apply startsWith_prefix|].
        intros t' Ht' Hpre. apply Hmax.
        -- by apply sortedTerminals_elem.
        -- by apply startsWith_prefix.
    + destruct (IH (trim rest) (tokens ++ [[char]])) as (toks & Hrun & Hlex).
      { pose proof (trim_length rest). simpl in Hlen. lia. }
      { apply trim_head. }
      exists ([char] :: toks). split.
      * rewrite Hrun. by rewrite <- app_assoc.
      * apply Lexes_char; [|done].
        intros t Ht Hpre. fold remaining in Hpre.
        apply startsWith_prefix in Hpre.
        rewrite (find_none_elem _ _ Hfind t) in Hpre; [done|].
        by apply sortedTerminals_elem.
Qed.

Lemma tokenize_spec fuel inputStr :
  length inputStr ≤ fuel →
  ∃ toks, tokenize fuel g inputStr = Some (toks ++ [DOLLAR])
          ∧ Lexes (candidates g) (trim inputStr) toks.
Proof.
  intros Hlen.
  destruct (tokenizeLoop_spec fuel (trim inputStr) []) as (toks & Hrun & Hlex).
  - pose proof (trim_length inputStr). lia.
  - apply trim_head.
  - exists toks. unfold tokenize. rewrite Hrun. done.
Qed.
End Tokenize.

(** C6: for a grammar none of whose terminals is the empty string, and
    fuel for every character of the input, the tokenizer returns a token
    list whose last token is ['$'] and whose other tokens are, from the
    trimmed input on, the longest terminal (other than ['$'] and ['ε'])
    that is a prefix of what remains, or one character when no terminal
    is such a prefix, with white space skipped after each token. *)
Theorem tokenize_longest_match (g : Grammar) (inputStr : jsstring) (fuel : nat) :
  (∀ t, t ∈ terminals g → t ≠ []) →
  length inputStr ≤ fuel →
  ∃ toks, tokenize fuel g inputStr = Some (toks ++ [DOLLAR])
          ∧ Lexes (candidates g) (trim inputStr) toks.
Proof.
  intros Hne Hlen. apply tokenize_spec; [|done].
  intros t Ht. apply Hne. by apply candidates_elem in Ht as [? _].
Qed.

(** C6, witness: the input [" ab abca  x a "] against the terminals
    [a], [ab], [abc]. *)
Lemma tokenize_longest_match_witness :
  ∃ toks, tokenize 15 tokenExample (js " ab abca  x a ") = Some (toks ++ [DOLLAR])
          ∧ Lexes (candidates tokenExample) (trim (js " ab abca  x a ")) toks.
Proof.
  apply (tokenize_longest_match tokenExample (js " ab abca  x a ") 15).
  - intros t Ht. vm_compute in Ht.
    repeat (apply elem_of_cons in Ht as [->|Ht]; [done|]).
    by apply elem_of_nil in Ht.
  - vm_compute. lia.
Defined.


(** Without the hypothesis the loop need not end: an empty terminal
    matches everywhere and consumes nothing. *)
Lemma tokenize_empty_terminal_diverges fuel :
  tokenize fuel emptyTerminalGrammar (js "a") = None.
Proof.
  unfold tokenize. change (trim (js "a")) with ([97%N] : jsstring).
  assert (∀ tokens, tokenizeLoop fuel (sortedTerminals emptyTerminalGrammar)
                      [97%N] tokens = None) as ->; [|done].
  induction fuel as [|fuel IH]; intros tokens; [done|].
  rewrite tokenizeLoop_cons.
  change (startsWith [97%N] SPACE) with false.
  change (List.find (startsWith [97%N]) (sortedTerminals emptyTerminalGrammar))
    with (Some ([] : jsstring)).
  cbv iota beta. change (trim (drop (length ([] : jsstring)) [97%N])) with [97%N].
  apply IH.
Qed.

(** ** The simulator: the loop and its boundary *)

Lemma reduceStep_Continue tokens g table prodId st st' :
  reduceStep tokens g table prodId st = Continue st' →
  stepCount st' = S (S (stepCount st)).
Proof.
  unfold reduceStep. destruct (findProduction g prodId) as [prod|]; [|done].
  cbv zeta. destruct (isEpsilonReduction prod); simpl;
    destruct (lookupGoto _ _ _); intros [= <-]; done.
Qed.

Lemma loopBody_Continue tokens g table st st' :
  loopBody tokens g table st = Continue st' → stepCount st < stepCount st'.
Proof.
  unfold loopBody. destruct (lookupAction _ _ _) as [[n|n|]|]; try done.
  - unfold shiftStep. intros [= <-]. simpl. lia.
  - intros H. apply reduceStep_Continue in H. lia.
Qed.

(** Every pass that stays in the loop counts at least one step, so
    [MAX_STEPS] passes are enough. *)
Lemma runLoop_finishes fuel tokens g table st :
  MAX_STEPS ≤ fuel + stepCount st → runLoop fuel tokens g table st ≠ Unfinished.
Proof.
  revert st. induction fuel as [|fuel IH]; intros st Hle; simpl.
  - destruct (Nat.ltb_spec (stepCount st) MAX_STEPS); [lia | done].
  - destruct (Nat.ltb_spec (stepCount st) MAX_STEPS); [|done].
    destruct (loopBody tokens g table st) as [st'|st'|msg st'] eqn:Hbody; try done.
    apply IH. apply loopBody_Continue in Hbody. lia.
Qed.

(** The exit by the failed test [stepCount < MAX_STEPS] adds no step. *)
Lemma runLoop_ceiling fuel tokens g table st :
  MAX_STEPS ≤ stepCount st → runLoop fuel tokens g table st = Finished st.
Proof.
  intros Hle. destruct fuel; simpl;
    destruct (Nat.ltb_spec (stepCount st) MAX_STEPS); (lia || done).
Qed.

Lemma runGuarded_cases tokens g table st :
  ∃ result, runGuarded tokens g table st = Some result
    ∧ runLoop MAX_STEPS tokens g table st ≠ Unfinished
    ∧ (∀ st', runLoop MAX_STEPS tokens g table st = Finished st' → result = steps st')
    ∧ (∀ msg st', runLoop MAX_STEPS tokens g table st = Thrown msg st' →
         ∃ e, result = steps st' ++ [e] ∧ ps_action e = ActError
              ∧ ps_explanation e = ExplRuntimeError msg
              ∧ ps_stack e = stack st' ∧ ps_symbols e = symbols st').
Proof.
  unfold runGuarded.
  pose proof (runLoop_finishes MAX_STEPS tokens g table st) as Hfin.
  destruct (runLoop MAX_STEPS tokens g table st) as [st'|msg st'|].
  - exists (steps st'). split; [done|]. split; [done|].
    split; [by intros ? [= <-] | done].
  - eexists. split; [done|]. split; [done|]. split; [done|].
    intros ?? [= <- <-]. eexists. split; [done|]. done.
  - exfalso. apply Hfin; [lia | done].
Qed.



(** What the witness run returns: one step, the converted exception. *)
Lemma danglingTable_run :
  fmap (M := option) (fmap (M := list) ps_action)
       (simulateParsing 0 [] nullableGrammar danglingTable None)
  = Some [ActError].
Proof. vm_compute. reflexivity. Qed.

(** C3, on the code: with [cyclicTable] the loop runs into the ceiling
    after 250 reductions.  The call returns the 500 steps recorded until
    then; the last one is an ordinary transition step, and no step of the
    list is an ['Error'] or ['Accept'] step: nothing tells the caller that
    the run was cut short. *)
Lemma simulateParsing_ceiling_is_silent :
  match simulateParsing 0 [] nullableGrammar cyclicTable None with
  | Some result =>
    length result = MAX_STEPS
    ∧ ps_action <$> last result = Some (ActGoTo (js "A") (Some 0) 0)
    ∧ existsb isHaltStep result = false
  | None => False
  end.
Proof. vm_compute. repeat split. Qed.

(** ** The table builder *)

Lemma cell_setCell_eq a s t e :
  is_Some (a !! s) → cell (setCell a s t e) s t = Some e.
Proof.
  intros [row Hrow]. unfold cell, setCell.
  rewrite lookup_alter_eq, Hrow. simpl. apply lookup_insert_eq.
Qed.

Lemma cell_setCell_ne a s t e s' t' :
  (s', t') ≠ (s, t) → cell (setCell a s t e) s' t' = cell a s' t'.
Proof.
  intros Hne. unfold cell, setCell.
  destruct (decide (s = s')) as [->|Hs].
  - rewrite lookup_alter_eq. destruct (a !! s') as [row|]; simpl; [|done].
    apply lookup_insert_ne. congruence.
  - by rewrite lookup_alter_ne.
Qed.

Lemma cell_row a s t row : a !! s = Some row → cell a s t = row !! t.
Proof. intros H. unfold cell. by rewrite H. Qed.

Lemma isDuplicate_true cs sid t pid ty :
  isDuplicate cs sid t pid ty = true
  ↔ ∃ c, c ∈ cs ∧ conflictKey c = (sid, t, ty, Some pid).
Proof.
  unfold isDuplicate. rewrite existsb_exists. split.
  - intros (c & Hin & Hc). exists c. split; [by apply list_elem_of_In|].
    rewrite !andb_true_iff, !bool_decide_eq_true in Hc.
    destruct Hc as (((? & ?) & ?) & ?). unfold conflictKey. congruence.
  - intros (c & Hin & Hc). exists c. split; [by apply list_elem_of_In|].
    unfold conflictKey in Hc. simplify_eq.
    rewrite !andb_true_iff, !bool_decide_eq_true. done.
Qed.

Lemma countKey_app k cs1 cs2 : countKey k (cs1 ++ cs2) = countKey k cs1 + countKey k cs2.
Proof. unfold countKey. by rewrite List.filter_app, length_app. Qed.

Lemma countKey_zero k cs : (∀ c, c ∈ cs → conflictKey c ≠ k) → countKey k cs = 0.
Proof.
  unfold countKey. induction cs as [|c cs IH]; intros H; simpl; [done|].
  rewrite bool_decide_false by (apply H; left). apply IH.
  intros c' Hc'. apply H. by right.
Qed.

Lemma countKey_singleton k c :
  countKey k [c] = if bool_decide (conflictKey c = k) then 1 else 0.
Proof. unfold countKey. simpl. by destruct (bool_decide _). Qed.


Lemma appendsOnly_refl cs : appendsOnly cs cs.
Proof. exists []. by rewrite app_nil_r. Qed.

Lemma appendsOnly_trans cs1 cs2 cs3 :
  appendsOnly cs1 cs2 → appendsOnly cs2 cs3 → appendsOnly cs1 cs3.
Proof. intros [n1 ->] [n2 ->]. exists (n1 ++ n2). by rewrite app_assoc. Qed.

Lemma appendsOnly_elem cs cs' c : appendsOnly cs cs' → c ∈ cs → c ∈ cs'.
Proof. intros [n ->] Hc. apply elem_of_app. by left. Qed.

Lemma keepsKeysUnique_refl cs : keepsKeysUnique cs cs.
Proof. intros s t ty pid. lia. Qed.

Lemma keepsKeysUnique_trans cs1 cs2 cs3 :
  keepsKeysUnique cs1 cs2 → keepsKeysUnique cs2 cs3 → keepsKeysUnique cs1 cs3.
Proof.
  intros H1 H2 s t ty pid. specialize (H1 s t ty pid). specialize (H2 s t ty pid). lia.
Qed.

Lemma keepsCells_refl a : keepsCells a a.
Proof. by intros s t e. Qed.

Section Candidate.
Variables (sid : nat) (prod : Production).

Lemma reduceCandidate_spec a cs t a' cs' :
  reduceCandidate sid prod (a, cs) t = Ok (a', cs') →
  appendsOnly cs cs' ∧ keepsKeysUnique cs cs' ∧ keepsCells a a'
  ∧ (∀ s x e, cell a' s x = Some e →
       cell a s x = Some e ∨ (s = sid ∧ cell a s x = None ∧ e = Reduce (prod_id prod)))
  ∧ match cell a sid t with
    | Some e =>
      cell a' sid t = Some e
      ∧ ∃ c, c ∈ cs' ∧ conflictKey c = (sid, t, conflictTypeOf e, Some (prod_id prod))
    | None => cell a' sid t = Some (Reduce (prod_id prod))
    end.
Proof.
  unfold reduceCandidate. simpl.
  destruct (a !! sid) as [row|] eqn:Hrow; [|done].
  rewrite (cell_row _ _ _ _ Hrow).
  destruct (row !! t) as [existing|] eqn:Ht.
  - destruct (isDuplicate cs sid t (prod_id prod) (conflictTypeOf existing)) eqn:Hdup;
      intros [= <- <-].
    + split; [apply appendsOnly_refl|]. split; [apply keepsKeysUnique_refl|].
      split; [apply keepsCells_refl|]. split; [intros; by left|].
      rewrite (cell_row _ _ _ _ Hrow).
      split; [done|]. by apply isDuplicate_true.
    + split; [by eexists|]. split.
      { intros s x ty pid. rewrite countKey_app, countKey_singleton.
        case_bool_decide as Hk; [|lia].
        rewrite countKey_zero; [lia|]. intros c Hc Hkc.
        assert (isDuplicate cs sid t (prod_id prod) (conflictTypeOf existing) = true)
          as Hd; [|congruence].
        apply isDuplicate_true. exists c. split; [done|].
        rewrite Hkc, <- Hk. done. }
      split; [apply keepsCells_refl|]. split; [intros; by left|].
      rewrite (cell_row _ _ _ _ Hrow).
      split; [done|]. eexists. split; [apply elem_of_app; right; left|]. done.
  - intros [= <- <-].
    split; [apply appendsOnly_refl|]. split; [apply keepsKeysUnique_refl|].
    split; [|split].
    + intros s x e He. rewrite cell_setCell_ne; [done|].
      intros [= -> ->]. rewrite (cell_row _ _ _ _ Hrow) in He. congruence.
    + intros s x e He. destruct (decide ((s, x) = (sid, t))) as [[= -> ->]|Hne].
      * rewrite cell_setCell_eq in He by eauto. right.
        rewrite (cell_row _ _ _ _ Hrow). split; [done|]. split; congruence.
      * rewrite cell_setCell_ne in He by done. by left.
    + apply cell_setCell_eq. eauto.
Qed.

Lemma reduceCandidates_spec fl : ∀ a cs a' cs',
  forEachM (reduceCandidate sid prod) (a, cs) fl = Ok (a', cs') →
  appendsOnly cs cs' ∧ keepsKeysUnique cs cs' ∧ keepsCells a a'
  ∧ ∀ t, t ∈ fl →
      match cell a sid t with
      | Some e =>
        cell a' sid t = Some e
        ∧ ∃ c, c ∈ cs' ∧ conflictKey c = (sid, t, conflictTypeOf e, Some (prod_id prod))
      | None => cell a' sid t = Some (Reduce (prod_id prod))
      end.
Proof.
  induction fl as [|x fl IH]; intros a cs a' cs'; simpl.
  - intros [= <- <-]. split; [apply appendsOnly_refl|].
    split; [apply keepsKeysUnique_refl|]. split; [apply keepsCells_refl|].
    intros t Ht. by apply elem_of_nil in Ht.
  - destruct (reduceCandidate sid prod (a, cs) x) as [[a1 cs1]| |] eqn:Hstep; try done.
    simpl. intros Hrest.
    apply reduceCandidate_spec in Hstep as (Happ1 & Hkey1 & Hkeep1 & Hnew1 & Hx).
    apply IH in Hrest as (Happ2 & Hkey2 & Hkeep2 & Hfl).
    split; [by eapply appendsOnly_trans|].
    split; [by eapply keepsKeysUnique_trans|].
    split; [intros s t e He; by apply Hkeep2, Hkeep1|].
    intros t Ht. apply elem_of_cons in Ht as [->|Ht].
    + destruct (cell a sid x) as [e|].
      * destruct Hx as (Hc & c & Hin & Hk). split; [by apply Hkeep2|].
        exists c. split; [by eapply appendsOnly_elem|done].
      * by apply Hkeep2.
    + specialize (Hfl t Ht). destruct (cell a sid t) as [e|] eqn:Hcell.
      * by rewrite (Hkeep1 _ _ _ Hcell) in Hfl.
      * destruct (cell a1 sid t) as [e1|] eqn:Hcell1; [|done].
        destruct (Hnew1 _ _ _ Hcell1) as [?|(_ & _ & ->)]; [congruence|].
        by destruct Hfl.
Qed.
End Candidate.

Lemma installAccept_spec sid a cs a' cs' :
  installAccept sid (a, cs) = Ok (a', cs') →
  appendsOnly cs cs' ∧ keepsKeysUnique cs cs'
  ∧ cell a' sid DOLLAR = Some Accept
  ∧ (∀ s t, (s, t) ≠ (sid, DOLLAR) → cell a' s t = cell a s t)
  ∧ (∀ e, cell a sid DOLLAR = Some e → e ≠ Accept →
       mkConflict sid DOLLAR (conflictTypeOf e) e Accept ∈ cs').
Proof.
  unfold installAccept. simpl. destruct (a !! sid) as [row|] eqn:Hrow; [|done].
  intros [= <- <-]. rewrite (cell_row _ _ _ _ Hrow).
  split; [|split; [|split; [|split]]].
  - destruct (row !! DOLLAR) as [e|]; [|apply appendsOnly_refl].
    case_bool_decide; [by eexists | apply appendsOnly_refl].
  - destruct (row !! DOLLAR) as [e|]; [|apply keepsKeysUnique_refl].
    case_bool_decide; [|apply keepsKeysUnique_refl].
    intros s t ty pid. rewrite countKey_app, countKey_singleton.
    rewrite bool_decide_false by (unfold conflictKey; simpl; congruence). lia.
  - apply cell_setCell_eq. eauto.
  - intros s t Hne. by apply cell_setCell_ne.
  - intros e -> Hne. rewrite bool_decide_true by (by destruct e).
    apply elem_of_app. right. left.
Qed.



(** The log through a whole run of the builder. *)
Lemma processItem_log g ff sid a cs item a' cs' :
  processItem g ff sid (a, cs) item = Ok (a', cs') →
  appendsOnly cs cs' ∧ keepsKeysUnique cs cs'.
Proof.
  unfold processItem.
  destruct (findProduction g (productionId item)) as [prod|]; [|done].
  destruct (isComplete item prod).
  - case_bool_decide.
    + intros Hrun. apply installAccept_spec in Hrun. tauto.
    + destruct (follow ff !! prod_head prod) as [fl|].
      * intros Hrun. apply reduceCandidates_spec in Hrun. tauto.
      * intros [= <- <-]. split; [apply appendsOnly_refl | apply keepsKeysUnique_refl].
  - intros [= <- <-]. split; [apply appendsOnly_refl | apply keepsKeysUnique_refl].
Qed.

Lemma processItems_log g ff sid items : ∀ a cs a' cs',
  forEachM (processItem g ff sid) (a, cs) items = Ok (a', cs') →
  appendsOnly cs cs' ∧ keepsKeysUnique cs cs'.
Proof.
  induction items as [|item items IH]; intros a cs a' cs'; simpl.
  - intros [= <- <-]. split; [apply appendsOnly_refl | apply keepsKeysUnique_refl].
  - destruct (processItem g ff sid (a, cs) item) as [[a1 cs1]| |] eqn:Hitem; try done.
    simpl. intros Hrest. apply processItem_log in Hitem as [? ?].
    apply IH in Hrest as [? ?].
    split; [by eapply appendsOnly_trans | by eapply keepsKeysUnique_trans].
Qed.

Lemma processState_log g ff acc state acc' :
  processState g ff acc state = Ok acc' →
  appendsOnly (acc_conflicts acc) (acc_conflicts acc')
  ∧ keepsKeysUnique (acc_conflicts acc) (acc_conflicts acc').
Proof.
  unfold processState.
  destruct (map_fold _ _ _) as [action1 goto1].
  destruct (forEachM _ _ _) as [[action2 conflicts]| |] eqn:Hitems; try done.
  simpl. intros [= <-]. simpl. by apply processItems_log in Hitems.
Qed.

Lemma processStates_log g ff states : ∀ acc acc',
  forEachM (processState g ff) acc states = Ok acc' →
  appendsOnly (acc_conflicts acc) (acc_conflicts acc')
  ∧ keepsKeysUnique (acc_conflicts acc) (acc_conflicts acc').
Proof.
  induction states as [|state states IH]; intros acc acc'; simpl.
  - intros [= <-]. split; [apply appendsOnly_refl | apply keepsKeysUnique_refl].
  - destruct (processState g ff acc state) as [acc1| |] eqn:Hstate; try done.
    simpl. intros Hrest. apply processState_log in Hstate as [? ?].
    apply IH in Hrest as [? ?].
    split; [by eapply appendsOnly_trans | by eapply keepsKeysUnique_trans].
Qed.

(** In the table that [buildTable] returns, no key (state, symbol,
    conflict kind, candidate production id) is logged twice. *)
Lemma buildTable_conflicts_unique g states ff table s t ty pid :
  buildTable g states ff = Ok table →
  countKey (s, t, ty, Some pid) (t_conflicts table) ≤ 1.
Proof.
  unfold buildTable.
  destruct (forEachM _ _ _) as [acc| |] eqn:Hrun; try done.
  simpl. intros [= <-]. simpl.
  apply processStates_log in Hrun as [_ Hkey].
  specialize (Hkey s t ty pid).
  change (countKey _ (acc_conflicts (mkTableAcc _ _ []))) with 0 in Hkey. lia.
Qed.

(** Shift actions are installed in the row that was just created for the
    state, one per transition on a terminal: they never meet an occupied
    cell, and they leave the rows of the other states alone. *)
Lemma installTransitions_row (g : Grammar) (sid : nat) (a0 : ActionTable)
    (g0 : GotoTable) (tr : gmap jsstring nat) :
  a0 !! sid = Some ∅ →
  let a1 := (map_fold (installTransition g sid) (a0, g0) tr).1 in
  (∀ s t, s ≠ sid → cell a1 s t = cell a0 s t)
  ∧ (∀ t, cell a1 sid t
          = (n ← tr !! t; if jsset_has t (terminals g) then Some (Shift n) else None)).
Proof.
  intros Hrow. cbv zeta.
  apply (map_fold_weak_ind
           (λ (r : ActionTable * GotoTable) (m : gmap jsstring nat),
              is_Some (r.1 !! sid)
              ∧ (∀ s t, s ≠ sid → cell r.1 s t = cell a0 s t)
              ∧ (∀ t, cell r.1 sid t
                      = (n ← m !! t;
                         if jsset_has t (terminals g) then Some (Shift n) else None)))).
  - simpl. split; [by eexists|]. split; [done|]. intros t.
    rewrite lookup_empty. simpl. by rewrite (cell_row _ _ _ _ Hrow), lookup_empty.
  - intros sym n m [a1 g1] Hfresh (Hsome & Hother & Hsid). simpl in *.
    unfold installTransition. simpl.
    destruct (jsset_has sym (terminals g)) eqn:Hterm; simpl.
    + split; [|split].
      * unfold setCell. destruct Hsome as [row Hr].
        rewrite lookup_alter_eq, Hr. by eexists.
      * intros s t Hs. rewrite cell_setCell_ne by congruence. by apply Hother.
      * intros t. destruct (decide (t = sym)) as [->|Hne].
        -- rewrite cell_setCell_eq by done. by rewrite lookup_insert_eq; simpl; rewrite Hterm.
        -- rewrite cell_setCell_ne by congruence. rewrite lookup_insert_ne by done.
           apply Hsid.
    + assert (∀ t, (n0 ← <[sym:=n]> m !! t;
                    if jsset_has t (terminals g) then Some (Shift n0) else None)
                   = (n0 ← m !! t;
                      if jsset_has t (terminals g) then Some (Shift n0) else None)) as Heq.
      { intros t. destruct (decide (t = sym)) as [->|Hne].
        - rewrite lookup_insert_eq, Hfresh. simpl. by rewrite Hterm.
        - by rewrite lookup_insert_ne. }
      destruct (jsset_has sym (nonTerminals g)); simpl;
        (split; [done|]; split; [done|]; intros t; rewrite Heq; apply Hsid).
Qed.

(** ** The table builder: the finished rows *)

Lemma reduceCandidate_cells sid prod a cs t a' cs' :
  reduceCandidate sid prod (a, cs) t = Ok (a', cs') →
  (∀ s x, (s, x) ≠ (sid, t) → cell a' s x = cell a s x)
  ∧ cell a' sid t
    = match cell a sid t with Some e => Some e | None => Some (Reduce (prod_id prod)) end.
Proof.
  unfold reduceCandidate. simpl. destruct (a !! sid) as [row|] eqn:Hrow; [|done].
  rewrite (cell_row _ _ _ _ Hrow).
  destruct (row !! t) as [existing|] eqn:Ht.
  - destruct (isDuplicate _ _ _ _ _); intros [= <- <-];
      (split; [done | by rewrite (cell_row _ _ _ _ Hrow)]).
  - intros [= <- <-]. split.
    + intros s x Hne. by apply cell_setCell_ne.
    + apply cell_setCell_eq. eauto.
Qed.

Lemma reduceCandidates_cells sid prod fl : ∀ a cs a' cs',
  forEachM (reduceCandidate sid prod) (a, cs) fl = Ok (a', cs') →
  ∀ s x, cell a' s x
         = if bool_decide (s = sid ∧ x ∈ fl)
           then match cell a s x with
                | Some e => Some e
                | None => Some (Reduce (prod_id prod))
                end
           else cell a s x.
Proof.
  induction fl as [|t fl IH]; intros a cs a' cs'; simpl.
  - intros [= <- <-] s x. rewrite bool_decide_false; [done|].
    intros [_ Hin]. by apply elem_of_nil in Hin.
  - destruct (reduceCandidate sid prod (a, cs) t) as [[a1 cs1]| |] eqn:Hstep; try done.
    simpl. intros Hrest s x. rewrite (IH _ _ _ _ Hrest).
    apply reduceCandidate_cells in Hstep as [Hother Hthis].
    destruct (decide ((s, x) = (sid, t))) as [[= -> ->]|Hne].
    + rewrite Hthis. rewrite (bool_decide_true (sid = sid ∧ t ∈ t :: fl))
        by (split; [done | left]).
      case_bool_decide; by destruct (cell a sid t).
    + rewrite (Hother s x Hne).
      assert ((s = sid ∧ x ∈ fl) ↔ (s = sid ∧ x ∈ t :: fl)) as Hiff.
      { rewrite elem_of_cons. split; [tauto|]. intros [-> [->|?]]; [done | tauto]. }
      by rewrite (bool_decide_ext _ _ Hiff).
Qed.

(** One item, cell by cell. *)
Lemma processItem_cell g ff sid a cs item a' cs' :
  processItem g ff sid (a, cs) item = Ok (a', cs') →
  (∀ t, cell a' sid t = stepCell g ff t (cell a sid t) item)
  ∧ (∀ s t, s ≠ sid → cell a' s t = cell a s t).
Proof.
  unfold processItem, stepCell.
  destruct (findProduction g (productionId item)) as [prod|]; [|done].
  destruct (isComplete item prod); [|by intros [= <- <-]].
  case_bool_decide as Hhead.
  - intros Hrun. apply installAccept_spec in Hrun as (_ & _ & Hacc & Hother & _).
    split.
    + intros t. case_bool_decide as Ht; [by subst t|].
      apply Hother. congruence.
    + intros s t Hs. apply Hother. congruence.
  - destruct (follow ff !! prod_head prod) as [fl|]; simpl.
    + intros Hrun. pose proof (reduceCandidates_cells _ _ _ _ _ _ _ Hrun) as Hcells.
      split.
      * intros t. rewrite Hcells.
        destruct (decide (t ∈ fl)) as [Hin|Hnotin].
        -- rewrite bool_decide_true by done. rewrite (bool_decide_true (t ∈ fl)) by done.
           done.
        -- rewrite bool_decide_false by tauto. rewrite (bool_decide_false (t ∈ fl)) by done.
           by destruct (cell a sid t).
      * intros s t Hs. rewrite Hcells. by rewrite bool_decide_false by tauto.
    + intros [= <- <-]. split; [|done]. intros t. by destruct (cell a sid t).
Qed.

Lemma processItems_cell g ff sid items : ∀ a cs a' cs',
  forEachM (processItem g ff sid) (a, cs) items = Ok (a', cs') →
  (∀ t, cell a' sid t = foldl (stepCell g ff t) (cell a sid t) items)
  ∧ (∀ s t, s ≠ sid → cell a' s t = cell a s t).
Proof.
  induction items as [|item items IH]; intros a cs a' cs'; simpl.
  - by intros [= <- <-].
  - destruct (processItem g ff sid (a, cs) item) as [[a1 cs1]| |] eqn:Hitem; try done.
    simpl. intros Hrest. apply processItem_cell in Hitem as [Hthis Hother].
    apply IH in Hrest as [Hthis' Hother']. split.
    + intros t. by rewrite Hthis', Hthis.
    + intros s t Hs. by rewrite Hother', Hother.
Qed.

(** The row of a state when the builder has processed it: [rowSpec];
    the rows of states with other ids are as they were. *)
Lemma processState_row g ff acc state acc' :
  processState g ff acc state = Ok acc' →
  (∀ t, cell (acc_action acc') (st_id state) t = rowSpec g ff state t)
  ∧ (∀ s t, s ≠ st_id state → cell (acc_action acc') s t = cell (acc_action acc) s t).
Proof.
  unfold processState.
  pose proof (installTransitions_row g (st_id state)
                (<[st_id state := ∅]> (acc_action acc))
                (<[st_id state := ∅]> (acc_goto acc)) (st_transitions state)
                (lookup_insert_eq _ _ _)) as [Hother Hrow].
  cbv zeta in Hother, Hrow.
  destruct (map_fold _ _ _) as [action1 goto1]. simpl in Hother, Hrow.
  destruct (forEachM _ _ _) as [[action2 conflicts]| |] eqn:Hitems; try done.
  simpl. intros [= <-]. simpl.
  apply processItems_cell in Hitems as [Hthis Hother']. split.
  - intros t. rewrite Hthis, Hrow. done.
  - intros s t Hs. rewrite Hother', Hother by done.
    unfold cell. by rewrite lookup_insert_ne.
Qed.

Lemma processStates_rows g ff states : ∀ acc acc',
  forEachM (processState g ff) acc states = Ok acc' →
  NoDup (st_id <$> states) →
  (∀ state t, state ∈ states →
              cell (acc_action acc') (st_id state) t = rowSpec g ff state t)
  ∧ (∀ s t, s ∉ st_id <$> states → cell (acc_action acc') s t = cell (acc_action acc) s t).
Proof.
  induction states as [|state states IH]; intros acc acc'; simpl.
  - intros [= <-] _. split; [|done]. intros state t Hin. by apply elem_of_nil in Hin.
  - destruct (processState g ff acc state) as [acc1| |] eqn:Hstate; try done.
    simpl. intros Hrest Hnd. apply NoDup_cons in Hnd as [Hnotin Hnd].
    apply processState_row in Hstate as [Hrow Hother].
    destruct (IH _ _ Hrest Hnd) as [Hrows Hothers]. split.
    + intros st t Hin. apply elem_of_cons in Hin as [->|Hin]; [|by apply Hrows].
      by rewrite Hothers, Hrow.
    + intros s t Hs. apply not_elem_of_cons in Hs as [Hne Hs].
      by rewrite Hothers, Hother.
Qed.

(** In the table that [buildTable] returns for states with pairwise
    different ids, every cell holds the first action that was offered for
    it — the shift, else the reduction of the first completed item with
    the terminal in FOLLOW of its head — or Accept on ['$'] when the state
    has a completed item of the augmented start symbol. *)
Lemma buildTable_rows g states ff table state t :
  buildTable g states ff = Ok table →
  NoDup (st_id <$> states) → state ∈ states →
  cell (t_action table) (st_id state) t = rowSpec g ff state t.
Proof.
  unfold buildTable.
  destruct (forEachM _ _ _) as [acc| |] eqn:Hrun; try done.
  simpl. intros [= <-] Hnd Hin. simpl.
  by apply (processStates_rows _ _ _ _ _ Hrun Hnd).
Qed.

(** ** LR(0) items: closure *)

Lemma areItemsEqual_true a b : areItemsEqual a b = true ↔ a = b.
Proof.
  unfold areItemsEqual. rewrite andb_true_iff, !Nat.eqb_eq.
  destruct a, b; simpl. split; [intros [-> ->]; done | intros [= -> ->]; done].
Qed.

Lemma existsb_item_elem (x : LRItem) l :
  existsb (λ it, areItemsEqual it x) l = true ↔ x ∈ l.
Proof.
  rewrite existsb_exists. split.
  - intros (y & Hin & Heq). apply areItemsEqual_true in Heq as ->.
    by apply list_elem_of_In.
  - intros Hin. exists x. split; [by apply list_elem_of_In | by apply areItemsEqual_true].
Qed.

Lemma findProduction_Some g pid prod :
  findProduction g pid = Some prod → prod ∈ productions g ∧ prod_id prod = pid.
Proof.
  unfold findProduction. intros H. apply find_some in H as [Hin Heq].
  split; [by apply list_elem_of_In | by apply Nat.eqb_eq].
Qed.

Lemma findProduction_is_Some g p :
  p ∈ productions g → is_Some (findProduction g (prod_id p)).
Proof.
  intros Hin. unfold findProduction.
  destruct (List.find _ _) eqn:Hf; [by eexists|].
  apply list_elem_of_In in Hin. eapply find_none in Hf; [|exact Hin].
  simpl in Hf. by rewrite Nat.eqb_refl in Hf.
Qed.


Section Closure.
Variable g : Grammar.
Variable items : list LRItem.


Lemma growing_length cl :
  growing g items cl → length cl ≤ length items + length (productions g).
Proof.
  intros (added & -> & Hnd & Hsub). rewrite length_app.
  assert (length added ≤ length (initialItem <$> productions g)) as Hle.
  { apply submseteq_length, NoDup_submseteq; [done|].
    intros it Hit. destruct (Hsub it Hit) as (_ & p & Hp & ->).
    by apply list_elem_of_fmap_2. }
  rewrite length_fmap in Hle. lia.
Qed.

Lemma growing_start : growing g items items.
Proof.
  exists []. rewrite app_nil_r. split; [done|]. split; [constructor|].
  intros it Hit. by apply elem_of_nil in Hit.
Qed.

(** One production offered to the closure. *)
Lemma addProductionItem_spec sym cl ch p :
  growing g items cl → p ∈ productions g →
  let r := addProductionItem sym (cl, ch) p in
  growing g items r.1 ∧ cl `prefix_of` r.1
  ∧ (prod_head p = sym → initialItem p ∈ r.1)
  ∧ (r.2 = ch ∧ r.1 = cl ∨ r.2 = true ∧ r.1 ≠ cl)
  ∧ ((prod_head p = sym → initialItem p ∈ cl) → r = (cl, ch)).
Proof.
  intros Hg Hp. unfold addProductionItem. simpl.
  case_bool_decide as Hhead; simpl.
  - fold (initialItem p).
    destruct (existsb _ cl) eqn:Hex; simpl.
    + apply existsb_item_elem in Hex. repeat split; auto.
    + assert (initialItem p ∉ cl) as Hnew.
      { intros Hin. apply existsb_item_elem in Hin. congruence. }
      split; [|split; [|split; [|split]]].
      * destruct Hg as (added & -> & Hnd & Hsub).
        exists (added ++ [initialItem p]). rewrite app_assoc. split; [done|]. split.
        -- apply NoDup_app. split; [done|]. split; [|apply NoDup_singleton].
           intros x Hx Hx'. apply list_elem_of_singleton in Hx' as ->.
           apply Hnew. apply elem_of_app. by right.
        -- intros it Hit. apply elem_of_app in Hit as [Hit|Hit]; [by apply Hsub|].
           apply list_elem_of_singleton in Hit as ->. split; [|eauto].
           intros Hin. apply Hnew. apply elem_of_app. by left.
      * by apply prefix_app_r.
      * intros _. apply elem_of_app. right. left.
      * right. split; [done|]. intros Heq.
        apply (f_equal length) in Heq. rewrite length_app in Heq. simpl in Heq. lia.
      * intros Hin. by destruct Hnew; apply Hin.
  - repeat split; auto. done.
Qed.

Lemma addProductionItems_spec sym ps : ∀ cl ch,
  growing g items cl → (∀ p, p ∈ ps → p ∈ productions g) →
  let r := foldl (addProductionItem sym) (cl, ch) ps in
  growing g items r.1 ∧ cl `prefix_of` r.1
  ∧ (∀ p, p ∈ ps → prod_head p = sym → initialItem p ∈ r.1)
  ∧ (r.2 = ch ∧ r.1 = cl ∨ r.2 = true ∧ r.1 ≠ cl)
  ∧ ((∀ p, p ∈ ps → prod_head p = sym → initialItem p ∈ cl) → r = (cl, ch)).
Proof.
  induction ps as [|p ps IH]; intros cl ch Hg Hsub; simpl.
  - split; [done|]. split; [done|]. split; [|split; [by left|done]].
    intros p Hp. by apply elem_of_nil in Hp.
  - pose proof (addProductionItem_spec sym cl ch p Hg) as Hstep.
    destruct (addProductionItem sym (cl, ch) p) as [cl1 ch1] eqn:Hadd.
    destruct Hstep as (Hg1 & Hpre1 & Hin1 & Hch1 & Hsame1); [apply Hsub; left|].
    simpl in *.
    destruct (IH cl1 ch1 Hg1) as (Hg2 & Hpre2 & Hin2 & Hch2 & Hsame2).
    { intros q Hq. apply Hsub. by right. }
    split; [done|]. split; [by etrans|]. split; [|split].
    + intros q Hq Hhead. apply elem_of_cons in Hq as [->|Hq]; [|by apply Hin2].
      destruct Hpre2 as [k ->]. apply elem_of_app. left. by apply Hin1.
    + destruct Hch2 as [[-> ->]|[-> Hne]]; [done|]. right. split; [done|].
      intros Heq. rewrite Heq in Hpre2.
      assert (cl1 = cl); [|congruence].
      apply (anti_symm prefix); done.
    + intros Hall. assert ((cl1, ch1) = (cl, ch)) as [= -> ->].
      { apply Hsame1. intros Hhead. apply Hall; [left|done]. }
      apply Hsame2. intros q Hq. apply Hall. by right.
Qed.


Lemma closureItem_spec item cl ch :
  growing g items cl → validItem g item →
  ∃ cl' ch', closureItem g item (cl, ch) = Ok (cl', ch')
    ∧ growing g items cl' ∧ cl `prefix_of` cl'
    ∧ (ch' = ch ∧ cl' = cl ∨ ch' = true ∧ cl' ≠ cl)
    ∧ (∀ prod sym p,
         findProduction g (productionId item) = Some prod →
         prod_body prod !! dotPosition item = Some sym →
         sym ∈ nonTerminals g → p ∈ productions g → prod_head p = sym →
         initialItem p ∈ cl')
    ∧ ((∀ prod sym p,
          findProduction g (productionId item) = Some prod →
          prod_body prod !! dotPosition item = Some sym →
          sym ∈ nonTerminals g → p ∈ productions g → prod_head p = sym →
          initialItem p ∈ cl) → cl' = cl ∧ ch' = ch).
Proof.
  intros Hg [prod Hprod]. unfold closureItem. rewrite Hprod.
  destruct (prod_body prod !! dotPosition item) as [sym|] eqn:Hsym.
  - unfold jsset_has. case_bool_decide as Hnt.
    + pose proof (addProductionItems_spec sym (productions g) cl ch Hg) as Hadd.
      destruct (foldl _ _ _) as [cl' ch'].
      destruct Hadd as (Hg' & Hpre & Hin & Hch & Hsame); [done|]. simpl in *.
      exists cl', ch'. split; [done|]. split; [done|]. split; [done|]. split; [done|].
      split.
      * intros prod' sym' p [= <-] Hsym' _ Hp Hhead.
        rewrite Hsym in Hsym'. injection Hsym' as <-. by apply Hin.
      * intros Hall. assert ((cl', ch') = (cl, ch)) as [= -> ->]; [|done].
        apply Hsame. intros p Hp Hhead. by eapply Hall.
    + exists cl, ch. split; [done|]. split; [done|]. split; [done|].
      split; [by left|]. split; [|done].
      intros prod' sym' p [= <-] Hsym' Hnt'.
      rewrite Hsym in Hsym'. injection Hsym' as <-. done.
  - exists cl, ch. split; [done|]. split; [done|]. split; [done|].
    split; [by left|]. split; [|done]. intros prod' sym' p [= <-] Hsym'. congruence.
Qed.


Lemma growing_valid cl : allValid g items → growing g items cl → allValid g cl.
Proof.
  intros Hv (added & -> & _ & Hsub) item Hin.
  apply elem_of_app in Hin as [Hin|Hin]; [by apply Hv|].
  destruct (Hsub item Hin) as (_ & p & Hp & ->). by apply findProduction_is_Some.
Qed.

Hypothesis items_valid : allValid g items.

(** One pass of the [for] loop, with fuel for the longest array ever. *)
Lemma closureFor_spec fuel : ∀ i cl ch,
  growing g items cl → length items + length (productions g) - i ≤ fuel →
  ∃ cl' ch', closureFor fuel g i (cl, ch) = Ok (cl', ch')
    ∧ growing g items cl' ∧ cl `prefix_of` cl'
    ∧ (ch' = ch ∧ cl' = cl ∨ ch' = true ∧ cl' ≠ cl)
    ∧ expandedFrom g i cl' cl'.
Proof.
  induction fuel as [|fuel IH]; intros i cl ch Hg Hfuel.
  - pose proof (growing_length cl Hg) as Hlen.
    assert (cl !! i = None) as Hnone by (apply lookup_ge_None; lia).
    exists cl, ch. simpl. rewrite Hnone. split; [done|]. split; [done|].
    split; [done|]. split; [by left|].
    intros j item prod sym p Hj Hitem. apply lookup_lt_Some in Hitem. lia.
  - simpl. destruct (cl !! i) as [item|] eqn:Hitem.
    + assert (validItem g item) as Hv.
      { eapply growing_valid; [done|done|]. by eapply list_elem_of_lookup_2. }
      destruct (closureItem_spec item cl ch Hg Hv)
        as (cl1 & ch1 & Hrun & Hg1 & Hpre1 & Hch1 & Hexp1 & _).
      rewrite Hrun. simpl.
      destruct (IH (S i) cl1 ch1 Hg1) as (cl2 & ch2 & Hrun2 & Hg2 & Hpre2 & Hch2 & Hexp2).
      { lia. }
      exists cl2, ch2. split; [done|]. split; [done|]. split; [by etrans|]. split.
      * destruct Hch1 as [[-> ->]|[-> Hne1]]; [done|].
        right. destruct Hch2 as [[-> ->]|[-> Hne2]]; (split; [done|]); [done|].
        intros Heq. rewrite Heq in Hpre2. apply Hne1. by apply (anti_symm prefix).
      * intros j item' prod sym p Hj Hitem' Hprod Hsym Hnt Hp Hhead.
        destruct (decide (j = i)) as [->|Hne].
        -- assert (cl2 !! i = Some item) as Hi.
           { destruct Hpre1 as [k1 ->]. destruct Hpre2 as [k2 ->].
             rewrite <- app_assoc. by apply lookup_app_l_Some. }
           rewrite Hi in Hitem'. injection Hitem' as <-.
           destruct Hpre2 as [k2 ->]. apply elem_of_app. left. by eapply Hexp1.
        -- eapply Hexp2; [|done..]. lia.
    + exists cl, ch. split; [done|]. split; [done|]. split; [done|]. split; [by left|].
      intros j item prod sym p Hj Hitem'. apply lookup_ge_None in Hitem.
      apply lookup_lt_Some in Hitem'. lia.
Qed.

Lemma expandedFrom_closed cl : expandedFrom g 0 cl cl → closedItems g cl.
Proof.
  intros Hexp item prod sym p Hin Hprod Hsym Hnt Hp Hhead.
  apply list_elem_of_lookup in Hin as [j Hj].
  eapply (Hexp j); eauto. lia.
Qed.
End Closure.

Lemma closureItem_prefix g item acc acc' :
  closureItem g item acc = Ok acc' → acc.1 `prefix_of` acc'.1.
Proof.
  unfold closureItem. destruct (findProduction _ _) as [prod|]; [|done].
  destruct (prod_body prod !! dotPosition item) as [sym|]; [|by intros [= <-]].
  destruct (jsset_has sym (nonTerminals g)); [|by intros [= <-]].
  intros [= <-]. generalize (productions g) as ps. intros ps. revert acc.
  induction ps as [|p ps IH]; intros acc; simpl; [done|].
  etrans; [|apply IH]. unfold addProductionItem.
  destruct (bool_decide _); [|done]. destruct (existsb _ _); [done|].
  simpl. by apply prefix_app_r.
Qed.

Lemma closureFor_prefix g fuel : ∀ i acc acc',
  closureFor fuel g i acc = Ok acc' → acc.1 `prefix_of` acc'.1.
Proof.
  induction fuel as [|fuel IH]; intros i acc acc'; simpl.
  - destruct (acc.1 !! i); [done | by intros [= <-]].
  - destruct (acc.1 !! i) as [item|]; [|by intros [= <-]].
    destruct (closureItem g item acc) as [acc1| |] eqn:Hitem; simpl; try done.
    intros Hrest. etrans; [by eapply closureItem_prefix | by eapply IH].
Qed.

(** On a closed set of valid items a pass changes nothing. *)
Lemma closureFor_closed g C fuel : ∀ i,
  closedItems g C → allValid g C → length C - i ≤ fuel →
  closureFor fuel g i (C, false) = Ok (C, false).
Proof.
  induction fuel as [|fuel IH]; intros i Hclosed Hvalid Hfuel; simpl.
  - rewrite (proj2 (lookup_ge_None C i)); [done | lia].
  - destruct (C !! i) as [item|] eqn:Hitem; [|done].
    assert (item ∈ C) as Hin by (by eapply list_elem_of_lookup_2).
    destruct (closureItem_spec g C item C false (growing_start g C) (Hvalid item Hin))
      as (cl1 & ch1 & Hrun & _ & _ & _ & _ & Hsame).
    destruct Hsame as [-> ->].
    { intros prod sym p Hprod Hsym Hnt Hp Hhead. by eapply Hclosed. }
    rewrite Hrun. simpl. apply IH; [done|done|lia].
Qed.

(** [getClosure] on valid items: it returns, its result starts with the
    given items, is closed, and holds valid items only. *)
Lemma getClosure_spec g items :
  allValid g items →
  ∃ C, getClosure items g = Ok C ∧ items `prefix_of` C ∧ closedItems g C
       ∧ allValid g C ∧ growing g items C.
Proof.
  intros Hvalid. unfold getClosure. cbn [closureWhile].
  destruct (closureFor_spec g items Hvalid (closureBudget items g) 0 items false)
    as (C & ch & Hrun & Hg & Hpre & Hch & Hexp).
  { apply growing_start. }
  { unfold closureBudget. lia. }
  rewrite Hrun. simpl.
  pose proof (expandedFrom_closed g C Hexp) as Hclosed.
  pose proof (growing_valid g items C Hvalid Hg) as HvalidC.
  exists C. split; [|done].
  destruct ch; [|done].
  rewrite closureFor_closed; [done|done|done|].
  pose proof (growing_length g items C Hg). unfold closureBudget. lia.
Qed.

Lemma getClosure_closed g C :
  closedItems g C → allValid g C → getClosure C g = Ok C.
Proof.
  intros Hclosed Hvalid. unfold getClosure. cbn [closureWhile].
  rewrite closureFor_closed; [done|done|done|]. unfold closureBudget. lia.
Qed.

(** A pass never runs out of the budget; when it returns, the items it
    has visited are items of productions. *)
Lemma closureFor_total g items fuel : ∀ i cl ch,
  growing g items cl → length items + length (productions g) - i ≤ fuel →
  (∃ msg, closureFor fuel g i (cl, ch) = Throw msg)
  ∨ (∃ cl' ch', closureFor fuel g i (cl, ch) = Ok (cl', ch')
       ∧ ∀ j item, i ≤ j → cl' !! j = Some item → validItem g item).
Proof.
  induction fuel as [|fuel IH]; intros i cl ch Hg Hfuel.
  - pose proof (growing_length g items cl Hg) as Hlen.
    assert (cl !! i = None) as Hnone by (apply lookup_ge_None; lia).
    right. exists cl, ch. simpl. rewrite Hnone. split; [done|].
    intros j item Hj Hitem. apply lookup_lt_Some in Hitem. lia.
  - simpl. destruct (cl !! i) as [item|] eqn:Hitem.
    + destruct (findProduction g (productionId item)) as [prod|] eqn:Hprod.
      * destruct (closureItem_spec g items item cl ch Hg)
          as (cl1 & ch1 & Hrun & Hg1 & Hpre1 & _); [by eexists|].
        rewrite Hrun. simpl.
        destruct (IH (S i) cl1 ch1 Hg1) as [[msg Hthrow]|(cl2 & ch2 & Hrun2 & Hv2)];
          [lia| by left; eexists |].
        right. exists cl2, ch2. split; [done|]. intros j item' Hj Hitem'.
        destruct (decide (j = i)) as [->|Hne]; [|apply (Hv2 j); [lia|done]].
        assert (cl2 !! i = Some item) as Hi.
        { pose proof (closureFor_prefix g fuel (S i) (cl1, ch1) _ Hrun2) as [k2 Hk2].
          simpl in Hk2. destruct Hpre1 as [k1 ->]. rewrite Hk2, <- app_assoc.
          by apply lookup_app_l_Some. }
        rewrite Hi in Hitem'. injection Hitem' as <-. by eexists.
      * left. unfold closureItem. rewrite Hprod. simpl. by eexists.
    + right. exists cl, ch. split; [done|]. intros j item Hj Hitem'.
      apply lookup_ge_None in Hitem. apply lookup_lt_Some in Hitem'. lia.
Qed.

(** [getClosure] returns or throws, and it throws exactly when one of
    the given items refers to no production: the budget of its two
    loops is never used up. *)
Lemma getClosure_total g items :
  (allValid g items ∧ ∃ C, getClosure items g = Ok C)
  ∨ (¬ allValid g items ∧ ∃ msg, getClosure items g = Throw msg).
Proof.
  destruct (closureFor_total g items (closureBudget items g) 0 items false)
    as [[msg Hthrow]|(C & ch & Hrun & Hvalid)].
  { apply growing_start. }
  { unfold closureBudget. lia. }
  - right. split.
    + intros Hall. destruct (getClosure_spec g items Hall) as (C & HC & _).
      unfold getClosure in HC. cbn [closureWhile] in HC. rewrite Hthrow in HC. done.
    + exists msg. unfold getClosure. cbn [closureWhile]. by rewrite Hthrow.
  - left. assert (allValid g items) as Hall.
    { intros item Hin. apply list_elem_of_lookup in Hin as [j Hj].
      pose proof (closureFor_prefix g _ 0 (items, false) _ Hrun) as [k Hk].
      simpl in Hk. apply (Hvalid j); [lia|]. rewrite Hk. by apply lookup_app_l_Some. }
    split; [done|]. destruct (getClosure_spec g items Hall) as (C' & HC' & _). eauto.
Qed.

(** C10: for items that refer to productions of the grammar, [getClosure]
    returns a set that contains every given item, and applied to its own
    result it returns that result again, item for item. *)
Theorem getClosure_extensive_idempotent (g : Grammar) (I : list LRItem) :
  (∀ item, item ∈ I → validItem g item) →
  ∃ C, getClosure I g = Ok C
       ∧ (∀ item, item ∈ I → item ∈ C)
       ∧ getClosure C g = Ok C
       ∧ areItemSetsEqual C C = true.
Proof.
  intros Hvalid.
  destruct (getClosure_spec g I Hvalid) as (C & Hrun & [k ->] & Hclosed & HvalidC & _).
  exists (I ++ k). split; [done|]. split; [|split].
  - intros item Hin. apply elem_of_app. by left.
  - by apply getClosure_closed.
  - unfold areItemSetsEqual. rewrite Nat.eqb_refl. simpl.
    induction (sortItems (I ++ k)) as [|x l IH]; simpl; [done|].
    rewrite IH, andb_true_r. by apply areItemsEqual_true.
Qed.

(** C10, witness: the start item of [nullableGrammar]. *)
Lemma getClosure_extensive_idempotent_witness :
  ∃ C, getClosure [{| productionId := 0; dotPosition := 0 |}] nullableGrammar = Ok C
       ∧ (∀ item, item ∈ [{| productionId := 0; dotPosition := 0 |}] → item ∈ C)
       ∧ getClosure C nullableGrammar = Ok C
       ∧ areItemSetsEqual C C = true.
Proof.
  apply (getClosure_extensive_idempotent nullableGrammar
           [{| productionId := 0; dotPosition := 0 |}]).
  intros item Hin. apply list_elem_of_singleton in Hin as ->.
  eexists. reflexivity.
Defined.

(** ** LR(0) items: equality of item sets *)

Lemma itemLe_total x y : itemLe x y = true ∨ itemLe y x = true.
Proof.
  unfold itemLe.
  destruct (Nat.ltb_spec (productionId x) (productionId y));
    destruct (Nat.ltb_spec (productionId y) (productionId x));
    destruct (Nat.eqb_spec (productionId x) (productionId y));
    destruct (Nat.eqb_spec (productionId y) (productionId x));
    destruct (Nat.leb_spec (dotPosition x) (dotPosition y));
    destruct (Nat.leb_spec (dotPosition y) (dotPosition x)); simpl; auto; lia.
Qed.

Lemma itemLe_antisym x y : itemLe x y = true → itemLe y x = true → x = y.
Proof.
  unfold itemLe. destruct x as [p1 d1], y as [p2 d2]. simpl.
  rewrite !orb_true_iff, !andb_true_iff, !Nat.ltb_lt, !Nat.eqb_eq, !Nat.leb_le.
  intros [?|[? ?]] [?|[? ?]]; try lia. f_equal; lia.
Qed.

Lemma itemLe_trans x y z : itemLe x y = true → itemLe y z = true → itemLe x z = true.
Proof.
  unfold itemLe. destruct x as [p1 d1], y as [p2 d2], z as [p3 d3]. simpl.
  rewrite !orb_true_iff, !andb_true_iff, !Nat.ltb_lt, !Nat.eqb_eq, !Nat.leb_le.
  intros [?|[? ?]] [?|[? ?]]; [left|left|left|right]; lia.
Qed.

Lemma insertItem_Permutation x l : insertItem x l ≡ₚ x :: l.
Proof.
  induction l as [|y l IH]; simpl; [done|].
  destruct (itemLe x y); [done|]. rewrite IH. apply Permutation_swap.
Qed.

Lemma sortItems_Permutation l : sortItems l ≡ₚ l.
Proof.
  induction l as [|x l IH]; simpl; [done|].
  by rewrite insertItem_Permutation, IH.
Qed.

Lemma insertItem_sorted x l :
  StronglySorted itemOrder l → StronglySorted itemOrder (insertItem x l).
Proof.
  induction 1 as [|y l Hs IH Hall]; simpl.
  - repeat constructor.
  - destruct (itemLe x y) eqn:Hxy.
    + constructor; [by constructor|]. constructor; [done|].
      eapply Forall_impl; [exact Hall|]. intros z Hz. by eapply itemLe_trans.
    + constructor; [done|]. rewrite insertItem_Permutation. constructor; [|done].
      destruct (itemLe_total x y); [congruence|done].
Qed.

Lemma sortItems_sorted l : StronglySorted itemOrder (sortItems l).
Proof. induction l; simpl; [constructor | by apply insertItem_sorted]. Qed.

Lemma everyEqual_true a b : length a = length b → everyEqual a b = true ↔ a = b.
Proof.
  revert b. induction a as [|x a IH]; intros [|y b] Hlen; simpl in *; try done.
  rewrite andb_true_iff, areItemsEqual_true, IH by lia.
  split; [intros [-> ->]; done | intros [= -> ->]; done].
Qed.

(** [areItemSetsEqual] decides equality up to the order of the items. *)
Lemma areItemSetsEqual_Permutation a b : areItemSetsEqual a b = true ↔ a ≡ₚ b.
Proof.
  unfold areItemSetsEqual.
  destruct (Nat.eqb_spec (length a) (length b)) as [Hlen|Hlen]; simpl.
  - rewrite everyEqual_true
      by (by rewrite (Permutation_length (sortItems_Permutation a)),
                     (Permutation_length (sortItems_Permutation b))).
    split.
    + intros Heq. by rewrite <- (sortItems_Permutation a), Heq, sortItems_Permutation.
    + intros Hperm.
      apply (StronglySorted_unique_strong itemOrder);
        [|apply sortItems_sorted..|by rewrite !sortItems_Permutation].
      intros ?? _ _. apply itemLe_antisym.
  - split; [done|]. intros Hperm. by apply Permutation_length in Hperm.
Qed.

Lemma areItemSetsEqual_refl a : areItemSetsEqual a a = true.
Proof. by apply areItemSetsEqual_Permutation. Qed.

(** ** LR(0) items: the goto function *)

Lemma boundedItem_valid g item : boundedItem g item → validItem g item.
Proof. intros (prod & Hprod & _). by eexists. Qed.

Lemma initialItem_bounded g p : p ∈ productions g → boundedItem g (initialItem p).
Proof.
  intros Hp. destruct (findProduction_is_Some g p Hp) as [prod Hprod].
  exists prod. split; [done|]. simpl. lia.
Qed.

Lemma getClosure_bounded g items :
  (∀ item, item ∈ items → boundedItem g item) → NoDup items →
  ∃ C, getClosure items g = Ok C ∧ items `prefix_of` C ∧ NoDup C
       ∧ ∀ item, item ∈ C → boundedItem g item.
Proof.
  intros Hb Hnd.
  destruct (getClosure_spec g items) as (C & Hrun & Hpre & _ & _ & Hgrow).
  { intros item Hin. by apply boundedItem_valid, Hb. }
  exists C. split; [done|]. split; [done|].
  destruct Hgrow as (added & -> & Hnd' & Hadded). split.
  - apply NoDup_app. split; [done|]. split; [|done].
    intros x Hx Hx'. by destruct (Hadded x Hx').
  - intros item Hin. apply elem_of_app in Hin as [Hin|Hin]; [by apply Hb|].
    destruct (Hadded item Hin) as (_ & p & Hp & ->). by apply initialItem_bounded.
Qed.

(** The items that [getGoto] advances over [symbol]. *)
Lemma gotoItems_spec g symbol items : ∀ acc,
  (∀ item, item ∈ items → boundedItem g item) → NoDup items →
  ∃ next, forEachM (gotoItem g symbol) acc items = Ok (acc ++ next)
    ∧ (∀ it, it ∈ next →
         boundedItem g it
         ∧ ∃ item, item ∈ items ∧ it = {| productionId := productionId item;
                                          dotPosition := dotPosition item + 1 |})
    ∧ NoDup next.
Proof.
  induction items as [|item items IH]; intros acc Hb Hnd; simpl.
  - exists []. rewrite app_nil_r. split; [done|]. split; [|constructor].
    intros it Hit. by apply elem_of_nil in Hit.
  - apply NoDup_cons in Hnd as [Hnotin Hnd].
    destruct (Hb item) as (prod & Hprod & Hdot); [left|].
    unfold gotoItem at 1. rewrite Hprod.
    assert (∀ acc', ∃ next,
              forEachM (gotoItem g symbol) acc' items = Ok (acc' ++ next)
              ∧ (∀ it, it ∈ next →
                   boundedItem g it
                   ∧ ∃ item0, item0 ∈ item :: items
                        ∧ it = {| productionId := productionId item0;
                                  dotPosition := dotPosition item0 + 1 |})
              ∧ NoDup next
              ∧ (∀ it, it ∈ next → ∃ item0, item0 ∈ items
                        ∧ it = {| productionId := productionId item0;
                                  dotPosition := dotPosition item0 + 1 |})) as Hrest.
    { intros acc'. destruct (IH acc') as (next & Hrun & Hnext & Hndn); [|done|].
      { intros ??. apply Hb. by right. }
      exists next. split; [done|]. split; [|split; [done|]].
      - intros it Hit. destruct (Hnext it Hit) as (? & item0 & ? & ?).
        split; [done|]. exists item0. split; [by right|done].
      - intros it Hit. destruct (Hnext it Hit) as (? & item0 & ? & ?). eauto. }
    destruct (prod_body prod !! dotPosition item) as [sym|] eqn:Hsym; simpl.
    + case_bool_decide as Heq; simpl.
      * destruct (Hrest (acc ++ [{| productionId := productionId item;
                                    dotPosition := dotPosition item + 1 |}]))
          as (next & Hrun & Hnext & Hndn & Hfrom).
        exists ({| productionId := productionId item;
                   dotPosition := dotPosition item + 1 |} :: next).
        split; [by rewrite Hrun, <- app_assoc|]. split.
        -- intros it Hit. apply elem_of_cons in Hit as [->|Hit]; [|by apply Hnext].
           split; [|exists item; split; [left|done]].
           exists prod. simpl. split; [done|].
           apply lookup_lt_Some in Hsym. lia.
        -- apply NoDup_cons. split; [|done]. intros Hin.
           destruct (Hfrom _ Hin) as (item0 & Hin0 & Heq0).
           apply Hnotin. destruct item as [p1 d1], item0 as [p2 d2]. simpl in *.
           injection Heq0 as -> Hd. assert (d1 = d2) as -> by lia.
           done.
      * destruct (Hrest acc) as (next & Hrun & Hnext & Hndn & _). eauto.
    + destruct (Hrest acc) as (next & Hrun & Hnext & Hndn & _). eauto.
Qed.

Lemma getGoto_bounded g items symbol :
  (∀ item, item ∈ items → boundedItem g item) → NoDup items →
  ∃ C, getGoto items symbol g = Ok C ∧ NoDup C
       ∧ ∀ item, item ∈ C → boundedItem g item.
Proof.
  intros Hb Hnd. unfold getGoto.
  destruct (gotoItems_spec g symbol items [] Hb Hnd) as (next & Hrun & Hnext & Hndn).
  rewrite Hrun. simpl.
  destruct (getClosure_bounded g next) as (C & HC & _ & HndC & HbC); [|done|eauto].
  intros it Hit. by destruct (Hnext it Hit).
Qed.

(** ** The automaton: the invariant of buildDFA *)

Lemma extendsStates_refl states : extendsStates states states.
Proof. split; [done|]. intros i s Hs. by exists s. Qed.

Lemma extendsStates_trans s1 s2 s3 :
  extendsStates s1 s2 → extendsStates s2 s3 → extendsStates s1 s3.
Proof.
  intros [Hl1 H1] [Hl2 H2]. split; [lia|]. intros i s Hs.
  destruct (H1 i s Hs) as (s' & Hs' & Hid & Hitems).
  destruct (H2 i s' Hs') as (s'' & Hs'' & Hid' & Hitems').
  exists s''. split; [done|]. split; congruence.
Qed.

Lemma setTransition_lookup i symbol target states j :
  setTransition i symbol target states !! j
  = if decide (i = j)
    then (λ s, {| st_id := st_id s; st_items := st_items s;
                  st_transitions := <[symbol := target]> (st_transitions s) |})
           <$> states !! i
    else states !! j.
Proof. unfold setTransition. apply list_lookup_alter. Qed.

Lemma setTransition_length i symbol target states :
  length (setTransition i symbol target states) = length states.
Proof. unfold setTransition. apply length_alter. Qed.

(** A state of the array after [setTransition], and the state it was. *)
Lemma setTransition_inv i symbol target states j s' :
  setTransition i symbol target states !! j = Some s' →
  ∃ s, states !! j = Some s ∧ st_id s' = st_id s ∧ st_items s' = st_items s
       ∧ (st_transitions s' = st_transitions s
          ∨ j = i ∧ st_transitions s' = <[symbol := target]> (st_transitions s)).
Proof.
  rewrite setTransition_lookup. case_decide as Hij.
  - subst j. destruct (states !! i) as [s|]; [|done]. intros [= <-].
    exists s. simpl. split; [done|]. split; [done|]. split; [done|]. by right.
  - intros Hs. exists s'. split; [done|]. split; [done|]. split; [done|]. by left.
Qed.

Lemma setTransition_keeps i symbol target states j s :
  states !! j = Some s →
  ∃ s', setTransition i symbol target states !! j = Some s'
        ∧ st_id s' = st_id s ∧ st_items s' = st_items s.
Proof.
  intros Hs. rewrite setTransition_lookup. case_decide as Hij.
  - subst j. rewrite Hs. eexists. simpl. done.
  - by exists s.
Qed.

Lemma extendsStates_setTransition i symbol target states :
  extendsStates states (setTransition i symbol target states).
Proof.
  split; [by rewrite setTransition_length|]. intros j s Hs.
  by apply setTransition_keeps.
Qed.

Lemma extendsStates_push states s : extendsStates states (states ++ [s]).
Proof.
  split; [rewrite length_app; lia|]. intros i s0 Hs0. exists s0.
  split; [by apply lookup_app_l_Some | done].
Qed.

Section Invariant.
Variable g : Grammar.
Variable C0 : list LRItem.

(** Recording a transition whose target holds the goto set. *)
Lemma dfaInvariant_setTransition states i cur symbol t :
  dfaInvariant g C0 states →
  states !! i = Some cur →
  symbol ≠ DOLLAR → symbol ≠ EPS →
  (∃ target I', states !! t = Some target
                ∧ getGoto (st_items cur) symbol g = Ok I' ∧ I' ≠ []
                ∧ areItemSetsEqual (st_items target) I' = true) →
  dfaInvariant g C0 (setTransition i symbol t states).
Proof.
  intros [Hinit Hids Hitems Hdist Htrans] Hcur Hd He Htarget. split.
  - destruct Hinit as (s0 & Hs0 & HC0).
    destruct (setTransition_keeps i symbol t states 0 s0 Hs0) as (s' & Hs' & _ & Hit).
    exists s'. split; [done|]. congruence.
  - intros j s' Hs'. apply setTransition_inv in Hs' as (s & Hs & Hid & _).
    rewrite Hid. by apply Hids.
  - intros j s' Hs'. apply setTransition_inv in Hs' as (s & Hs & _ & Hit & _).
    rewrite Hit. by eapply Hitems.
  - intros j k sj sk Hj Hk.
    apply setTransition_inv in Hj as (sj0 & Hj & _ & Hitj & _).
    apply setTransition_inv in Hk as (sk0 & Hk & _ & Hitk & _).
    rewrite Hitj, Hitk. by eapply Hdist.
  - intros j s' sym t' Hs' Hsym.
    apply setTransition_inv in Hs' as (s & Hs & _ & Hit & Htr).
    assert (sym ≠ DOLLAR ∧ sym ≠ EPS
            ∧ ∃ target I', states !! t' = Some target
                ∧ getGoto (st_items s) sym g = Ok I' ∧ I' ≠ []
                ∧ areItemSetsEqual (st_items target) I' = true) as Hold.
    { destruct Htr as [Htr|[-> Htr]]; rewrite Htr in Hsym.
      - by eapply Htrans.
      - rewrite Hcur in Hs. injection Hs as <-.
        destruct (decide (sym = symbol)) as [->|Hne].
        + rewrite lookup_insert_eq in Hsym. injection Hsym as <-. done.
        + rewrite lookup_insert_ne in Hsym by done. by eapply Htrans. }
    destruct Hold as (? & ? & target & I' & Htg & Hgoto & Hne & Heq).
    split; [done|]. split; [done|].
    destruct (setTransition_keeps i symbol t states t' target Htg)
      as (target' & Htg' & _ & Hit').
    exists target', I'. rewrite Hit, Hit'. done.
Qed.

(** Appending a state whose items no state has yet. *)
Lemma dfaInvariant_push states next :
  dfaInvariant g C0 states →
  NoDup next → (∀ item, item ∈ next → boundedItem g item) →
  (∀ j s, states !! j = Some s → areItemSetsEqual (st_items s) next ≠ true) →
  dfaInvariant g C0
    (states ++ [{| st_id := length states; st_items := next; st_transitions := ∅ |}]).
Proof.
  intros [Hinit Hids Hitems Hdist Htrans] Hnd Hb Hnew.
  set (new := {| st_id := length states; st_items := next; st_transitions := ∅ |}).
  assert (∀ j s, (states ++ [new]) !! j = Some s →
                 states !! j = Some s ∨ j = length states ∧ s = new) as Hcases.
  { intros j s Hs. apply lookup_app_Some in Hs as [Hs|[Hge Hs]]; [by left|].
    right. apply list_lookup_singleton_Some in Hs as [Hz ->]. split; [lia|done]. }
  split.
  - destruct Hinit as (s0 & Hs0 & HC0). exists s0.
    split; [by apply lookup_app_l_Some | done].
  - intros j s Hs. destruct (Hcases j s Hs) as [Hs'|[-> ->]]; [by apply Hids|done].
  - intros j s Hs. destruct (Hcases j s Hs) as [Hs'|[-> ->]]; [by eapply Hitems|done].
  - intros j k sj sk Hj Hk Heq.
    destruct (Hcases j sj Hj) as [Hj'|[-> ->]];
      destruct (Hcases k sk Hk) as [Hk'|[-> ->]]; [by eapply Hdist| | |done].
    + exfalso. by eapply Hnew.
    + exfalso. eapply Hnew; [exact Hk'|].
      apply areItemSetsEqual_Permutation. symmetry.
      by apply areItemSetsEqual_Permutation.
  - intros j s sym t Hs Hsym. destruct (Hcases j s Hs) as [Hs'|[-> ->]]; [|done].
    destruct (Htrans j s sym t Hs' Hsym) as (? & ? & target & I' & Htg & ?).
    split; [done|]. split; [done|]. exists target, I'.
    split; [by apply lookup_app_l_Some | done].
Qed.

Lemma findStateIndex_Some states next idx :
  findStateIndex states next = Some idx →
  ∃ target, states !! idx = Some target
            ∧ areItemSetsEqual (st_items target) next = true.
Proof.
  unfold findStateIndex. destruct (list_find _ states) as [[i s]|] eqn:Hfind; [|done].
  simpl. intros [= <-]. apply list_find_Some in Hfind as (Hs & Heq & _). eauto.
Qed.

Lemma findStateIndex_None states next :
  findStateIndex states next = None →
  ∀ j s, states !! j = Some s → areItemSetsEqual (st_items s) next ≠ true.
Proof.
  unfold findStateIndex. destruct (list_find _ states) as [[i s]|] eqn:Hfind; [done|].
  intros _ j s Hs. apply list_find_None in Hfind. rewrite Forall_forall in Hfind.
  apply Hfind. by eapply list_elem_of_lookup_2.
Qed.

(** One symbol tried on the state at index [i]. *)
Lemma dfaSymbol_spec states i cur symbol :
  dfaInvariant g C0 states → states !! i = Some cur →
  ∃ states', dfaSymbol g i (st_items cur) states symbol = Ok states'
    ∧ dfaInvariant g C0 states' ∧ extendsStates states states'.
Proof.
  intros Hinv Hcur. unfold dfaSymbol.
  destruct (bool_decide (symbol = DOLLAR) || bool_decide (symbol = EPS)) eqn:Hskip.
  { exists states. split; [done|]. split; [done | apply extendsStates_refl]. }
  apply orb_false_iff in Hskip as [Hd He].
  apply bool_decide_eq_false in Hd, He.
  destruct (dfa_items _ _ _ Hinv i cur Hcur) as [Hnd Hb].
  destruct (getGoto_bounded g (st_items cur) symbol Hb Hnd) as (next & Hgoto & Hndn & Hbn).
  rewrite Hgoto. simpl.
  destruct (Nat.eqb_spec (length next) 0) as [Hz|Hnz].
  { exists states. split; [done|]. split; [done | apply extendsStates_refl]. }
  assert (next ≠ []) as Hne by (by destruct next).
  destruct (findStateIndex states next) as [idx|] eqn:Hfind.
  - apply findStateIndex_Some in Hfind as (target & Htarget & Heq).
    eexists. split; [done|]. split; [|apply extendsStates_setTransition].
    eapply dfaInvariant_setTransition; eauto 10.
  - pose proof (findStateIndex_None _ _ Hfind) as Hnew.
    eexists. split; [done|]. split.
    + eapply dfaInvariant_setTransition.
      * by apply dfaInvariant_push.
      * by apply lookup_app_l_Some.
      * done.
      * done.
      * eexists _, next. split; [|split; [done|split; [done|]]].
        -- rewrite lookup_app_r by lia. rewrite Nat.sub_diag. done.
        -- apply areItemSetsEqual_refl.
    + eapply extendsStates_trans;
        [apply extendsStates_push | apply extendsStates_setTransition].
Qed.

(** All the symbols tried on the state at index [i]. *)
Lemma dfaSymbols_spec symbols i items : ∀ states,
  dfaInvariant g C0 states →
  (∃ cur, states !! i = Some cur ∧ st_items cur = items) →
  ∃ states', forEachM (dfaSymbol g i items) states symbols = Ok states'
    ∧ dfaInvariant g C0 states' ∧ extendsStates states states'.
Proof.
  induction symbols as [|symbol symbols IH]; intros states Hinv (cur & Hcur & Hitems);
    simpl.
  - exists states. split; [done|]. split; [done | apply extendsStates_refl].
  - destruct (dfaSymbol_spec states i cur symbol Hinv Hcur)
      as (states1 & Hrun & Hinv1 & Hext1).
    rewrite Hitems in Hrun. rewrite Hrun. simpl.
    destruct (proj2 Hext1 i cur Hcur) as (cur' & Hcur' & _ & Hitems').
    destruct (IH states1 Hinv1) as (states2 & Hrun2 & Hinv2 & Hext2).
    { exists cur'. split; [done|]. congruence. }
    exists states2. split; [done|]. split; [done|].
    by eapply extendsStates_trans.
Qed.
End Invariant.

(** ** The automaton: termination of buildDFA *)

Lemma allVectors_elem v : v ∈ allVectors (length v).
Proof.
  induction v as [|b v IH]; simpl; [left|].
  apply elem_of_app. destruct b; [left|right]; by apply list_elem_of_fmap_2.
Qed.

Lemma allVectors_length n : length (allVectors n) = 2 ^ n.
Proof.
  induction n as [|n IH]; simpl; [done|].
  rewrite length_app, !length_fmap, IH. lia.
Qed.

Lemma itemVector_length g I : length (itemVector g I) = length (itemUniverse g).
Proof. unfold itemVector. by rewrite length_fmap. Qed.

Lemma boundedItem_universe g item : boundedItem g item → item ∈ itemUniverse g.
Proof.
  intros (prod & Hprod & Hdot). apply findProduction_Some in Hprod as [Hin Hid].
  unfold itemUniverse. apply list_elem_of_In, in_flat_map.
  exists prod. split; [by apply list_elem_of_In|].
  apply list_elem_of_In, list_elem_of_fmap. exists (dotPosition item). split.
  - destruct item. simpl in *. by subst.
  - apply list_elem_of_In, in_seq. lia.
Qed.

(** Two sets of items of the universe with one membership vector have
    the same items. *)
Lemma itemVector_subset g I J :
  (∀ item, item ∈ I → boundedItem g item) →
  itemVector g I = itemVector g J → ∀ item, item ∈ I → item ∈ J.
Proof.
  intros HI Heq item Hin.
  pose proof (boundedItem_universe g item (HI item Hin)) as Hu.
  apply list_elem_of_lookup in Hu as [k Hk].
  assert (itemVector g I !! k = Some true) as Htrue.
  { unfold itemVector. rewrite list_lookup_fmap, Hk. simpl.
    by rewrite bool_decide_true. }
  rewrite Heq in Htrue. unfold itemVector in Htrue.
  rewrite list_lookup_fmap, Hk in Htrue. simpl in Htrue.
  injection Htrue as Htrue. by apply bool_decide_eq_true in Htrue.
Qed.

Lemma itemVector_inj g I J :
  (∀ item, item ∈ I → boundedItem g item) →
  (∀ item, item ∈ J → boundedItem g item) →
  NoDup I → NoDup J →
  itemVector g I = itemVector g J → areItemSetsEqual I J = true.
Proof.
  intros HI HJ HndI HndJ Heq. apply areItemSetsEqual_Permutation.
  apply NoDup_Permutation; [done|done|]. intros item. split.
  - by apply (itemVector_subset g I J).
  - by apply (itemVector_subset g J I).
Qed.

(** There are no more states than sets of items. *)
Lemma dfaInvariant_bound g C0 states :
  dfaInvariant g C0 states → length states ≤ stateBound g.
Proof.
  intros Hinv. unfold stateBound. rewrite <- allVectors_length.
  rewrite <- (length_fmap (λ s, itemVector g (st_items s)) states).
  apply submseteq_length, NoDup_submseteq.
  - apply NoDup_alt. intros i j v Hi Hj.
    rewrite list_lookup_fmap in Hi, Hj.
    destruct (states !! i) as [si|] eqn:Hsi; [|done].
    destruct (states !! j) as [sj|] eqn:Hsj; [|done].
    simpl in Hi, Hj. injection Hi as Hi. injection Hj as Hj.
    destruct (dfa_items _ _ _ Hinv i si Hsi) as [Hndi Hbi].
    destruct (dfa_items _ _ _ Hinv j sj Hsj) as [Hndj Hbj].
    eapply (dfa_distinct _ _ _ Hinv); [done|done|].
    apply (itemVector_inj g); try done. congruence.
  - intros v Hv. apply list_elem_of_fmap in Hv as (s & -> & _).
    rewrite <- (itemVector_length g (st_items s)). apply allVectors_elem.
Qed.

(** The loop over the states, with fuel for every state there can be. *)
Lemma dfaLoop_spec g C0 allSymbols fuel : ∀ i states,
  dfaInvariant g C0 states → stateBound g - i ≤ fuel →
  ∃ states', dfaLoop fuel g allSymbols i states = Ok states'
    ∧ dfaInvariant g C0 states' ∧ extendsStates states states'.
Proof.
  induction fuel as [|fuel IH]; intros i states Hinv Hfuel; simpl.
  - pose proof (dfaInvariant_bound g C0 states Hinv) as Hb.
    rewrite (proj2 (lookup_ge_None states i)) by lia.
    exists states. split; [done|]. split; [done | apply extendsStates_refl].
  - destruct (states !! i) as [cur|] eqn:Hcur.
    + destruct (dfaSymbols_spec g C0 allSymbols i (st_items cur) states Hinv)
        as (states1 & Hrun & Hinv1 & Hext1); [by exists cur|].
      rewrite Hrun. simpl.
      destruct (IH (S i) states1 Hinv1) as (states2 & Hrun2 & Hinv2 & Hext2); [lia|].
      exists states2. split; [done|]. split; [done|]. by eapply extendsStates_trans.
    + exists states. split; [done|]. split; [done | apply extendsStates_refl].
Qed.

(** The result does not depend on the fuel, once there is enough. *)
Lemma dfaLoop_deterministic g allSymbols fuel1 : ∀ fuel2 i states r1 r2,
  dfaLoop fuel1 g allSymbols i states = Ok r1 →
  dfaLoop fuel2 g allSymbols i states = Ok r2 → r1 = r2.
Proof.
  induction fuel1 as [|fuel1 IH]; intros fuel2 i states r1 r2; simpl.
  - destruct (states !! i) eqn:Hi; [done|]. intros [= <-].
    destruct fuel2; simpl; rewrite Hi; by intros [= <-].
  - destruct (states !! i) as [cur|] eqn:Hi.
    + destruct fuel2 as [|fuel2]; simpl; rewrite Hi; [done|].
      destruct (forEachM _ states allSymbols) as [states1| |]; simpl; try done.
      apply IH.
    + intros [= <-]. destruct fuel2; simpl; rewrite Hi; by intros [= <-].
Qed.

Lemma findProduction_first g p0 rest :
  productions g = p0 :: rest → findProduction g (prod_id p0) = Some p0.
Proof. intros Hp. unfold findProduction. rewrite Hp. simpl. by rewrite Nat.eqb_refl. Qed.

(** [buildDFA] on a grammar with a first production [p0]. *)
Lemma buildDFA_spec g p0 rest :
  productions g = p0 :: rest →
  ∃ C0 states,
    getClosure [initialItem p0] g = Ok C0
    ∧ (∀ fuel, stateBound g ≤ fuel → buildDFA fuel g = Ok states)
    ∧ dfaInvariant g C0 states.
Proof.
  intros Hp.
  destruct (getClosure_bounded g [initialItem p0]) as (C0 & HC0 & _ & Hnd & Hb).
  { intros item Hin. apply list_elem_of_singleton in Hin as ->.
    exists p0. split; [by eapply findProduction_first|]. simpl. lia. }
  { apply NoDup_singleton. }
  assert (dfaInvariant g C0 [{| st_id := 0; st_items := C0; st_transitions := ∅ |}])
    as Hinv.
  { split.
    - by eexists.
    - intros i s Hs. apply list_lookup_singleton_Some in Hs as [-> <-]. done.
    - intros i s Hs. apply list_lookup_singleton_Some in Hs as [-> <-]. done.
    - intros i j si sj Hi Hj _.
      apply list_lookup_singleton_Some in Hi as [-> _].
      apply list_lookup_singleton_Some in Hj as [-> _]. done.
    - intros i s sym t Hs. apply list_lookup_singleton_Some in Hs as [-> <-]. done. }
  destruct (dfaLoop_spec g C0 (nonTerminals g ++ terminals g) (stateBound g) 0 _ Hinv)
    as (states & Hrun & Hinv' & _); [lia|].
  exists C0, states. split; [done|]. split; [|done].
  intros fuel Hfuel.
  destruct (dfaLoop_spec g C0 (nonTerminals g ++ terminals g) fuel 0 _ Hinv)
    as (states' & Hrun' & _); [lia|].
  unfold buildDFA. rewrite Hp. fold (initialItem p0). rewrite HC0. simpl.
  rewrite Hrun'. f_equal. by eapply dfaLoop_deterministic.
Qed.

(** C8: for every augmented grammar, with fuel for as many states as
    there are sets of items, [buildDFA] returns a list of states in which
    state 0 holds the closure of the item (production 0, dot 0); the id of
    every state is its index; two states at different indices never have
    item sets that [areItemSetsEqual] equates; and every transition is on
    a symbol other than ['$'] and ['ε'] and leads to a state of the list
    whose item set is, as a set, the goto of its source on that symbol. *)
Theorem buildDFA_invariants (g0 : Grammar) :
  ∃ states,
    (∀ fuel, stateBound (augmentGrammar g0) ≤ fuel →
             buildDFA fuel (augmentGrammar g0) = Ok states)
    ∧ (∃ s0, states !! 0 = Some s0
             ∧ getClosure [{| productionId := 0; dotPosition := 0 |}] (augmentGrammar g0)
               = Ok (st_items s0))
    ∧ (∀ i s, states !! i = Some s → st_id s = i)
    ∧ (∀ i j si sj,
         states !! i = Some si → states !! j = Some sj →
         areItemSetsEqual (st_items si) (st_items sj) = true → i = j)
    ∧ (∀ i s sym t,
         states !! i = Some s → st_transitions s !! sym = Some t →
         sym ≠ DOLLAR ∧ sym ≠ EPS
         ∧ ∃ target I',
             states !! t = Some target
             ∧ getGoto (st_items s) sym (augmentGrammar g0) = Ok I' ∧ I' ≠ []
             ∧ areItemSetsEqual (st_items target) I' = true).
Proof.
  destruct (buildDFA_spec (augmentGrammar g0) _ _ eq_refl)
    as (C0 & states & HC0 & Hrun & [Hinit Hids Hitems Hdist Htrans]).
  exists states. split; [done|]. split.
  - destruct Hinit as (s0 & Hs0 & Hitems0). exists s0. split; [done|].
    rewrite Hitems0. exact HC0.
  - split; [done|]. split; done.
Qed.

(** The automaton of [nullableGrammar]: four states. *)
Lemma buildDFA_nullableGrammar :
  match buildDFA 4 nullableGrammar with
  | Ok states => st_id <$> states = [0; 1; 2; 3]
  | _ => False
  end.
Proof. vm_compute. reflexivity. Qed.

(** ** FIRST and FOLLOW: sets that only grow *)

Lemma jsset_add_prefix x l : l `prefix_of` jsset_add x l.
Proof.
  unfold jsset_add. destruct (jsset_has x l); [done | by apply prefix_app_r].
Qed.

Lemma jsset_add_elem x l y : y ∈ jsset_add x l ↔ y = x ∨ y ∈ l.
Proof.
  unfold jsset_add, jsset_has. case_bool_decide as Hin.
  - split; [by right | intros [->|?]; done].
  - rewrite elem_of_app, list_elem_of_singleton. tauto.
Qed.

Lemma jsset_add_NoDup x l : NoDup l → NoDup (jsset_add x l).
Proof.
  intros Hnd. unfold jsset_add, jsset_has. case_bool_decide as Hin; [done|].
  apply NoDup_app. split; [done|]. split; [|apply NoDup_singleton].
  intros y Hy Hy'. apply list_elem_of_singleton in Hy' as ->. done.
Qed.

Lemma addAllExceptEps_prefix src : ∀ dst, dst `prefix_of` addAllExceptEps src dst.
Proof.
  unfold addAllExceptEps. induction src as [|f src IH]; intros dst; simpl; [done|].
  etrans; [|apply IH]. case_bool_decide; [done | apply jsset_add_prefix].
Qed.

Lemma addAllExceptEps_elem src : ∀ dst y,
  y ∈ addAllExceptEps src dst ↔ y ∈ dst ∨ (y ∈ src ∧ y ≠ EPS).
Proof.
  unfold addAllExceptEps. induction src as [|f src IH]; intros dst y; simpl.
  - rewrite elem_of_nil. tauto.
  - rewrite IH, elem_of_cons. case_bool_decide as Heps.
    + subst f. split; [tauto|]. intros [?|[[->|?] ?]]; tauto.
    + rewrite jsset_add_elem. split.
      * intros [[->|?]|[? ?]]; auto.
      * intros [?|[[->|?] ?]]; auto.
Qed.

Lemma addAllExceptEps_NoDup src : ∀ dst, NoDup dst → NoDup (addAllExceptEps src dst).
Proof.
  unfold addAllExceptEps. induction src as [|f src IH]; intros dst Hnd; simpl; [done|].
  apply IH. case_bool_decide; [done | by apply jsset_add_NoDup].
Qed.

Lemma alter_as_insert (f : list jsstring → list jsstring) (k : jsstring)
    (m : SetMap) (l : list jsstring) :
  m !! k = Some l → alter f k m = <[k := f l]> m.
Proof.
  intros Hk. apply map_eq. intros j. destruct (decide (k = j)) as [->|Hne].
  - by rewrite lookup_alter_eq, lookup_insert_eq, Hk.
  - by rewrite lookup_alter_ne, lookup_insert_ne.
Qed.

Lemma totalSize_insert_None (k : jsstring) (l : list jsstring) (m : SetMap) :
  m !! k = None → totalSize (<[k := l]> m) = length l + totalSize m.
Proof. intros Hk. unfold totalSize. by rewrite map_to_list_insert. Qed.

Lemma totalSize_insert_Some (k : jsstring) (l l' : list jsstring) (m : SetMap) :
  m !! k = Some l → totalSize (<[k := l']> m) + length l = totalSize m + length l'.
Proof.
  intros Hk. rewrite <- (insert_delete_eq m).
  rewrite totalSize_insert_None by apply lookup_delete_eq.
  rewrite <- (insert_id m k l Hk) at 2. rewrite <- (insert_delete_eq m).
  rewrite totalSize_insert_None by apply lookup_delete_eq. lia.
Qed.

Lemma totalSize_bound (U : list jsstring) (m : SetMap) :
  setsWithin U m → totalSize m ≤ size m * length U.
Proof.
  induction m as [|k l m Hk IH] using map_ind; intros Hw.
  - unfold totalSize. rewrite map_to_list_empty. simpl. lia.
  - rewrite totalSize_insert_None, map_size_insert_None by done.
    assert (length l ≤ length U) as Hl.
    { destruct (Hw k l) as [Hnd Hsub]; [apply lookup_insert_eq|].
      by apply submseteq_length, NoDup_submseteq. }
    assert (totalSize m ≤ size m * length U) as Hm.
    { apply IH. intros j lj Hj. apply (Hw j lj).
      rewrite lookup_insert_ne; [done|]. intros ->. congruence. }
    lia.
Qed.

Lemma growsTo_refl m : growsTo m m.
Proof. split; [|done]. intros k l Hk. by exists l. Qed.

Lemma growsTo_trans m1 m2 m3 : growsTo m1 m2 → growsTo m2 m3 → growsTo m1 m3.
Proof.
  intros [H1 N1] [H2 N2]. split; [|auto]. intros k l Hk.
  destruct (H1 k l Hk) as (l' & Hk' & Hpre).
  destruct (H2 k l' Hk') as (l'' & Hk'' & Hpre').
  exists l''. split; [done | by etrans].
Qed.

Lemma growsTo_elem (m m' : SetMap) (k : jsstring) (l : list jsstring) x :
  growsTo m m' → m !! k = Some l → x ∈ l → ∃ l', m' !! k = Some l' ∧ x ∈ l'.
Proof.
  intros [H _] Hk Hx. destruct (H k l Hk) as (l' & Hk' & [s ->]).
  exists (l ++ s). split; [done|]. apply elem_of_app. by left.
Qed.

Lemma growsTo_is_Some (m m' : SetMap) (k : jsstring) : growsTo m m' → is_Some (m !! k) → is_Some (m' !! k).
Proof. intros [H _] [l Hk]. destruct (H k l Hk) as (l' & Hk' & _). by eexists. Qed.

(** The effect of replacing the set at one key by a longer one. *)
Lemma insert_grows (k : jsstring) (l l' : list jsstring) (m : SetMap) :
  m !! k = Some l → l `prefix_of` l' →
  growsTo m (<[k := l']> m)
  ∧ size (<[k := l']> m) = size m
  ∧ totalSize (<[k := l']> m) + length l = totalSize m + length l'
  ∧ length l ≤ length l'.
Proof.
  intros Hk Hpre. split; [|split; [|split]].
  - split.
    + intros j lj Hj. destruct (decide (k = j)) as [->|Hne].
      * rewrite lookup_insert_eq. exists l'. split; [done|]. congruence.
      * rewrite lookup_insert_ne by done. by exists lj.
    + intros j Hj. rewrite lookup_insert_ne; [done|]. intros ->. congruence.
  - by apply map_size_insert_Some.
  - by apply totalSize_insert_Some.
  - by apply prefix_length.
Qed.

Lemma setsWithin_insert (U : list jsstring) (k : jsstring) (l : list jsstring) (m : SetMap) :
  setsWithin U m → NoDup l → (∀ x, x ∈ l → x ∈ U) → setsWithin U (<[k := l]> m).
Proof.
  intros Hw Hnd Hsub j lj Hj. destruct (decide (k = j)) as [->|Hne].
  - rewrite lookup_insert_eq in Hj. injection Hj as <-. done.
  - rewrite lookup_insert_ne in Hj by done. by apply (Hw j).
Qed.

(** ** FIRST and FOLLOW: the loops end *)

Section While.
Variable U : list jsstring.
Variable pass : SetMap → outcome (SetMap * bool).
Variable Inv : SetMap → Prop.
Hypothesis Inv_within : ∀ m, Inv m → setsWithin U m.
Hypothesis pass_spec : ∀ m, Inv m →
  ∃ m' changed, pass m = Ok (m', changed) ∧ Inv m' ∧ growsTo m m'
    ∧ size m' = size m ∧ (changed = true → totalSize m < totalSize m').

(** A pass that reports a change has added an element, and the sets are
    bounded: the loop ends, after a first pass, with sets that have only
    grown. *)
Lemma whileChanged_spec fuel : ∀ m,
  Inv m → size m * length U - totalSize m < fuel →
  ∃ r, whileChanged fuel pass m = Ok r ∧ Inv r ∧ growsTo m r
       ∧ ∃ m1 changed, pass m = Ok (m1, changed) ∧ growsTo m1 r.
Proof.
  induction fuel as [|fuel IH]; intros m Hinv Hfuel; [lia|]. simpl.
  destruct (pass_spec m Hinv) as (m' & changed & Hpass & Hinv' & Hgrow & Hsize & Hstrict).
  rewrite Hpass. simpl. destruct changed.
  - pose proof (totalSize_bound U m' (Inv_within m' Hinv')) as Hb.
    specialize (Hstrict eq_refl).
    destruct (IH m' Hinv') as (r & Hrun & Hinvr & Hgrowr & _); [rewrite Hsize; lia|].
    exists r. split; [done|]. split; [done|]. split; [by eapply growsTo_trans|].
    exists m', true. done.
  - exists m'. split; [done|]. split; [done|]. split; [done|].
    exists m', false. split; [done | apply growsTo_refl].
Qed.
End While.

Lemma whileChanged_deterministic pass fuel1 : ∀ fuel2 m r1 r2,
  whileChanged fuel1 pass m = Ok r1 → whileChanged fuel2 pass m = Ok r2 → r1 = r2.
Proof.
  induction fuel1 as [|fuel1 IH]; intros [|fuel2] m r1 r2; simpl; try done.
  destruct (pass m) as [[m' changed]| |]; simpl; try done.
  destruct changed; [apply IH | congruence].
Qed.

(** ** FIRST *)

Lemma firstOf_within (U : list jsstring) (first : SetMap) (symbol : jsstring) :
  setsWithin U first → symbol ∈ U → ∀ x, x ∈ firstOf first symbol → x ∈ U.
Proof.
  intros Hw Hsym x. unfold firstOf.
  destruct (first !! symbol) as [s|] eqn:Hs; simpl.
  - by apply (Hw symbol s).
  - intros Hx. by apply list_elem_of_singleton in Hx as ->.
Qed.

Lemma addAllExceptEps_within (U : list jsstring) src dst :
  NoDup dst → (∀ x, x ∈ dst → x ∈ U) → (∀ x, x ∈ src → x ∈ U) →
  NoDup (addAllExceptEps src dst) ∧ ∀ x, x ∈ addAllExceptEps src dst → x ∈ U.
Proof.
  intros Hnd Hdst Hsrc. split; [by apply addAllExceptEps_NoDup|].
  intros x Hx. apply addAllExceptEps_elem in Hx as [?|[? _]]; auto.
Qed.

(** The symbols of a body folded into [first[head]]: the map changes at
    [head] only, where the set grows at its end. *)
Lemma firstBody_spec (U : list jsstring) (head : jsstring) body :
  ∀ (first : SetMap) l,
    first !! head = Some l → setsWithin U first → (∀ x, x ∈ body → x ∈ U) →
    ∃ l', (firstBody head body first).1 = <[head := l']> first
          ∧ l `prefix_of` l' ∧ NoDup l' ∧ ∀ x, x ∈ l' → x ∈ U.
Proof.
  induction body as [|symbol rest IH]; intros first l Hhead Hw Hbody; simpl.
  - exists l. destruct (Hw head l Hhead). by rewrite insert_id.
  - set (symbolFirst := firstOf first symbol).
    destruct (Hw head l Hhead) as [Hnd Hsub].
    destruct (addAllExceptEps_within U symbolFirst l Hnd Hsub) as [Hnd1 Hsub1].
    { apply firstOf_within; [done|]. apply Hbody. left. }
    rewrite (alter_as_insert _ _ _ _ Hhead).
    destruct (jsset_has EPS symbolFirst).
    + destruct (IH (<[head := addAllExceptEps symbolFirst l]> first)
                   (addAllExceptEps symbolFirst l)) as (l' & Heq & Hpre & Hnd' & Hsub').
      { apply lookup_insert_eq. }
      { by apply setsWithin_insert. }
      { intros x Hx. apply Hbody. by right. }
      exists l'. rewrite Heq, insert_insert_eq. split; [done|].
      split; [|done]. etrans; [apply addAllExceptEps_prefix | done].
    + exists (addAllExceptEps symbolFirst l). simpl.
      split; [done|]. split; [apply addAllExceptEps_prefix | done].
Qed.

(** One production in the FIRST pass. *)
Lemma firstProduction_spec (U : list jsstring) (first : SetMap) changed p :
  setsWithin U first → is_Some (first !! prod_head p) →
  (∀ x, x ∈ prod_body p → x ∈ U) → EPS ∈ U →
  ∃ first' changed',
    firstProduction (first, changed) p = Ok (first', changed')
    ∧ setsWithin U first' ∧ growsTo first first' ∧ size first' = size first
    ∧ totalSize first ≤ totalSize first'
    ∧ (changed' = true → changed = true ∨ totalSize first < totalSize first').
Proof.
  intros Hw [l Hl] Hbody Heps. unfold firstProduction. simpl. rewrite Hl.
  destruct (firstBody_spec U (prod_head p) (prod_body p) first l Hl Hw Hbody)
    as (l1 & Heq & Hpre & Hnd & Hsub).
  destruct (firstBody (prod_head p) (prod_body p) first) as [first1 allNullable].
  simpl in Heq. subst first1.
  set (l2 := if allNullable then jsset_add EPS l1 else l1).
  assert ((if allNullable
           then alter (jsset_add EPS) (prod_head p) (<[prod_head p := l1]> first)
           else <[prod_head p := l1]> first) = <[prod_head p := l2]> first) as ->.
  { unfold l2. destruct allNullable; [|done].
    rewrite (alter_as_insert _ _ _ l1) by apply lookup_insert_eq.
    by rewrite insert_insert_eq. }
  assert (l `prefix_of` l2) as Hpre2.
  { unfold l2. destruct allNullable; [|done]. etrans; [done | apply jsset_add_prefix]. }
  assert (NoDup l2 ∧ ∀ x, x ∈ l2 → x ∈ U) as [Hnd2 Hsub2].
  { unfold l2. destruct allNullable; [|done]. split; [by apply jsset_add_NoDup|].
    intros x Hx. apply jsset_add_elem in Hx as [->|?]; auto. }
  destruct (insert_grows (prod_head p) l l2 first Hl Hpre2) as (Hg & Hsize & Htot & Hlen).
  eexists _, _. split; [done|]. split; [by apply setsWithin_insert|].
  split; [done|]. split; [done|]. split; [lia|].
  rewrite lookup_insert_eq. simpl. case_bool_decide; [|by left].
  intros _. right. lia.
Qed.

Lemma firstProductions_spec (U : list jsstring) ps : ∀ (first : SetMap) changed,
  setsWithin U first → EPS ∈ U →
  (∀ p, p ∈ ps → is_Some (first !! prod_head p) ∧ ∀ x, x ∈ prod_body p → x ∈ U) →
  ∃ first' changed',
    forEachM firstProduction (first, changed) ps = Ok (first', changed')
    ∧ setsWithin U first' ∧ growsTo first first' ∧ size first' = size first
    ∧ totalSize first ≤ totalSize first'
    ∧ (changed' = true → changed = true ∨ totalSize first < totalSize first').
Proof.
  induction ps as [|p ps IH]; intros first changed Hw Heps Hps; simpl.
  - exists first, changed. split; [done|]. split; [done|].
    split; [apply growsTo_refl|]. split; [done|]. split; [done|]. by left.
  - destruct (Hps p) as [Hhead Hbody]; [left|].
    destruct (firstProduction_spec U first changed p Hw Hhead Hbody Heps)
      as (first1 & ch1 & Hrun & Hw1 & Hg1 & Hs1 & Ht1 & Hc1).
    rewrite Hrun. simpl.
    destruct (IH first1 ch1 Hw1 Heps) as (first2 & ch2 & Hrun2 & Hw2 & Hg2 & Hs2 & Ht2 & Hc2).
    { intros q Hq. destruct (Hps q) as [Hh Hb]; [by right|].
      split; [by eapply growsTo_is_Some | done]. }
    exists first2, ch2. split; [done|]. split; [done|].
    split; [by eapply growsTo_trans|]. split; [congruence|]. split; [lia|].
    intros Hch. destruct (Hc2 Hch) as [Hch1|Hlt]; [|right; lia].
    destruct (Hc1 Hch1) as [?|Hlt]; [by left | right; lia].
Qed.

(** The initial maps. *)
Lemma foldl_insert_lookup (f : jsstring → list jsstring) ks : ∀ (m : SetMap) x,
  foldl (λ m k, <[k := f k]> m) m ks !! x
  = if bool_decide (x ∈ ks) then Some (f x) else m !! x.
Proof.
  induction ks as [|k ks IH]; intros m x; simpl; [done|].
  rewrite IH. destruct (decide (x = k)) as [->|Hne].
  - rewrite (bool_decide_true (k ∈ k :: ks)) by left.
    case_bool_decide; [done | apply lookup_insert_eq].
  - rewrite lookup_insert_ne by done.
    case_bool_decide as Hin.
    + rewrite bool_decide_true; [done | by right].
    + rewrite bool_decide_false; [done|]. intros Hin'.
      apply elem_of_cons in Hin' as [?|?]; done.
Qed.

Lemma initFirst_lookup g x :
  initFirst g !! x
  = if bool_decide (x = EPS) then Some [EPS]
    else if bool_decide (x ∈ terminals g) then Some [x]
    else if bool_decide (x ∈ nonTerminals g) then Some [] else None.
Proof.
  unfold initFirst. case_bool_decide as Heps.
  - subst x. apply lookup_insert_eq.
  - rewrite lookup_insert_ne by done.
    rewrite (foldl_insert_lookup (λ t, [t])).
    case_bool_decide; [done|].
    rewrite (foldl_insert_lookup (λ _, [])).
    case_bool_decide; [done | apply lookup_empty].
Qed.

Lemma initFollow_lookup g x :
  initFollow g !! x = if bool_decide (x ∈ nonTerminals g) then Some [] else None.
Proof.
  unfold initFollow. rewrite (foldl_insert_lookup (λ _, [])).
  case_bool_decide; [done | apply lookup_empty].
Qed.

Lemma firstUniverse_terminal g t : t ∈ terminals g → t ∈ firstUniverse g.
Proof. intros Ht. unfold firstUniverse. apply elem_of_app. by left. Qed.

Lemma firstUniverse_eps g : EPS ∈ firstUniverse g.
Proof. unfold firstUniverse. apply elem_of_app. right. left. Qed.

Lemma firstUniverse_body g p x :
  p ∈ productions g → x ∈ prod_body p → x ∈ firstUniverse g.
Proof.
  intros Hp Hx. unfold firstUniverse. apply elem_of_app. right. right.
  apply list_elem_of_In, in_flat_map. exists p.
  split; by apply list_elem_of_In.
Qed.

Lemma initFirst_within g : setsWithin (firstUniverse g) (initFirst g).
Proof.
  intros k l. rewrite initFirst_lookup.
  repeat case_bool_decide; intros [= <-].
  - split; [apply NoDup_singleton|]. intros x Hx.
    apply list_elem_of_singleton in Hx as ->. apply firstUniverse_eps.
  - split; [apply NoDup_singleton|]. intros x Hx.
    apply list_elem_of_singleton in Hx as ->. by apply firstUniverse_terminal.
  - split; [constructor|]. intros x Hx. by apply elem_of_nil in Hx.
Qed.

Lemma initFirst_nonTerminal g nt : nt ∈ nonTerminals g → is_Some (initFirst g !! nt).
Proof.
  intros Hnt. rewrite initFirst_lookup.
  repeat case_bool_decide; by eauto.
Qed.

(** The FIRST loop of a grammar whose heads are nonterminals ends. *)
Lemma firstWhile_spec g fuel :
  (∀ p, p ∈ productions g → prod_head p ∈ nonTerminals g) →
  size (initFirst g) * length (firstUniverse g) < fuel →
  ∃ first, firstWhile fuel g (initFirst g) = Ok first
           ∧ setsWithin (firstUniverse g) first.
Proof.
  intros Hheads Hfuel. unfold firstWhile.
  destruct (whileChanged_spec (firstUniverse g) (firstPass g)
              (λ m, setsWithin (firstUniverse g) m
                    ∧ ∀ p, p ∈ productions g → is_Some (m !! prod_head p)))
    with (fuel := fuel) (m := initFirst g) as (first & Hrun & [Hw _] & _).
  - by intros m [Hw _].
  - intros m [Hw Hdom]. unfold firstPass.
    destruct (firstProductions_spec (firstUniverse g) (productions g) m false Hw)
      as (m' & ch & Hrun & Hw' & Hg & Hs & Ht & Hc).
    { apply firstUniverse_eps. }
    { intros p Hp. split; [by apply Hdom|]. intros x Hx. by eapply firstUniverse_body. }
    exists m', ch. split; [done|]. split.
    { split; [done|]. intros p Hp. eapply growsTo_is_Some; [done | by apply Hdom]. }
    split; [done|]. split; [done|]. intros Hch. by destruct (Hc Hch).
  - split; [apply initFirst_within|]. intros p Hp. by apply initFirst_nonTerminal, Hheads.
  - lia.
  - by exists first.
Qed.

(** ** FOLLOW *)

(** The symbols after [B] folded into [follow[B]]: the map changes at [B]
    only, where the set grows at its end. *)
Lemma followBeta_spec (U : list jsstring) (first : SetMap) (B : jsstring) beta :
  ∀ (follow : SetMap) l,
    follow !! B = Some l → setsWithin U follow →
    (∀ sym x, sym ∈ beta → x ∈ firstOf first sym → x ∈ U) →
    ∃ l', (followBeta first B beta follow).1 = <[B := l']> follow
          ∧ l `prefix_of` l' ∧ NoDup l' ∧ ∀ x, x ∈ l' → x ∈ U.
Proof.
  induction beta as [|sym rest IH]; intros follow l HB Hw Hbeta; simpl.
  - exists l. destruct (Hw B l HB). by rewrite insert_id.
  - set (symFirst := firstOf first sym).
    destruct (Hw B l HB) as [Hnd Hsub].
    destruct (addAllExceptEps_within U symFirst l Hnd Hsub) as [Hnd1 Hsub1].
    { intros x Hx. eapply Hbeta; [left | done]. }
    rewrite (alter_as_insert _ _ _ _ HB).
    destruct (jsset_has EPS symFirst).
    + destruct (IH (<[B := addAllExceptEps symFirst l]> follow)
                   (addAllExceptEps symFirst l)) as (l' & Heq & Hpre & Hnd' & Hsub').
      { apply lookup_insert_eq. }
      { by apply setsWithin_insert. }
      { intros s x Hs Hx. eapply Hbeta; [by right | done]. }
      exists l'. rewrite Heq, insert_insert_eq. split; [done|].
      split; [|done]. etrans; [apply addAllExceptEps_prefix | done].
    + exists (addAllExceptEps symFirst l). simpl.
      split; [done|]. split; [apply addAllExceptEps_prefix | done].
Qed.

Lemma followInv_insert (g : Grammar) (m : SetMap) (k : jsstring) (l : list jsstring) :
  followInv g m → NoDup l → (∀ x, x ∈ l → x ∈ followUniverse g) →
  followInv g (<[k := l]> m).
Proof.
  intros [Hw Hdom] Hnd Hsub. split; [by apply setsWithin_insert|].
  intros nt Hnt. destruct (decide (k = nt)) as [->|Hne].
  - rewrite lookup_insert_eq. by eexists.
  - rewrite lookup_insert_ne by done. by apply Hdom.
Qed.

(** The body of a production in the FOLLOW pass, from any position on. *)
Lemma followBody_spec (g : Grammar) (first : SetMap) (head : jsstring) body :
  ∀ (follow : SetMap) changed,
    followInv g follow → head ∈ nonTerminals g →
    (∀ sym x, sym ∈ body → x ∈ firstOf first sym → x ∈ followUniverse g) →
    ∃ follow' changed',
      followBody g first head body (follow, changed) = Ok (follow', changed')
      ∧ followInv g follow' ∧ growsTo follow follow' ∧ size follow' = size follow
      ∧ totalSize follow ≤ totalSize follow'
      ∧ (changed' = true → changed = true ∨ totalSize follow < totalSize follow').
Proof.
  induction body as [|B beta IH]; intros follow changed Hinv Hhead Hbody; simpl.
  - exists follow, changed. split; [done|]. split; [done|].
    split; [apply growsTo_refl|]. split; [done|]. split; [done|]. by left.
  - assert (∀ sym x, sym ∈ beta → x ∈ firstOf first sym → x ∈ followUniverse g)
      as Hbeta by (intros s x Hs Hx; eapply Hbody; [by right | done]).
    unfold jsset_has at 1. case_bool_decide as HB; simpl.
    2:{ by apply IH. }
    destruct Hinv as [Hw Hdom]. destruct (Hdom B HB) as [l Hl]. rewrite Hl.
    destruct (followBeta_spec (followUniverse g) first B beta follow l Hl Hw Hbeta)
      as (l1 & Heq & Hpre & Hnd & Hsub).
    destruct (followBeta first B beta follow) as [follow1 betaIsNullable].
    simpl in Heq. subst follow1.
    assert (∃ l2, (let inherited : outcome SetMap :=
                     if betaIsNullable then
                       match <[B := l1]> follow !! head with
                       | None => Throw "Cannot read properties of undefined (reading 'forEach')"
                       | Some hs => Ok (alter (addAllExceptEps hs) B (<[B := l1]> follow))
                       end
                     else Ok (<[B := l1]> follow) in inherited)
                  = Ok (<[B := l2]> follow)
                  ∧ l `prefix_of` l2 ∧ NoDup l2
                  ∧ ∀ x, x ∈ l2 → x ∈ followUniverse g) as (l2 & Hinh & Hpre2 & Hnd2 & Hsub2).
    { destruct betaIsNullable; [|by exists l1].
      assert (setsWithin (followUniverse g) (<[B := l1]> follow)) as Hw1
        by (by apply setsWithin_insert).
      assert (is_Some (<[B := l1]> follow !! head)) as [hs Hhs].
      { destruct (decide (B = head)) as [->|Hne].
        - rewrite lookup_insert_eq. by eexists.
        - rewrite lookup_insert_ne by done. by apply Hdom. }
      cbv zeta. rewrite Hhs.
      rewrite (alter_as_insert _ _ _ l1) by apply lookup_insert_eq.
      rewrite insert_insert_eq.
      destruct (Hw1 head hs Hhs) as [_ Hhsub].
      destruct (addAllExceptEps_within (followUniverse g) hs l1 Hnd Hsub Hhsub).
      exists (addAllExceptEps hs l1). split; [done|].
      split; [|done]. etrans; [done | apply addAllExceptEps_prefix]. }
    cbv zeta in Hinh. cbv zeta. rewrite Hinh. simpl.
    rewrite lookup_insert_eq. simpl.
    destruct (insert_grows B l l2 follow Hl Hpre2) as (Hg & Hsize & Htot & Hlen).
    destruct (IH (<[B := l2]> follow)
                 (if bool_decide (length l2 ≠ length l) then true else changed))
      as (follow' & ch' & Hrun & Hinv' & Hg' & Hsize' & Htot' & Hch'); [|done|done|].
    { by apply followInv_insert. }
    exists follow', ch'. split; [done|]. split; [done|].
    split; [by eapply growsTo_trans|]. split; [lia|]. split; [lia|].
    intros Hc. destruct (Hch' Hc) as [Hc1|Hlt]; [|right; lia].
    case_bool_decide; [right; lia | by left].
Qed.

Lemma followProductions_spec (g : Grammar) (first : SetMap) ps : ∀ (follow : SetMap) changed,
  followInv g follow →
  (∀ p, p ∈ ps →
        prod_head p ∈ nonTerminals g
        ∧ ∀ sym x, sym ∈ prod_body p → x ∈ firstOf first sym → x ∈ followUniverse g) →
  ∃ follow' changed',
    forEachM (followProduction g first) (follow, changed) ps = Ok (follow', changed')
    ∧ followInv g follow' ∧ growsTo follow follow' ∧ size follow' = size follow
    ∧ totalSize follow ≤ totalSize follow'
    ∧ (changed' = true → changed = true ∨ totalSize follow < totalSize follow').
Proof.
  induction ps as [|p ps IH]; intros follow changed Hinv Hps; simpl.
  - exists follow, changed. split; [done|]. split; [done|].
    split; [apply growsTo_refl|]. split; [done|]. split; [done|]. by left.
  - destruct (Hps p) as [Hhead Hbody]; [left|].
    unfold followProduction at 1.
    destruct (followBody_spec g first (prod_head p) (prod_body p) follow changed
                Hinv Hhead Hbody)
      as (follow1 & ch1 & Hrun & Hinv1 & Hg1 & Hs1 & Ht1 & Hc1).
    rewrite Hrun. simpl.
    destruct (IH follow1 ch1 Hinv1)
      as (follow2 & ch2 & Hrun2 & Hinv2 & Hg2 & Hs2 & Ht2 & Hc2).
    { intros q Hq. apply Hps. by right. }
    exists follow2, ch2. split; [done|]. split; [done|].
    split; [by eapply growsTo_trans|]. split; [congruence|]. split; [lia|].
    intros Hch. destruct (Hc2 Hch) as [Hch1|Hlt]; [|right; lia].
    destruct (Hc1 Hch1) as [?|Hlt]; [by left | right; lia].
Qed.

Lemma followUniverse_first g x : x ∈ firstUniverse g → x ∈ followUniverse g.
Proof. intros Hx. by right. Qed.

Lemma initFollow_inv g : followInv g (initFollow g).
Proof.
  split.
  - intros k l. rewrite initFollow_lookup. case_bool_decide; intros [= <-].
    split; [constructor|]. intros x Hx. by apply elem_of_nil in Hx.
  - intros nt Hnt. rewrite initFollow_lookup, bool_decide_true by done. by eexists.
Qed.

(** Adding ['$'] to the set of a nonterminal. *)
Lemma seed_spec (g : Grammar) (m : SetMap) (k : jsstring) :
  followInv g m → k ∈ nonTerminals g →
  followInv g (alter (jsset_add DOLLAR) k m)
  ∧ growsTo m (alter (jsset_add DOLLAR) k m)
  ∧ size (alter (jsset_add DOLLAR) k m) = size m
  ∧ ∃ l, alter (jsset_add DOLLAR) k m !! k = Some l ∧ DOLLAR ∈ l.
Proof.
  intros Hinv Hk. destruct (proj2 Hinv k Hk) as [l Hl].
  rewrite (alter_as_insert _ _ _ _ Hl).
  destruct (proj1 Hinv k l Hl) as [Hnd Hsub].
  destruct (insert_grows k l (jsset_add DOLLAR l) m Hl (jsset_add_prefix _ _))
    as (Hg & Hs & _).
  split; [|split; [done|split; [done|]]].
  - apply followInv_insert; [done | by apply jsset_add_NoDup |].
    intros x Hx. apply jsset_add_elem in Hx as [->|Hx]; [left | by apply Hsub].
  - exists (jsset_add DOLLAR l). split; [apply lookup_insert_eq|].
    apply jsset_add_elem. by left.
Qed.

Lemma seedFollow_spec g :
  startSymbol g ∈ nonTerminals g →
  ∃ follow0, seedFollow g (initFollow g) = Ok follow0
    ∧ followInv g follow0 ∧ size follow0 = size (initFollow g)
    ∧ ∃ l, follow0 !! startSymbol g = Some l ∧ DOLLAR ∈ l.
Proof.
  intros Hstart. unfold seedFollow.
  pose proof (initFollow_inv g) as Hinv.
  destruct (proj2 Hinv _ Hstart) as [l0 Hl0]. rewrite Hl0.
  destruct (seed_spec g (initFollow g) (startSymbol g) Hinv Hstart)
    as (Hinv1 & Hg1 & Hs1 & l1 & Hl1 & Hd1).
  destruct (List.find _ (nonTerminals g)) as [[|c userStart]|] eqn:Hfind;
    try (eexists; split; [done|]; split; [done|]; split; [done|]; eauto).
  apply find_some in Hfind as [Hin _]. apply list_elem_of_In in Hin.
  destruct (proj2 Hinv1 _ Hin) as [lu Hlu]. rewrite Hlu.
  destruct (seed_spec g _ (c :: userStart) Hinv1 Hin) as (Hinv2 & Hg2 & Hs2 & _).
  eexists. split; [done|]. split; [done|]. split; [congruence|].
  by eapply growsTo_elem.
Qed.

(** The FOLLOW loop ends, after a first pass, with sets that have only
    grown. *)
Lemma followWhile_spec (g : Grammar) (first follow0 : SetMap) fuel :
  (∀ p, p ∈ productions g → prod_head p ∈ nonTerminals g) →
  setsWithin (firstUniverse g) first → followInv g follow0 →
  size follow0 * length (followUniverse g) < fuel →
  ∃ follow, followWhile fuel g first follow0 = Ok follow
    ∧ followInv g follow ∧ growsTo follow0 follow
    ∧ ∃ m1 changed, followPass g first follow0 = Ok (m1, changed) ∧ growsTo m1 follow.
Proof.
  intros Hheads Hfirst Hinv Hfuel. unfold followWhile.
  apply (whileChanged_spec (followUniverse g) (followPass g first) (followInv g)).
  - by intros m [Hw _].
  - intros m Hm. unfold followPass.
    destruct (followProductions_spec g first (productions g) m false Hm)
      as (m' & ch & Hrun & Hinv' & Hg & Hs & Ht & Hc).
    { intros p Hp. split; [by apply Hheads|]. intros sym x Hsym Hx.
      apply followUniverse_first. eapply firstOf_within; [done| |done].
      by eapply firstUniverse_body. }
    exists m', ch. split; [done|]. split; [done|]. split; [done|]. split; [done|].
    intros Hch. by destruct (Hc Hch).
  - done.
  - lia.
Qed.

(** ** FOLLOW of the start symbols *)

Lemma augment_nonTerminal g0 x :
  x ∈ nonTerminals g0 → x ∈ nonTerminals (augmentGrammar g0).
Proof. intros Hx. simpl. apply jsset_add_elem. by right. Qed.

Lemma augment_start_nonTerminal g0 :
  startSymbol (augmentGrammar g0) ∈ nonTerminals (augmentGrammar g0).
Proof. simpl. apply jsset_add_elem. by left. Qed.

Lemma augment_heads g0 :
  (∀ p, p ∈ productions g0 → prod_head p ∈ nonTerminals g0) →
  ∀ p, p ∈ productions (augmentGrammar g0) →
       prod_head p ∈ nonTerminals (augmentGrammar g0).
Proof.
  intros Hheads p Hp. apply list_elem_of_lookup in Hp as [[|i] Hi].
  - simpl in Hi. injection Hi as <-. apply augment_start_nonTerminal.
  - rewrite augment_lookup_S in Hi.
    destruct (productions g0 !! i) as [q|] eqn:Hq; [|done].
    simpl in Hi. injection Hi as <-. simpl.
    apply jsset_add_elem. right. apply Hheads. by eapply list_elem_of_lookup_2.
Qed.

(** The first production of the FOLLOW pass on an augmented grammar:
    what follows [S'] follows [S]. *)
Lemma followProduction_augmented (g0 : Grammar) (first follow0 : SetMap)
    (l' : list jsstring) :
  startSymbol g0 ∈ nonTerminals g0 →
  followInv (augmentGrammar g0) follow0 →
  follow0 !! startSymbol (augmentGrammar g0) = Some l' → DOLLAR ∈ l' →
  ∃ m changed l,
    followProduction (augmentGrammar g0) first (follow0, false)
      {| prod_head := startSymbol (augmentGrammar g0);
         prod_body := [startSymbol g0]; prod_id := 0 |} = Ok (m, changed)
    ∧ m !! startSymbol g0 = Some l ∧ DOLLAR ∈ l.
Proof.
  intros Hstart [Hw Hdom] Hl' Hd.
  destruct (Hdom (startSymbol g0)) as [l Hl]; [by apply augment_nonTerminal|].
  unfold followProduction. cbn [prod_head prod_body followBody].
  unfold jsset_has at 1.
  rewrite bool_decide_true by (by apply augment_nonTerminal).
  cbn [negb fst snd]. rewrite Hl. cbn [followBeta]. rewrite Hl'. cbn [obind].
  eexists _, _, _. split; [done|].
  rewrite (alter_as_insert _ _ _ _ Hl). split; [apply lookup_insert_eq|].
  apply addAllExceptEps_elem. right. done.
Qed.



(** The FOLLOW sets of the augmentation of [S -> a], computed. *)
Lemma computeFirstFollow_tinyGrammar :
  match computeFirstFollow 3 (augmentGrammar tinyGrammar) with
  | Ok ff => follow ff !! js "S" = Some [DOLLAR] ∧ follow ff !! js "S'" = Some [DOLLAR]
  | _ => False
  end.
Proof. vm_compute. split; reflexivity. Qed.


(** When the start symbol ends in an apostrophe the seed goes to another
    nonterminal ([E] here), and ['$'] reaches FOLLOW of the start symbol
    through the augmented production. *)
Lemma computeFirstFollow_primedStartGrammar :
  match seedFollow (augmentGrammar primedStartGrammar)
          (initFollow (augmentGrammar primedStartGrammar)),
        computeFirstFollow 4 (augmentGrammar primedStartGrammar) with
  | Ok follow0, Ok ff =>
    follow0 !! js "E'" = Some [] ∧ follow0 !! js "E" = Some [DOLLAR]
    ∧ follow ff !! js "E'" = Some [DOLLAR]
  | _, _ => False
  end.
Proof. vm_compute. repeat split. Qed.

(** ** The grammar reader: parseGrammar *)

Lemma elem_of_List_filter {A} (f : A → bool) (l : list A) x :
  x ∈ List.filter f l ↔ x ∈ l ∧ f x = true.
Proof. by rewrite !list_elem_of_In, filter_In. Qed.

Lemma foldl_invariant {A B} (P : A → Prop) (f : A → B → A) (l : list B) :
  ∀ a, P a → (∀ a x, x ∈ l → P a → P (f a x)) → P (foldl f a l).
Proof.
  induction l as [|x l IH]; intros a Ha Hstep; simpl; [done|].
  apply IH.
  - apply Hstep; [left | done].
  - intros a' y Hy. apply Hstep. by right.
Qed.

Lemma trimStart_noWhite (s : jsstring) : headNotWhite s → trimStart s = s.
Proof. destruct s as [|c s]; simpl; [done|]. by intros ->. Qed.

Lemma trim_elem (s : jsstring) c : c ∈ trim s → c ∈ s.
Proof.
  intros Hc. pose proof (trim_prefix s) as [k Hk].
  destruct (trimStart_suffix s) as (w & Hw & _).
  rewrite Hw, Hk. rewrite !elem_of_app. auto.
Qed.

Lemma trim_noWhite (s : jsstring) :
  (∀ c, c ∈ s → isWhiteSpace c = false) → trim s = s.
Proof.
  intros Hs. unfold trim.
  rewrite (trimStart_noWhite s).
  - rewrite trimStart_noWhite; [apply rev_involutive|].
    destruct (rev s) as [|c r] eqn:Hr; simpl; [done|].
    apply Hs. apply list_elem_of_In, in_rev. rewrite Hr. by left.
  - destruct s as [|c r]; simpl; [done|]. apply Hs. left.
Qed.

Lemma trimStart_allWhite (s : jsstring) :
  (∀ c, c ∈ s → isWhiteSpace c = true) → trimStart s = [].
Proof.
  induction s as [|c s IH]; intros Hs; simpl; [done|].
  rewrite (Hs c) by left. apply IH. intros c' Hc'. apply Hs. by right.
Qed.

Lemma trim_allWhite (s : jsstring) :
  (∀ c, c ∈ s → isWhiteSpace c = true) → trim s = [].
Proof. intros Hs. unfold trim. by rewrite (trimStart_allWhite s Hs). Qed.

Lemma isPunctuation_notWhite c : isPunctuation c = true → isWhiteSpace c = false.
Proof.
  unfold isPunctuation. rewrite bool_decide_eq_true. intros Hc.
  repeat (apply elem_of_cons in Hc as [->|Hc]; [done|]).
  by apply elem_of_nil in Hc.
Qed.

(** *** The pieces of an alternative *)

(** What [split] with the capturing pattern returns: runs of white space,
    single punctuation marks, and the words between them. *)
Lemma splitBodyFrom_shape s : ∀ run piece,
  (∀ w, run = Some w → ∀ c, c ∈ w → isWhiteSpace c = true) →
  (∀ c, c ∈ piece → isWhiteSpace c = false ∧ isPunctuation c = false) →
  Forall (λ t, (∀ c, c ∈ t → isWhiteSpace c = true)
               ∨ (∃ c, t = [c] ∧ isPunctuation c = true)
               ∨ (∀ c, c ∈ t → isWhiteSpace c = false ∧ isPunctuation c = false))
         (splitBodyFrom run piece s).
Proof.
  induction s as [|c s IH]; intros run piece Hrun Hpiece; simpl.
  - destruct run as [w|].
    + constructor; [left; by apply Hrun|]. constructor; [by right; right | constructor].
    + constructor; [by right; right | constructor].
  - assert (∀ c', c' ∈ ([] : jsstring) →
                  isWhiteSpace c' = false ∧ isPunctuation c' = false) as Hnil.
    { intros c' Hc'. by apply elem_of_nil in Hc'. }
    destruct (isWhiteSpace c) eqn:Hws.
    + destruct run as [w|].
      * apply IH; [|done]. intros w' [= <-] c' Hc'.
        apply elem_of_app in Hc' as [Hc'|Hc']; [by eapply Hrun|].
        by apply list_elem_of_singleton in Hc' as ->.
      * constructor; [by right; right|]. apply IH; [|done].
        intros w' [= <-] c' Hc'. by apply list_elem_of_singleton in Hc' as ->.
    + assert (Forall (λ t, (∀ c, c ∈ t → isWhiteSpace c = true)
                 ∨ (∃ c, t = [c] ∧ isPunctuation c = true)
                 ∨ (∀ c, c ∈ t → isWhiteSpace c = false ∧ isPunctuation c = false))
                (match run with Some w => [w] | None => [] end)) as Hcap.
      { destruct run as [w|]; [|constructor].
        constructor; [left; by apply Hrun | constructor]. }
      destruct (isPunctuation c) eqn:Hp.
      * apply Forall_app. split; [done|].
        constructor; [by right; right|].
        constructor; [right; left; by exists c|].
        apply IH; done.
      * apply Forall_app. split; [done|]. apply IH; [done|].
        intros c' Hc'. apply elem_of_app in Hc' as [Hc'|Hc']; [by apply Hpiece|].
        by apply list_elem_of_singleton in Hc' as ->.
Qed.

Lemma bodyTokens_shape bodyStr t : t ∈ bodyTokens bodyStr → isBodyWord t.
Proof.
  unfold bodyTokens. rewrite elem_of_List_filter, andb_true_iff, !bool_decide_eq_true.
  intros (Hin & Hne & Hbar). apply list_elem_of_fmap in Hin as (u & -> & Hu).
  pose proof (splitBodyFrom_shape bodyStr None []) as Hall.
  rewrite Forall_forall in Hall. unfold splitBody in Hu.
  destruct (Hall ltac:(done) ltac:(intros c Hc; by apply elem_of_nil in Hc) u Hu)
    as [Hws|[(c & -> & Hc)|Hword]].
  - by rewrite trim_allWhite in Hne.
  - assert (trim [c] = [c]) as Htrim.
    { apply trim_noWhite. intros c' Hc'. apply list_elem_of_singleton in Hc' as ->.
      by apply isPunctuation_notWhite. }
    rewrite Htrim in *. left. exists c. split; [done|]. split; [done|].
    intros ->. done.
  - assert (trim u = u) as Htrim.
    { apply trim_noWhite. intros c Hc. by apply Hword. }
    rewrite Htrim in *. by right.
Qed.

Lemma bodySymbol_shape nts token :
  isBodyWord token →
  isBodyWord (bodySymbol nts token)
  ∧ (isEpsilon (bodySymbol nts token) = true → bodySymbol nts token = EPS).
Proof.
  intros Hw. unfold bodySymbol. destruct (isEpsilon token) eqn:He.
  - split; [|done]. right. split; [done|]. intros c Hc.
    apply list_elem_of_singleton in Hc as ->. done.
  - destruct (jsset_has token nts); (split; [done | by rewrite He]).
Qed.

(** *** Heads *)

Lemma splitWhiteSpaceFrom_noWhite s : ∀ b piece,
  (∀ c, c ∈ piece → isWhiteSpace c = false) →
  Forall (λ t, ∀ c, c ∈ t → isWhiteSpace c = false) (splitWhiteSpaceFrom b piece s).
Proof.
  induction s as [|c s IH]; intros b piece Hpiece; simpl.
  - by constructor.
  - assert (∀ c', c' ∈ ([] : jsstring) → isWhiteSpace c' = false) as Hnil.
    { intros c' Hc'. by apply elem_of_nil in Hc'. }
    destruct (isWhiteSpace c) eqn:Hws.
    + destruct b; [by apply IH|]. constructor; [done | by apply IH].
    + apply IH. intros c' Hc'. apply elem_of_app in Hc' as [Hc'|Hc']; [by apply Hpiece|].
      by apply list_elem_of_singleton in Hc' as ->.
Qed.

Lemma headOf_shape part c : c ∈ headOf part → isNameUnit c = true.
Proof.
  unfold headOf. intros Hc. apply trim_elem in Hc.
  apply elem_of_List_filter in Hc as [Hc Hkeep].
  assert (isWhiteSpace c = false) as Hws.
  { pose proof (splitWhiteSpaceFrom_noWhite part false []) as Hall.
    rewrite Forall_forall in Hall. unfold splitWhiteSpace in Hc.
    destruct (splitWhiteSpaceFrom false [] part) as [|t l]; simpl in Hc.
    - by apply elem_of_nil in Hc.
    - apply (Hall ltac:(intros c' Hc'; by apply elem_of_nil in Hc') t); [left | done]. }
  apply negb_true_iff in Hkeep. unfold matchesHeadNoise in Hkeep.
  rewrite Hws in Hkeep. unfold isNameUnit, isWordUnit in *.
  destruct (isDigitUnit c), (65 <=? c)%N, (c <=? 90)%N, (97 <=? c)%N, (c <=? 122)%N,
    (c =? 95)%N, (c =? 39)%N, (c =? 60)%N, (c =? 62)%N; simpl in *; congruence.
Qed.

Lemma collectHead_cases nts line :
  collectHead nts line = nts
  ∨ ∃ part0 rest, lineParts line = part0 :: rest ∧ headOf part0 ≠ []
                  ∧ collectHead nts line = jsset_add (headOf part0) nts.
Proof.
  unfold collectHead. destruct (lineParts line) as [|part0 rest]; [by left|].
  repeat case_bool_decide; try (by left). right. by exists part0, rest.
Qed.

Lemma collectHead_mono nts line x : x ∈ nts → x ∈ collectHead nts line.
Proof.
  intros Hx. destruct (collectHead_cases nts line) as [->|(p0 & r & _ & _ & ->)]; [done|].
  apply jsset_add_elem. by right.
Qed.

Lemma collectHeads_mono lines : ∀ nts x, x ∈ nts → x ∈ foldl collectHead nts lines.
Proof.
  induction lines as [|line lines IH]; intros nts x Hx; simpl; [done|].
  by apply IH, collectHead_mono.
Qed.

Lemma headOf_nil : headOf [] = [].
Proof. reflexivity. Qed.

(** The head of every line with an arrow has been collected by the first
    pass, unless it is empty. *)
Lemma collectHeads_registers lines : ∀ nts line part0 rest,
  line ∈ lines → lineParts line = part0 :: rest → headOf part0 ≠ [] →
  headOf part0 ∈ foldl collectHead nts lines.
Proof.
  induction lines as [|l lines IH]; intros nts line part0 rest Hin Hparts Hne; simpl.
  - by apply elem_of_nil in Hin.
  - apply elem_of_cons in Hin as [<-|Hin]; [|by eapply IH].
    apply collectHeads_mono. unfold collectHead. rewrite Hparts.
    assert (part0 ≠ []) as Hp0 by (intros ->; by rewrite headOf_nil in Hne).
    rewrite !bool_decide_true by done. apply jsset_add_elem. by left.
Qed.

Lemma collectHeads_names lines :
  let nts := foldl collectHead [] lines in
  NoDup nts ∧ ∀ nt, nt ∈ nts → nt ≠ [] ∧ ∀ c, c ∈ nt → isNameUnit c = true.
Proof.
  cbv zeta.
  apply (foldl_invariant
           (λ nts, NoDup nts ∧ ∀ nt, nt ∈ nts → nt ≠ [] ∧ ∀ c, c ∈ nt → isNameUnit c = true)).
  - split; [constructor|]. intros nt Hnt. by apply elem_of_nil in Hnt.
  - intros nts line _ [Hnd Hall].
    destruct (collectHead_cases nts line) as [->|(p0 & r & _ & Hne & ->)]; [done|].
    split; [by apply jsset_add_NoDup|]. intros nt Hnt.
    apply jsset_add_elem in Hnt as [->|Hnt]; [|by apply Hall].
    split; [done|]. apply headOf_shape.
Qed.

(** *** The second pass *)

Lemma parseLines_invariant nts (P : list Production * list jsstring → Prop) lines :
  (∀ line part0 rest acc bodyStr,
     line ∈ lines → lineParts line = part0 :: rest →
     P acc → P (parseBody nts (headOf part0) acc bodyStr)) →
  ∀ acc, P acc → P (foldl (parseLine nts) acc lines).
Proof.
  intros Hbody acc Hacc. apply foldl_invariant; [done|].
  intros acc' line Hline Hacc'. unfold parseLine.
  destruct (lineParts line) as [|part0 [|part1 rest]] eqn:Hparts; [done|done|].
  apply foldl_invariant; [done|]. intros acc'' bodyStr _ Hacc''.
  by eapply Hbody.
Qed.

Lemma parseGrammar_unfold input :
  let lines := grammarLines input in
  let nts := foldl collectHead [] lines in
  let acc := foldl (parseLine nts) ([], []) lines in
  productions (parseGrammar input) = acc.1
  ∧ terminals (parseGrammar input) = jsset_add DOLLAR acc.2
  ∧ nonTerminals (parseGrammar input) = nts.
Proof.
  cbv zeta. unfold parseGrammar. cbv zeta.
  by destruct (foldl (parseLine _) _ _).
Qed.

(** The body that [parseBody] pushes. *)
Lemma cleanBody_shape nts bodyStr :
  let finalBody := bodySymbol nts <$> bodyTokens bodyStr in
  let cleanBody := if length finalBody =? 0 then [EPS] else finalBody in
  cleanBody ≠ []
  ∧ ∀ sym, sym ∈ cleanBody → isBodyWord sym ∧ (isEpsilon sym = true → sym = EPS).
Proof.
  cbv zeta. destruct (bodySymbol nts <$> bodyTokens bodyStr) as [|s l] eqn:Hf; simpl.
  - split; [done|]. intros sym Hsym. apply list_elem_of_singleton in Hsym as ->.
    split; [|done]. right. split; [done|]. intros c Hc.
    apply list_elem_of_singleton in Hc as ->. done.
  - split; [done|]. intros sym Hsym. rewrite <- Hf in Hsym.
    apply list_elem_of_fmap in Hsym as (t & -> & Ht).
    apply bodySymbol_shape. by eapply bodyTokens_shape.
Qed.

Lemma isBodyWord_nonempty t : isBodyWord t → t ≠ [].
Proof. by intros [(c & -> & _)|[? _]]. Qed.

(** The terminals collected from one body. *)
Lemma addTerminals_spec nts body : ∀ ts,
  NoDup ts →
  let ts' := foldl (addTerminal nts) ts body in
  NoDup ts'
  ∧ (∀ t, t ∈ ts' ↔ t ∈ ts ∨ (t ∈ body ∧ (t ∉ nts) ∧ t ≠ EPS)).
Proof.
  induction body as [|sym body IH]; intros ts Hnd; simpl.
  - split; [done|]. intros t. split; [by left|]. intros [?|[Hin _]]; [done|].
    by apply elem_of_nil in Hin.
  - assert (NoDup (addTerminal nts ts sym)
            ∧ ∀ t, t ∈ addTerminal nts ts sym ↔ t ∈ ts ∨ (t = sym ∧ (t ∉ nts) ∧ t ≠ EPS))
      as [Hnd1 Hel1].
    { unfold addTerminal, jsset_has.
      destruct (bool_decide (sym ∈ nts)) eqn:Hin; simpl.
      - apply bool_decide_eq_true in Hin. split; [done|]. intros t. split; [by left|].
        intros [?|(-> & ? & _)]; done.
      - apply bool_decide_eq_false in Hin. case_bool_decide as Heps; simpl.
        + split; [by apply jsset_add_NoDup|]. intros t. rewrite jsset_add_elem.
          split; [intros [->|?]; auto | intros [?|(-> & _)]; auto].
        + split; [done|]. intros t. split; [by left|].
          intros [?|(-> & _ & ?)]; done. }
    destruct (IH _ Hnd1) as [Hnd2 Hel2]. split; [done|].
    intros t. rewrite Hel2, Hel1, elem_of_cons. naive_solver.
Qed.

Lemma parseBody_invariant nts head acc bodyStr :
  head = [] ∨ head ∈ nts →
  readerInvariant nts acc → readerInvariant nts (parseBody nts head acc bodyStr).
Proof.
  intros Hhead (Hids & Hprods & Hnd & Hterms). unfold parseBody.
  pose proof (cleanBody_shape nts bodyStr) as [Hne Hshape]. cbv zeta in Hne, Hshape.
  set (cleanBody := if length (bodySymbol nts <$> bodyTokens bodyStr) =? 0
                    then [EPS] else bodySymbol nts <$> bodyTokens bodyStr) in *.
  destruct (addTerminals_spec nts cleanBody acc.2 Hnd) as [Hnd' Hel]. cbv zeta in Hnd', Hel.
  set (ts' := foldl (addTerminal nts) acc.2 cleanBody) in *.
  split; [|split; [|split]]; simpl.
  - rewrite fmap_app, length_app. simpl. rewrite Nat.add_1_r, seq_S. simpl.
    by rewrite Hids.
  - apply Forall_app. split.
    + eapply Forall_impl; [exact Hprods|]. intros p (Hh & Hb & Hsyms).
      split; [done|]. split; [done|]. intros sym Hsym.
      destruct (Hsyms sym Hsym) as (? & ? & Hacc). split; [done|]. split; [done|].
      destruct Hacc as [?|[?|?]]; auto. right. right. apply Hel. by left.
    + constructor; [|constructor]. simpl. split; [done|]. split; [done|].
      intros sym Hsym. destruct (Hshape sym Hsym) as [Hw He].
      split; [done|]. split; [done|].
      destruct (decide (sym = EPS)) as [|Heps]; [by left|]. right.
      destruct (decide (sym ∈ nts)) as [|Hnt]; [by left|]. right.
      apply Hel. right. done.
  - done.
  - intros t Ht. apply Hel in Ht as [Ht|(Ht & Hnt & Heps)].
    + destruct (Hterms t Ht) as (? & ? & p & Hp & Hb). split; [done|]. split; [done|].
      exists p. split; [|done]. apply elem_of_app. by left.
    + split; [done|]. split; [done|]. eexists. split.
      * apply elem_of_app. right. left.
      * done.
Qed.

Lemma parseGrammar_invariant input :
  let lines := grammarLines input in
  let nts := foldl collectHead [] lines in
  readerInvariant nts (foldl (parseLine nts) ([], []) lines).
Proof.
  cbv zeta. apply parseLines_invariant.
  - intros line part0 rest acc bodyStr Hline Hparts Hacc.
    apply parseBody_invariant; [|done].
    destruct (decide (headOf part0 = [])) as [|Hne]; [by left|]. right.
    by eapply collectHeads_registers.
  - split; [done|]. split; [constructor|]. split; [constructor|].
    intros t Ht. by apply elem_of_nil in Ht.
Qed.

(** The productions that [parseGrammar] returns are numbered 0, 1, 2, ...
    in their order, and the start symbol is the head of the first of
    them, or the empty string when there is none. *)
Theorem parseGrammar_numbers_productions (input : jsstring) :
  let g := parseGrammar input in
  prod_id <$> productions g = seq 0 (length (productions g))
  ∧ startSymbol g = default [] (prod_head <$> head (productions g)).
Proof.
  cbv zeta. split.
  - destruct (parseGrammar_unfold input) as (-> & _).
    apply (parseGrammar_invariant input).
  - unfold parseGrammar. cbv zeta.
    destruct (foldl (parseLine _) _ _) as [[|p ps] ts]; simpl; [done|].
    by case_bool_decide.
Qed.

(** In the grammar that [parseGrammar] returns, ['$'] is a terminal; the
    empty marker and the empty string are not; no symbol is listed twice
    or on both sides; and the name of a nonterminal is a non-empty string
    of letters, digits, apostrophes and angle brackets. *)
Theorem parseGrammar_symbol_sets (input : jsstring) :
  let g := parseGrammar input in
  DOLLAR ∈ terminals g ∧ (EPS ∉ terminals g) ∧ ([] ∉ terminals g)
  ∧ NoDup (terminals g) ∧ NoDup (nonTerminals g)
  ∧ (∀ x, x ∈ terminals g → x ∉ nonTerminals g)
  ∧ Forall (λ nt, nt ≠ [] ∧ Forall (λ c, isNameUnit c = true) nt) (nonTerminals g).
Proof.
  cbv zeta. destruct (parseGrammar_unfold input) as (Hp & -> & ->).
  pose proof (parseGrammar_invariant input) as (_ & Hprods & Hnd & Hterms).
  pose proof (collectHeads_names (grammarLines input)) as [Hndn Hnames].
  cbv zeta in *.
  set (nts := foldl collectHead [] (grammarLines input)) in *.
  set (acc := foldl (parseLine nts) ([], []) (grammarLines input)) in *.
  assert (∀ t, t ∈ acc.2 → t ≠ []) as Hnonempty.
  { intros t Ht. destruct (Hterms t Ht) as (_ & _ & p & Hpin & Hb).
    rewrite Forall_forall in Hprods. destruct (Hprods p Hpin) as (_ & _ & Hsyms).
    destruct (Hsyms t Hb) as (Hw & _). by apply isBodyWord_nonempty. }
  assert (DOLLAR ∉ nts) as Hdollar.
  { intros Hin. destruct (Hnames _ Hin) as [_ Hunits].
    specialize (Hunits 36%N ltac:(left)). done. }
  split; [apply jsset_add_elem; by left|].
  split; [|split; [|split; [|split; [|split]]]].
  - intros Hin. apply jsset_add_elem in Hin as [?|Hin]; [done|].
    by destruct (Hterms _ Hin) as (_ & ? & _).
  - intros Hin. apply jsset_add_elem in Hin as [?|Hin]; [done|].
    by apply (Hnonempty _ Hin).
  - by apply jsset_add_NoDup.
  - done.
  - intros x Hx. apply jsset_add_elem in Hx as [->|Hx]; [done|].
    by destruct (Hterms _ Hx) as (? & _).
  - apply Forall_forall. intros nt Hnt. destruct (Hnames nt Hnt) as [Hne Hunits].
    split; [done|]. by apply Forall_forall.
Qed.

(** Every production that [parseGrammar] returns has a body with at least
    one symbol.  A symbol is a single punctuation mark out of
    [{ } : ; ( ) ,] or a word with no white space and no punctuation in
    it, and every spelling of the empty marker has been replaced by ['ε']. *)
Theorem parseGrammar_bodies (input : jsstring) :
  Forall (λ p, prod_body p ≠ []
               ∧ Forall (λ sym, isBodyWord sym ∧ (isEpsilon sym = true → sym = EPS))
                        (prod_body p))
         (productions (parseGrammar input)).
Proof.
  destruct (parseGrammar_unfold input) as (-> & _).
  pose proof (parseGrammar_invariant input) as (_ & Hprods & _).
  eapply Forall_impl; [exact Hprods|]. intros p (_ & Hne & Hsyms).
  split; [done|]. apply Forall_forall. intros sym Hsym.
  destruct (Hsyms sym Hsym) as (? & ? & _). done.
Qed.

(** Every symbol of the grammar that [parseGrammar] returns is accounted
    for: the head of a production is a nonterminal unless it is the empty
    string; a symbol of a body is the empty marker, a nonterminal or a
    terminal; and a terminal other than ['$'] occurs in some body. *)
Theorem parseGrammar_symbols_accounted (input : jsstring) :
  let g := parseGrammar input in
  Forall (λ p, (prod_head p = [] ∨ prod_head p ∈ nonTerminals g)
               ∧ Forall (λ sym, sym = EPS ∨ sym ∈ nonTerminals g ∨ sym ∈ terminals g)
                        (prod_body p))
         (productions g)
  ∧ Forall (λ t, t = DOLLAR ∨ ∃ p, p ∈ productions g ∧ t ∈ prod_body p) (terminals g).
Proof.
  cbv zeta. destruct (parseGrammar_unfold input) as (-> & -> & ->).
  pose proof (parseGrammar_invariant input) as (_ & Hprods & _ & Hterms).
  cbv zeta in *. split.
  - eapply Forall_impl; [exact Hprods|]. intros p (Hh & _ & Hsyms).
    split; [done|]. apply Forall_forall. intros sym Hsym.
    destruct (Hsyms sym Hsym) as (_ & _ & [?|[?|?]]); auto.
    right. right. apply jsset_add_elem. by right.
  - apply Forall_forall. intros t Ht. apply jsset_add_elem in Ht as [->|Ht]; [by left|].
    right. by destruct (Hterms t Ht) as (_ & _ & ?).
Qed.

(** *** The spellings of the empty marker *)

Lemma lowerUnit_cases c :
  (65 ≤ c ≤ 90 ∧ lowerUnit c = [c + 32])%N
  ∨ (c = 304%N ∧ lowerUnit c = [105; 775]%N)
  ∨ (c = 8490%N ∧ lowerUnit c = [107%N])
  ∨ ((¬ (65 ≤ c ≤ 90)%N) ∧ lowerUnit c = [c]).
Proof.
  unfold lowerUnit.
  destruct (N.leb_spec 65 c), (N.leb_spec c 90); simpl;
    try (left; split; [lia | done]);
    (destruct (N.eqb_spec c 304) as [->|?]; [right; left; done|];
     destruct (N.eqb_spec c 8490) as [->|?]; [right; right; left; done|];
     right; right; right; split; [lia | done]).
Qed.

Lemma toLowerCase_letters s : ∀ t,
  Forall (λ e, 97 ≤ e ≤ 122 ∧ e ≠ 107)%N t →
  toLowerCase s = t ↔ Forall2 (λ c e, c = e ∨ (c + 32)%N = e) s t.
Proof.
  unfold toLowerCase.
  induction s as [|c s IH]; intros t Ht; simpl.
  - split; [intros <-; constructor | by intros ->%Forall2_nil_inv_l].
  - split.
    + intros Heq.
      destruct (lowerUnit_cases c) as [[Hc Hl]|[[-> Hl]|[[-> Hl]|[Hc Hl]]]];
        rewrite Hl in Heq; simpl in Heq; subst t.
      * apply Forall_cons in Ht as [_ Ht]. constructor; [by right | by apply IH].
      * apply Forall_cons in Ht as [_ Ht]. apply Forall_cons in Ht as [[Hlow _] _]. lia.
      * apply Forall_cons in Ht as [[_ Hk] _]. done.
      * apply Forall_cons in Ht as [_ Ht]. constructor; [by left | by apply IH].
    + intros H2. apply Forall2_cons_inv_l in H2 as (e & t' & He & H2 & ->).
      apply Forall_cons in Ht as [[Hrange Hk] Ht].
      apply IH in H2; [|done]. rewrite H2.
      destruct (lowerUnit_cases c) as [[Hc Hl]|[[-> Hl]|[[-> Hl]|[Hc Hl]]]];
        rewrite Hl; simpl; destruct He as [<-|<-]; try done; try lia; f_equal; lia.
Qed.

(** [isEpsilon] accepts the marker ['ε'] and the word [epsilon] written
    with any mixture of upper and lower case letters, and nothing else. *)
Theorem isEpsilon_spellings (s : jsstring) :
  isEpsilon s = true ↔
  s = EPS ∨ Forall2 (λ c e, c = e ∨ (c + 32)%N = e) s (js "epsilon").
Proof.
  unfold isEpsilon. rewrite orb_true_iff, !bool_decide_eq_true.
  rewrite (toLowerCase_letters s (js "epsilon")); [done|].
  repeat (constructor; [split; [split; by vm_compute | done]|]). constructor.
Qed.

(** ** The simulator: what every run keeps *)

Lemma placeholderNodes_labels l : ∀ n,
  node_label_of <$> placeholderNodes n l = Some <$> l.
Proof. induction l as [|s l IH]; intros n; simpl; [done|]. by rewrite IH. Qed.

Lemma popN_length {A} n (l : list A) : length (popN n l) = length l - n.
Proof. unfold popN. rewrite length_take. lia. Qed.

(** Popping the same number of entries off the symbols and off the nodes
    keeps the nodes labelled by the topmost symbols. *)
Lemma popN_suffix n (nodes : list ParseTreeNode) (syms : list tok) :
  (node_label_of <$> nodes) `suffix_of` syms →
  (node_label_of <$> popN n nodes) `suffix_of` popN n syms.
Proof.
  intros [pre Hpre]. unfold popN.
  destruct (decide (n ≤ length nodes)) as [Hle|Hgt].
  - exists pre. rewrite Hpre, length_app, length_fmap.
    rewrite take_app_ge by lia. rewrite fmap_take. do 2 f_equal. lia.
  - replace (length nodes - n) with 0 by lia. simpl. by exists (take (length syms - n) syms);
      rewrite app_nil_r.
Qed.

Lemma suffix_snoc {A} (l k : list A) x : l `suffix_of` k → (l ++ [x]) `suffix_of` (k ++ [x]).
Proof. intros [pre ->]. exists pre. by rewrite app_assoc. Qed.

Lemma runningSteps_snoc l s :
  runningSteps l → ps_step s = length l → isHaltStep s = false → alignedStep s →
  runningSteps (l ++ [s]).
Proof.
  intros Hl Hn Hh Ha i x Hi. apply lookup_app_Some in Hi as [Hi|[Hge Hi]]; [by apply Hl|].
  apply list_lookup_singleton_Some in Hi as [Hi <-].
  split; [lia | done].
Qed.

Lemma finishedSteps_snoc l s :
  runningSteps l → ps_step s = length l → alignedStep s → finishedSteps (l ++ [s]).
Proof.
  intros Hl Hn Ha i x Hi. rewrite length_app. simpl.
  apply lookup_app_Some in Hi as [Hi|[Hge Hi]].
  - destruct (Hl i x Hi) as (? & Hh & ?). split; [done|]. split; [done|].
    by rewrite Hh.
  - apply list_lookup_singleton_Some in Hi as [Hi <-].
    split; [lia|]. split; [done|]. lia.
Qed.

Lemma finishedSteps_running l : runningSteps l → finishedSteps l.
Proof.
  intros Hl i x Hi. destruct (Hl i x Hi) as (? & Hh & ?).
  split; [done|]. split; [done|]. by rewrite Hh.
Qed.

Lemma snapshot_aligned tokens st n a e :
  length (stack st) = length (symbols st) →
  (node_label_of <$> nodeStack st) `suffix_of` symbols st →
  alignedStep (snapshot tokens st n a e).
Proof. by split. Qed.

Lemma initState_invariant opts : simInvariant (initState opts).
Proof.
  pose proof (initState_stacks opts) as Hst.
  pose proof (initStacks_length opts) as Hlen.
  pose proof (initStacks_cases opts) as Hc. cbv zeta in Hc.
  unfold initState in *. destruct (initStacks opts) as [stack0 symbols0] eqn:Hinit.
  simpl in *. split; [done|]. split; [done|]. split; [|by intros i s Hi].
  simpl. destruct (providedSymbols opts) as [l|] eqn:Hl.
  - rewrite app_nil_r, placeholderNodes_labels.
    destruct Hc as [(_ & Hc)|[(_ & Hc)|(_ & Hc)]]; injection Hc as _ ->;
      [by eexists | by exists [] | by exists []].
  - rewrite app_nil_l.
    destruct (bool_decide (0 < length symbols0) && negb (length [] =? length symbols0));
      [|by exists symbols0; rewrite app_nil_r].
    rewrite placeholderNodes_labels. exists [].
    rewrite length_replicate in Hc.
    assert (symbols0 = replicate (length (default [0] (providedStack opts))) (Some DOLLAR))
      as ->.
    { destruct Hc as [(? & Hc)|[(? & Hc)|(_ & Hc)]]; try lia. by injection Hc as _ ->. }
    simpl. generalize (length (default [0] (providedStack opts))).
    intros n. induction n as [|n IH]; simpl; [done|]. by f_equal.
Qed.

Lemma shiftStep_invariant tokens lookahead nextState st :
  simInvariant st →
  ∃ st', shiftStep tokens lookahead nextState st = Continue st'
         ∧ simInvariant st' ∧ stepCount st' = S (stepCount st).
Proof.
  intros (Hcount & Hlen & Hsuf & Hsteps). eexists. split; [done|]. split; [|done].
  split; [|split; [|split]]; simpl.
  - rewrite length_app. simpl. lia.
  - rewrite !length_app. simpl. lia.
  - rewrite fmap_app. by apply suffix_snoc.
  - apply runningSteps_snoc; [done|done|done|]. by apply snapshot_aligned.
Qed.

Lemma reduceStep_invariant tokens g table prodId st :
  simInvariant st →
  match reduceStep tokens g table prodId st with
  | Continue st' => simInvariant st' ∧ stepCount st' = S (S (stepCount st))
  | Break st' => finishedSteps (steps st') ∧ length (steps st') = S (S (stepCount st))
  | Raise msg st' => st' = st
  end.
Proof.
  intros (Hcount & Hlen & Hsuf & Hsteps). unfold reduceStep.
  destruct (findProduction g prodId) as [prod|]; [|done]. cbv zeta.
  set (k := popCountOf prod).
  assert (runningSteps (steps st ++ [snapshot tokens st (stepCount st) (ActReduce prod)
                                       (ExplReduce prod)])) as Hsteps1.
  { apply runningSteps_snoc; [done|done|done|]. by apply snapshot_aligned. }
  assert (length (popN k (stack st)) = length (popN k (symbols st))) as Hlen1.
  { rewrite !popN_length. lia. }
  pose proof (popN_suffix k _ _ Hsuf) as Hsuf1.
  destruct (isEpsilonReduction prod); simpl;
    destruct (lookupGoto _ _ _) as [nextState|]; simpl.
  all: try (split; [|rewrite !length_app; simpl; lia]).
  all: try (apply finishedSteps_snoc; [done| |by apply snapshot_aligned]; simpl;
            rewrite length_app; simpl; lia).
  all: split; [|done].
  all: split; [|split; [|split]]; simpl.
  all: try (rewrite !length_app; simpl; lia).
  all: try (rewrite fmap_app; by apply suffix_snoc).
  all: apply runningSteps_snoc; [done| |done|]; simpl.
  all: try (rewrite length_app; simpl; lia).
  all: split; simpl; [rewrite !length_app; simpl; lia|].
  all: rewrite fmap_app; by apply suffix_snoc.
Qed.

(** One pass through the loop body. *)
Lemma loopBody_invariant tokens g table st :
  simInvariant st →
  match loopBody tokens g table st with
  | Continue st' => simInvariant st' ∧ stepCount st' ≤ S (S (stepCount st))
  | Break st' => finishedSteps (steps st') ∧ length (steps st') ≤ S (S (stepCount st))
  | Raise msg st' => st' = st
  end.
Proof.
  intros Hinv. unfold loopBody.
  destruct (lookupAction _ _ _) as [[n|n|]|].
  - destruct (shiftStep_invariant tokens (tokens !! inputIdx st) n st Hinv)
      as (st' & -> & Hinv' & Hc). split; [done|lia].
  - pose proof (reduceStep_invariant tokens g table n st Hinv) as H.
    destruct (reduceStep tokens g table n st); [|by destruct H; split; [|lia] |done].
    destruct H. split; [done|lia].
  - destruct Hinv as (Hcount & Hlen & Hsuf & Hsteps). simpl. split.
    + apply finishedSteps_snoc; [done|done|]. by apply snapshot_aligned.
    + rewrite length_app. simpl. lia.
  - destruct Hinv as (Hcount & Hlen & Hsuf & Hsteps). simpl. split.
    + apply finishedSteps_snoc; [done|done|]. by apply snapshot_aligned.
    + rewrite length_app. simpl. lia.
Qed.

(** The loop, from a configuration that satisfies the invariant. *)
Lemma runLoop_invariant tokens g table fuel : ∀ st,
  simInvariant st → stepCount st ≤ S MAX_STEPS →
  match runLoop fuel tokens g table st with
  | Finished st' => finishedSteps (steps st') ∧ length (steps st') ≤ S MAX_STEPS
  | Thrown msg st' => simInvariant st' ∧ stepCount st' < MAX_STEPS
  | Unfinished => True
  end.
Proof.
  induction fuel as [|fuel IH]; intros st Hinv Hmax; simpl.
  - destruct (Nat.ltb_spec (stepCount st) MAX_STEPS); [done|].
    destruct Hinv as (Hcount & _ & _ & Hsteps).
    split; [by apply finishedSteps_running | lia].
  - destruct (Nat.ltb_spec (stepCount st) MAX_STEPS) as [Hlt|Hge].
    + pose proof (loopBody_invariant tokens g table st Hinv) as H.
      destruct (loopBody tokens g table st) as [st'|st'|msg st'].
      * destruct H. apply IH; [done|lia].
      * destruct H. split; [done|lia].
      * by subst st'.
    + destruct Hinv as (Hcount & _ & _ & Hsteps).
      split; [by apply finishedSteps_running | lia].
Qed.

(** Every list of steps that [simulateParsing] returns. *)
Lemma simulateParsing_result fuel inputStr g table opts result :
  simulateParsing fuel inputStr g table opts = Some result →
  finishedSteps result ∧ length result ≤ S MAX_STEPS.
Proof.
  unfold simulateParsing. destruct (tokenize fuel g inputStr) as [tokens|]; [|done].
  simpl. unfold runGuarded.
  pose proof (runLoop_invariant tokens g table MAX_STEPS (initState opts)
                (initState_invariant opts)) as H.
  destruct (runLoop MAX_STEPS tokens g table (initState opts)) as [st'|msg st'|]; [| |done].
  - intros [= <-]. apply H. destruct (initState_invariant opts) as (-> & _). simpl. lia.
  - intros [= <-]. destruct H as [(Hcount & Hlen & Hsuf & Hsteps) Hlt].
    { destruct (initState_invariant opts) as (-> & _). simpl. lia. }
    split.
    + apply finishedSteps_snoc; [done|done|]. by apply snapshot_aligned.
    + rewrite length_app. simpl. lia.
Qed.

(** The steps that [simulateParsing] returns are numbered by their
    position: the first has number 0, the next number 1, and so on, also
    after a reduction that ends in a goto error and after an exception. *)
Theorem simulateParsing_steps_numbered (fuel : nat) (inputStr : jsstring)
    (g : Grammar) (table : ParsingTable) (opts : option Opts) (result : list ParseStep) :
  simulateParsing fuel inputStr g table opts = Some result →
  ps_step <$> result = seq 0 (length result).
Proof.
  intros Hrun. apply simulateParsing_result in Hrun as [Hfin _].
  apply list_eq. intros i. rewrite list_lookup_fmap.
  destruct (result !! i) as [s|] eqn:Hi; simpl.
  - destruct (Hfin i s Hi) as (-> & _). symmetry. apply lookup_seq.
    split; [done|]. by apply lookup_lt_Some in Hi.
  - symmetry. apply lookup_ge_None. rewrite length_seq. by apply lookup_ge_None.
Qed.

Lemma simulateParsing_steps_numbered_witness :
  ∃ result,
    simulateParsing 3 (js "a a") nullableGrammar nullableTable None = Some result
    ∧ ps_step <$> result = [0; 1; 2; 3; 4; 5; 6; 7; 8].
Proof.
  eexists. split; [vm_compute; reflexivity|].
  etrans; [apply (simulateParsing_steps_numbered 3 (js "a a") nullableGrammar
                    nullableTable None); vm_compute; reflexivity|].
  reflexivity.
Defined.

(** An ['Error'] or ['Accept'] step is always the last step of the list
    that [simulateParsing] returns. *)
Theorem simulateParsing_halt_step_is_last (fuel : nat) (inputStr : jsstring)
    (g : Grammar) (table : ParsingTable) (opts : option Opts) (result : list ParseStep)
    (i : nat) (s : ParseStep) :
  simulateParsing fuel inputStr g table opts = Some result →
  result !! i = Some s → isHaltStep s = true → S i = length result.
Proof.
  intros Hrun Hi Hhalt. apply simulateParsing_result in Hrun as [Hfin _].
  destruct (Hfin i s Hi) as (_ & _ & Hlast). by apply Hlast.
Qed.

Lemma simulateParsing_halt_step_is_last_witness :
  ∃ result s,
    simulateParsing 3 (js "a a") nullableGrammar nullableTable None = Some result
    ∧ result !! 8 = Some s ∧ ps_action s = ActAccept ∧ 9 = length result.
Proof.
  eexists _, _. split; [vm_compute; reflexivity|].
  split; [vm_compute; reflexivity|]. split; [reflexivity|].
  eapply (simulateParsing_halt_step_is_last 3 (js "a a") nullableGrammar
            nullableTable None _ 8); vm_compute; reflexivity.
Defined.

(** In every step that [simulateParsing] returns, the state stack and the
    symbol stack have the same height, and the roots of the forest are
    labelled, in order, by the topmost symbols of the symbol stack. *)
Theorem simulateParsing_steps_aligned (fuel : nat) (inputStr : jsstring)
    (g : Grammar) (table : ParsingTable) (opts : option Opts) (result : list ParseStep) :
  simulateParsing fuel inputStr g table opts = Some result →
  Forall (λ s, length (ps_stack s) = length (ps_symbols s)
               ∧ (node_label_of <$> ps_forest s) `suffix_of` ps_symbols s) result.
Proof.
  intros Hrun. apply simulateParsing_result in Hrun as [Hfin _].
  apply Forall_forall. intros s Hs. apply list_elem_of_lookup in Hs as [i Hi].
  by destruct (Hfin i s Hi) as (_ & ? & _).
Qed.

Lemma simulateParsing_steps_aligned_witness :
  ∃ result,
    simulateParsing 0 [] nullableGrammar paddedTable (Some paddedOpts) = Some result
    ∧ Forall (λ s, length (ps_stack s) = length (ps_symbols s)
                   ∧ (node_label_of <$> ps_forest s) `suffix_of` ps_symbols s) result.
Proof.
  eexists. split; [vm_compute; reflexivity|].
  apply (simulateParsing_steps_aligned 0 [] nullableGrammar paddedTable (Some paddedOpts)).
  vm_compute; reflexivity.
Defined.

(** [simulateParsing] never returns more than [MAX_STEPS + 1] steps: the
    loop is entered with fewer than [MAX_STEPS] steps counted, and one
    pass records two steps at most. *)
Theorem simulateParsing_step_limit (fuel : nat) (inputStr : jsstring)
    (g : Grammar) (table : ParsingTable) (opts : option Opts) (result : list ParseStep) :
  simulateParsing fuel inputStr g table opts = Some result →
  length result ≤ MAX_STEPS + 1.
Proof.
  intros Hrun. apply simulateParsing_result in Hrun as [_ Hlen]. lia.
Qed.

Lemma simulateParsing_step_limit_witness :
  ∃ result,
    simulateParsing 3 (js "a a") nullableGrammar nullableTable None = Some result
    ∧ length result ≤ MAX_STEPS + 1.
Proof.
  eexists. split; [vm_compute; reflexivity|].
  apply (simulateParsing_step_limit 3 (js "a a") nullableGrammar nullableTable None).
  vm_compute; reflexivity.
Defined.

(** The limit is reached: with [shiftCycleTable], one shift and 250
    reductions give 501 steps. *)
Lemma simulateParsing_step_limit_reached :
  length <$> simulateParsing 1 (js "a") nullableGrammar shiftCycleTable None
  = Some (MAX_STEPS + 1).
Proof. vm_compute. reflexivity. Qed.

(** *** The tokenizer loses white space only *)

Lemma visible_app s t : visible (s ++ t) = visible s ++ visible t.
Proof. apply List.filter_app. Qed.

Lemma visible_cons c s :
  visible (c :: s) = if isWhiteSpace c then visible s else c :: visible s.
Proof. unfold visible. simpl. by destruct (isWhiteSpace c). Qed.

Lemma visible_trimStart s : visible (trimStart s) = visible s.
Proof.
  induction s as [|c s IH]; [done|]. rewrite visible_cons. simpl.
  destruct (isWhiteSpace c) eqn:Hc; [done|]. by rewrite visible_cons, Hc.
Qed.

Lemma visible_rev s : visible (rev s) = rev (visible s).
Proof.
  induction s as [|c s IH]; [done|].
  rewrite visible_cons. cbn [rev]. rewrite visible_app, IH, visible_cons.
  change (visible []) with ([] : jsstring).
  destruct (isWhiteSpace c); [by rewrite app_nil_r | done].
Qed.

Lemma visible_trim s : visible (trim s) = visible s.
Proof.
  unfold trim. rewrite visible_rev, visible_trimStart, visible_rev, rev_involutive.
  apply visible_trimStart.
Qed.

Lemma tokenizeLoop_visible sorted fuel : ∀ remaining tokens result,
  tokenizeLoop fuel sorted remaining tokens = Some result →
  visible (concat result) = visible (concat tokens) ++ visible remaining.
Proof.
  induction fuel as [|fuel IH]; intros remaining tokens result;
    destruct remaining as [|char rest]; cbn [tokenizeLoop].
  - intros [= <-]. by rewrite app_nil_r.
  - done.
  - intros [= <-]. by rewrite app_nil_r.
  - destruct (startsWith (char :: rest) SPACE) eqn:Hspace.
    + intros Hrun. rewrite (IH _ _ _ Hrun), visible_cons.
      simpl in Hspace. destruct (decide (char = 32%N)) as [->|]; done.
    + destruct (List.find (startsWith (char :: rest)) sorted) as [t|] eqn:Hfind.
      * intros Hrun. rewrite (IH _ _ _ Hrun).
        apply find_some in Hfind as [_ Hpre].
        apply startsWith_prefix in Hpre as [k Hk].
        rewrite Hk, drop_app_length, visible_trim, concat_app, !visible_app.
        cbn [concat]. by rewrite app_nil_r, <- app_assoc.
      * intros Hrun. rewrite (IH _ _ _ Hrun).
        rewrite visible_trim, concat_app, !visible_app. cbn [concat].
        rewrite app_nil_r, <- app_assoc. f_equal.
        rewrite (visible_cons char rest).
        destruct (isWhiteSpace char) eqn:Hws; [|by rewrite visible_cons, Hws].
        by rewrite visible_cons, Hws.
Qed.

(** The tokens that the tokenizer returns are pieces of the input in
    their order, followed by ['$']: put together they spell the input
    with its white space left out.  Nothing else is dropped or added. *)
Theorem tokenize_loses_white_space_only (fuel : nat) (g : Grammar)
    (inputStr : jsstring) (tokens : list jsstring) :
  tokenize fuel g inputStr = Some tokens →
  ∃ toks, tokens = toks ++ [DOLLAR] ∧ visible (concat toks) = visible inputStr.
Proof.
  unfold tokenize. destruct (tokenizeLoop _ _ _ _) as [toks|] eqn:Hrun; [|done].
  simpl. intros [= <-]. exists toks. split; [done|].
  apply tokenizeLoop_visible in Hrun. by rewrite Hrun, visible_trim.
Qed.

Lemma tokenize_loses_white_space_only_witness :
  ∃ toks, tokenize 9 tokenExample (js " abc ab a ") = Some (toks ++ [DOLLAR])
          ∧ visible (concat toks) = js "abcaba".
Proof.
  destruct (tokenize_loses_white_space_only 9 tokenExample (js " abc ab a ")
              [js "abc"; js "ab"; js "a"; DOLLAR]) as (toks & Heq & Hvis).
  - vm_compute. reflexivity.
  - exists toks. rewrite <- Heq. split; [vm_compute; reflexivity | exact Hvis].
Defined.

(** ** Item sets: equality, closure and goto *)

(** [areItemSetsEqual] compares two arrays of items as multisets: it
    returns [true] exactly when one is a rearrangement of the other, so
    the order of the items does not matter and repeated items count. *)
Theorem areItemSetsEqual_iff_rearrangement (a b : list LRItem) :
  areItemSetsEqual a b = true ↔ a ≡ₚ b.
Proof. apply areItemSetsEqual_Permutation. Qed.

(** [getClosure] always ends: it returns when every given item names a
    production of the grammar, and it throws a [TypeError] when one of
    them does not; it never loops for ever. *)
Theorem getClosure_returns_or_throws (g : Grammar) (items : list LRItem) :
  ((∀ item, item ∈ items → validItem g item) ∧ ∃ C, getClosure items g = Ok C)
  ∨ ((¬ ∀ item, item ∈ items → validItem g item)
     ∧ ∃ msg, getClosure items g = Throw msg).
Proof. apply getClosure_total. Qed.

Section Least.
Variable g : Grammar.
Variable D : list LRItem.
Hypothesis D_closed : closedItems g D.

Lemma addProductionItems_within sym ps : ∀ acc,
  (∀ p, p ∈ ps → prod_head p = sym → initialItem p ∈ D) →
  (∀ x, x ∈ acc.1 → x ∈ D) →
  ∀ x, x ∈ (foldl (addProductionItem sym) acc ps).1 → x ∈ D.
Proof.
  induction ps as [|p ps IH]; intros acc Hps Hacc; simpl; [done|].
  apply IH.
  - intros q Hq. apply Hps. by right.
  - unfold addProductionItem. case_bool_decide as Hhead; [|done].
    destruct (existsb _ acc.1); [done|]. simpl. intros x Hx.
    apply elem_of_app in Hx as [Hx|Hx]; [by apply Hacc|].
    apply list_elem_of_singleton in Hx as ->. apply Hps; [left | done].
Qed.

Lemma closureItem_within item acc acc' :
  item ∈ D → (∀ x, x ∈ acc.1 → x ∈ D) →
  closureItem g item acc = Ok acc' → ∀ x, x ∈ acc'.1 → x ∈ D.
Proof.
  intros Hitem Hacc. unfold closureItem.
  destruct (findProduction g (productionId item)) as [prod|] eqn:Hprod; [|done].
  destruct (prod_body prod !! dotPosition item) as [sym|] eqn:Hsym;
    [|by intros [= <-]].
  unfold jsset_has. case_bool_decide as Hnt; [|by intros [= <-]].
  intros [= <-]. apply addProductionItems_within; [|done].
  intros p Hp Hhead. by eapply D_closed.
Qed.

Lemma closureFor_within fuel : ∀ i acc acc',
  (∀ x, x ∈ acc.1 → x ∈ D) →
  closureFor fuel g i acc = Ok acc' → ∀ x, x ∈ acc'.1 → x ∈ D.
Proof.
  induction fuel as [|fuel IH]; intros i acc acc' Hacc; simpl.
  - destruct (acc.1 !! i); [done|]. by intros [= <-].
  - destruct (acc.1 !! i) as [item|] eqn:Hitem; [|by intros [= <-]].
    destruct (closureItem g item acc) as [acc1| |] eqn:Hstep; try done. simpl.
    apply IH. eapply closureItem_within; [|done|done].
    apply Hacc. by eapply list_elem_of_lookup_2.
Qed.

Lemma closureWhile_within n fuel : ∀ cl C,
  (∀ x, x ∈ cl → x ∈ D) → closureWhile n fuel g cl = Ok C → ∀ x, x ∈ C → x ∈ D.
Proof.
  induction n as [|n IH]; intros cl C Hcl; simpl; [done|].
  destruct (closureFor fuel g 0 (cl, false)) as [[cl1 ch]| |] eqn:Hfor; try done.
  simpl. pose proof (closureFor_within fuel 0 (cl, false) _ Hcl Hfor) as Hcl1.
  destruct ch; [by apply IH | by intros [= <-]].
Qed.
End Least.

(** What [getClosure] returns is the closure: a closed set of items that
    contains the given ones and lies within every closed set of items
    that contains them. *)
Theorem getClosure_least_closed (g : Grammar) (items C : list LRItem) :
  getClosure items g = Ok C →
  (∀ x, x ∈ items → x ∈ C)
  ∧ closedItems g C
  ∧ ∀ D, closedItems g D → (∀ x, x ∈ items → x ∈ D) → ∀ x, x ∈ C → x ∈ D.
Proof.
  intros Hrun.
  destruct (getClosure_total g items) as [[Hvalid _]|[_ [msg Hthrow]]]; [|congruence].
  destruct (getClosure_spec g items Hvalid) as (C' & Hrun' & [k ->] & Hclosed & _).
  assert (C = items ++ k) as -> by congruence.
  split; [|split; [done|]].
  - intros x Hx. apply elem_of_app. by left.
  - intros D HD Hsub. by eapply closureWhile_within.
Qed.

Lemma getClosure_least_closed_witness :
  ∃ C, getClosure [{| productionId := 0; dotPosition := 0 |}] nullableGrammar = Ok C
       ∧ closedItems nullableGrammar C.
Proof.
  eexists. split; [vm_compute; reflexivity|].
  apply (getClosure_least_closed nullableGrammar [{| productionId := 0; dotPosition := 0 |}]).
  vm_compute. reflexivity.
Defined.

(** The items that [getGoto] collects before it closes them. *)
Lemma gotoItems_kernel g symbol items : ∀ acc next,
  forEachM (gotoItem g symbol) acc items = Ok next →
  ∀ it, it ∈ next ↔
        it ∈ acc ∨ ∃ item, item ∈ items ∧ afterDot g item symbol ∧ it = advance item.
Proof.
  induction items as [|item items IH]; intros acc next; simpl.
  - intros [= <-] it. split; [by left|]. intros [?|(item & Hin & _)]; [done|].
    by apply elem_of_nil in Hin.
  - unfold gotoItem at 1.
    destruct (findProduction g (productionId item)) as [prod|] eqn:Hprod; [|done].
    assert (∀ sym, afterDot g item sym ↔ prod_body prod !! dotPosition item = Some sym)
      as Hafter.
    { intros sym. split; [intros (prod' & Hp' & Hs); congruence | by exists prod]. }
    destruct (prod_body prod !! dotPosition item) as [sym|] eqn:Hsym; simpl.
    + case_bool_decide as Heq; simpl.
      * subst sym. intros Hrun it. rewrite (IH _ _ Hrun it), elem_of_app.
        rewrite list_elem_of_singleton. fold (advance item). split.
        -- intros [[?| ->]|(item' & Hin & Ha & ->)]; [by left| |].
           ++ right. exists item. split; [left|]. split; [by apply Hafter | done].
           ++ right. exists item'. split; [by right | done].
        -- intros [?|(item' & Hin & Ha & ->)]; [by left; left|].
           apply elem_of_cons in Hin as [->|Hin]; [by left; right|].
           right. by exists item'.
      * intros Hrun it. rewrite (IH _ _ Hrun it). split.
        -- intros [?|(item' & Hin & Ha & ->)]; [by left|].
           right. exists item'. split; [by right | done].
        -- intros [?|(item' & Hin & Ha & ->)]; [by left|].
           apply elem_of_cons in Hin as [->|Hin].
           ++ apply Hafter in Ha. congruence.
           ++ right. by exists item'.
    + intros Hrun it. rewrite (IH _ _ Hrun it). split.
      * intros [?|(item' & Hin & Ha & ->)]; [by left|].
        right. exists item'. split; [by right | done].
      * intros [?|(item' & Hin & Ha & ->)]; [by left|].
        apply elem_of_cons in Hin as [->|Hin].
        -- apply Hafter in Ha. congruence.
        -- right. by exists item'.
Qed.

Lemma getClosure_nil g : getClosure [] g = Ok [].
Proof.
  unfold getClosure. cbn [closureWhile].
  by destruct (closureBudget [] g).
Qed.

(** [getGoto] with its parts named: the advanced items and their closure. *)
Lemma getGoto_parts g items symbol J :
  getGoto items symbol g = Ok J →
  ∃ kernel added,
    J = kernel ++ added
    ∧ (∀ it, it ∈ kernel ↔
             ∃ item, item ∈ items ∧ afterDot g item symbol ∧ it = advance item)
    ∧ (∀ it, it ∈ added → ∃ p, p ∈ productions g ∧ it = initialItem p)
    ∧ (kernel = [] → added = [])
    ∧ closedItems g J.
Proof.
  unfold getGoto.
  destruct (forEachM (gotoItem g symbol) [] items) as [kernel| |] eqn:Hk; try done.
  simpl. intros Hrun.
  pose proof (gotoItems_kernel g symbol items [] kernel Hk) as Hkernel.
  destruct (getClosure_total g kernel) as [[Hvalid _]|[_ [msg Hthrow]]]; [|congruence].
  destruct (getClosure_spec g kernel Hvalid) as (C & Hrun' & _ & Hclosed & _ & Hgrow).
  assert (C = J) as -> by congruence.
  destruct Hgrow as (added & -> & _ & Hadded).
  exists kernel, added. split; [done|]. split; [|split; [|split; [|done]]].
  - intros it. rewrite Hkernel. split; [|by right].
    intros [Hin|?]; [by apply elem_of_nil in Hin | done].
  - intros it Hit. by destruct (Hadded it Hit).
  - intros ->. rewrite getClosure_nil in Hrun. injection Hrun as Hrun.
    by destruct added.
Qed.

(** The set that [getGoto] returns for a symbol consists of the items
    that have the symbol after their dot, with the dot moved over it,
    followed by initial items of productions; it is closed; and it is
    empty exactly when no item has the symbol after its dot. *)
Theorem getGoto_advances_and_closes (g : Grammar) (items : list LRItem)
    (symbol : jsstring) (J : list LRItem) :
  getGoto items symbol g = Ok J →
  (∀ item, item ∈ items → afterDot g item symbol → advance item ∈ J)
  ∧ (∀ it, it ∈ J →
       (∃ item, item ∈ items ∧ afterDot g item symbol ∧ it = advance item)
       ∨ ∃ p, p ∈ productions g ∧ it = initialItem p)
  ∧ closedItems g J
  ∧ (J = [] ↔ ∀ item, item ∈ items → ¬ afterDot g item symbol).
Proof.
  intros Hrun.
  destruct (getGoto_parts g items symbol J Hrun)
    as (kernel & added & -> & Hkernel & Hadded & Hnil & Hclosed).
  split; [|split; [|split; [done|]]].
  - intros item Hin Ha. apply elem_of_app. left. apply Hkernel. by exists item.
  - intros it Hit. apply elem_of_app in Hit as [Hit|Hit]; [left | right].
    + by apply Hkernel.
    + by apply Hadded.
  - split.
    + intros Heq item Hin Ha. apply app_eq_nil in Heq as [-> _].
      assert (advance item ∈ ([] : list LRItem)) as Hbad by (apply Hkernel; by exists item).
      by apply elem_of_nil in Hbad.
    + intros Hnone. assert (kernel = []) as ->.
      { destruct kernel as [|it k]; [done|].
        destruct (proj1 (Hkernel it) ltac:(left)) as (item & Hin & Ha & _).
        by destruct (Hnone item Hin). }
      by rewrite Hnil.
Qed.

Lemma getGoto_advances_and_closes_witness :
  ∃ J, getGoto [{| productionId := 0; dotPosition := 0 |};
                {| productionId := 1; dotPosition := 0 |};
                {| productionId := 2; dotPosition := 0 |}] (js "a") nullableGrammar = Ok J
       ∧ closedItems nullableGrammar J.
Proof.
  eexists. split; [vm_compute; reflexivity|].
  apply (getGoto_advances_and_closes nullableGrammar
           [{| productionId := 0; dotPosition := 0 |};
            {| productionId := 1; dotPosition := 0 |};
            {| productionId := 2; dotPosition := 0 |}] (js "a")).
  vm_compute. reflexivity.
Defined.

(** ** The automaton: every grammar, every transition *)

Lemma keepsStates_refl states : keepsStates states states.
Proof. intros j s Hs. by exists s. Qed.

Lemma keepsStates_trans s1 s2 s3 :
  keepsStates s1 s2 → keepsStates s2 s3 → keepsStates s1 s3.
Proof.
  intros H1 H2 j s Hs.
  destruct (H1 j s Hs) as (s' & Hs' & Hitems & Htr).
  destruct (H2 j s' Hs') as (s'' & Hs'' & Hitems' & Htr').
  exists s''. split; [done|]. split; [congruence|]. auto.
Qed.

Lemma keepsStates_setTransition i symbol target states :
  keepsStates states (setTransition i symbol target states).
Proof.
  intros j s Hs. rewrite setTransition_lookup. case_decide as Hij.
  - subst j. rewrite Hs. simpl. eexists. split; [done|]. split; [done|].
    simpl. intros sym Hsym. destruct (decide (sym = symbol)) as [->|Hne].
    + rewrite lookup_insert_eq. by eexists.
    + by rewrite lookup_insert_ne.
  - by exists s.
Qed.

Lemma keepsStates_push states s : keepsStates states (states ++ [s]).
Proof. intros j s0 Hs0. exists s0. split; [by apply lookup_app_l_Some | done]. Qed.

(** What [dfaSymbol] does when it returns. *)
Lemma dfaSymbol_cases g i items states symbol states' :
  dfaSymbol g i items states symbol = Ok states' →
  (states' = states
   ∧ (symbol = DOLLAR ∨ symbol = EPS ∨ getGoto items symbol g = Ok []))
  ∨ ∃ J target,
      getGoto items symbol g = Ok J ∧ J ≠ [] ∧ symbol ≠ DOLLAR ∧ symbol ≠ EPS
      ∧ ((states' = setTransition i symbol target states ∧ target < length states)
         ∨ (target = length states
            ∧ states' = setTransition i symbol target
                          (states ++ [{| st_id := target; st_items := J;
                                         st_transitions := ∅ |}]))).
Proof.
  unfold dfaSymbol.
  destruct (bool_decide (symbol = DOLLAR) || bool_decide (symbol = EPS)) eqn:Hskip.
  { intros [= <-]. left. split; [done|].
    apply orb_true_iff in Hskip as [H|H]; apply bool_decide_eq_true in H; auto. }
  apply orb_false_iff in Hskip as [Hd He]. apply bool_decide_eq_false in Hd, He.
  destruct (getGoto items symbol g) as [J| |]; try done. simpl.
  destruct (Nat.eqb_spec (length J) 0) as [Hz|Hnz].
  { intros [= <-]. left. split; [done|]. right. right. by destruct J. }
  assert (J ≠ []) as Hne by (by destruct J).
  destruct (findStateIndex states J) as [idx|] eqn:Hfind.
  - intros [= <-]. right. exists J, idx. repeat (split; [done|]). left. split; [done|].
    apply findStateIndex_Some in Hfind as (target & Htarget & _).
    by apply lookup_lt_Some in Htarget.
  - intros [= <-]. right. exists J, (length states). repeat (split; [done|]).
    right. done.
Qed.

Lemma dfaSymbol_keeps g i items states symbol states' :
  dfaSymbol g i items states symbol = Ok states' → keepsStates states states'.
Proof.
  intros Hrun. apply dfaSymbol_cases in Hrun
    as [[-> _]|(J & target & _ & _ & _ & _ & [[-> _]|[_ ->]])].
  - apply keepsStates_refl.
  - apply keepsStates_setTransition.
  - eapply keepsStates_trans; [apply keepsStates_push | apply keepsStates_setTransition].
Qed.

(** After [dfaSymbol], the state at [i] has a transition on the symbol
    when its goto on the symbol is not empty. *)
Lemma dfaSymbol_done g i cur states symbol states' J :
  dfaSymbol g i (st_items cur) states symbol = Ok states' →
  states !! i = Some cur → symbol ≠ DOLLAR → symbol ≠ EPS →
  getGoto (st_items cur) symbol g = Ok J → J ≠ [] →
  ∃ s', states' !! i = Some s' ∧ is_Some (st_transitions s' !! symbol).
Proof.
  intros Hrun Hcur Hd He HJ Hne. apply dfaSymbol_cases in Hrun
    as [[-> [?|[?|Hnil]]]|(J' & target & _ & _ & _ & _ & [[-> _]|[_ ->]])];
    try done; try congruence.
  - rewrite setTransition_lookup, decide_True, Hcur by done. simpl.
    eexists. split; [done|]. simpl. rewrite lookup_insert_eq. by eexists.
  - rewrite setTransition_lookup, decide_True by done.
    rewrite (lookup_app_l_Some _ _ _ _ Hcur). simpl.
    eexists. split; [done|]. simpl. rewrite lookup_insert_eq. by eexists.
Qed.

Lemma dfaSymbol_within g i items states symbol states' (allSymbols : list jsstring) :
  dfaSymbol g i items states symbol = Ok states' → symbol ∈ allSymbols →
  (∀ j s sym, states !! j = Some s → is_Some (st_transitions s !! sym) → sym ∈ allSymbols) →
  ∀ j s sym, states' !! j = Some s → is_Some (st_transitions s !! sym) → sym ∈ allSymbols.
Proof.
  intros Hrun Hin Hall.
  assert (∀ target sts,
            (∀ j s sym, sts !! j = Some s → is_Some (st_transitions s !! sym)
                        → sym ∈ allSymbols) →
            ∀ j s sym, setTransition i symbol target sts !! j = Some s →
                       is_Some (st_transitions s !! sym) → sym ∈ allSymbols) as Hset.
  { intros target sts Hsts j s sym Hs Hsym.
    apply setTransition_inv in Hs as (s0 & Hs0 & _ & _ & [Heq|[-> Heq]]);
      rewrite Heq in Hsym; [by eapply Hsts|].
    destruct (decide (sym = symbol)) as [->|Hne]; [done|].
    rewrite lookup_insert_ne in Hsym by done. by eapply Hsts. }
  apply dfaSymbol_cases in Hrun
    as [[-> _]|(J & target & _ & _ & _ & _ & [[-> _]|[_ ->]])]; [done| |].
  - by apply Hset.
  - apply Hset. intros j s sym Hs Hsym.
    apply lookup_app_Some in Hs as [Hs|[_ Hs]]; [by eapply Hall|].
    apply list_lookup_singleton_Some in Hs as [_ <-]. simpl in Hsym.
    rewrite lookup_empty in Hsym. by destruct Hsym.
Qed.

Lemma dfaSymbol_items g (P : list LRItem → Prop) i items states symbol states' :
  (∀ sym J, getGoto items sym g = Ok J → J ≠ [] → P J) →
  dfaSymbol g i items states symbol = Ok states' →
  (∀ j s, states !! j = Some s → P (st_items s)) →
  ∀ j s, states' !! j = Some s → P (st_items s).
Proof.
  intros HP Hrun Hall.
  assert (∀ target sts,
            (∀ j s, sts !! j = Some s → P (st_items s)) →
            ∀ j s, setTransition i symbol target sts !! j = Some s → P (st_items s))
    as Hset.
  { intros target sts Hsts j s Hs.
    apply setTransition_inv in Hs as (s0 & Hs0 & _ & -> & _). by eapply Hsts. }
  apply dfaSymbol_cases in Hrun
    as [[-> _]|(J & target & HJ & Hne & _ & _ & [[-> _]|[_ ->]])]; [done| |].
  - by apply Hset.
  - apply Hset. intros j s Hs.
    apply lookup_app_Some in Hs as [Hs|[_ Hs]]; [by eapply Hall|].
    apply list_lookup_singleton_Some in Hs as [_ <-]. simpl. by eapply HP.
Qed.

(** All the symbols tried on the state at [i]. *)
Lemma dfaSymbols_complete g i items (allSymbols : list jsstring) symbols :
  ∀ states states',
  forEachM (dfaSymbol g i items) states symbols = Ok states' →
  (∃ cur, states !! i = Some cur ∧ st_items cur = items) →
  (∀ sym, sym ∈ symbols → sym ∈ allSymbols) →
  keepsStates states states'
  ∧ (∃ s', states' !! i = Some s' ∧ completeState g symbols s')
  ∧ ((∀ j s sym, states !! j = Some s → is_Some (st_transitions s !! sym)
                 → sym ∈ allSymbols) →
     ∀ j s sym, states' !! j = Some s → is_Some (st_transitions s !! sym)
                → sym ∈ allSymbols)
  ∧ ∀ P : list LRItem → Prop,
      (∀ sym J, getGoto items sym g = Ok J → J ≠ [] → P J) →
      (∀ j s, states !! j = Some s → P (st_items s)) →
      ∀ j s, states' !! j = Some s → P (st_items s).
Proof.
  induction symbols as [|symbol symbols IH]; intros states states'; simpl.
  - intros [= <-] (cur & Hcur & Hitems) _.
    split; [apply keepsStates_refl|]. split; [|split; [done|]].
    + exists cur. split; [done|]. intros sym J Hin. by apply elem_of_nil in Hin.
    + intros P _ Hall. done.
  - destruct (dfaSymbol g i items states symbol) as [states1| |] eqn:Hstep;
      try done.
    simpl. intros Hrest (cur & Hcur & Hitems) Hsub.
    pose proof (dfaSymbol_keeps _ _ _ _ _ _ Hstep) as Hk1.
    destruct (Hk1 i cur Hcur) as (cur1 & Hcur1 & Hitems1 & Htr1).
    destruct (IH states1 states' Hrest) as (Hk2 & (s' & Hs' & Hcomplete) & Hw & HP).
    { exists cur1. split; [done|]. congruence. }
    { intros sym Hsym. apply Hsub. by right. }
    split; [by eapply keepsStates_trans|]. split; [|split].
    + exists s'. split; [done|]. intros sym J Hin Hd He HJ Hne.
      apply elem_of_cons in Hin as [->|Hin]; [|by eapply Hcomplete].
      destruct (Hk2 i cur1 Hcur1) as (s'' & Hs'' & Hitems'' & Htr'').
      assert (s'' = s') as -> by congruence.
      rewrite Hitems'', Hitems1 in HJ. subst items.
      destruct (dfaSymbol_done _ _ _ _ _ _ _ Hstep Hcur Hd He HJ Hne)
        as (c1 & Hc1 & Hsome).
      assert (c1 = cur1) as -> by congruence. by apply Htr''.
    + intros Hall. apply Hw. eapply dfaSymbol_within; [done| |done].
      apply Hsub. left.
    + intros P HPg Hall. apply (HP P); [done|].
      by eapply dfaSymbol_items.
Qed.

(** The loop over the states, when it returns. *)
Lemma dfaLoop_complete g (allSymbols : list jsstring) fuel : ∀ i states states',
  dfaLoop fuel g allSymbols i states = Ok states' →
  keepsStates states states'
  ∧ (∀ j s, i ≤ j → states' !! j = Some s → completeState g allSymbols s)
  ∧ ((∀ j s sym, states !! j = Some s → is_Some (st_transitions s !! sym)
                 → sym ∈ allSymbols) →
     ∀ j s sym, states' !! j = Some s → is_Some (st_transitions s !! sym)
                → sym ∈ allSymbols)
  ∧ ∀ P : list LRItem → Prop,
      (∀ items sym J, getGoto items sym g = Ok J → J ≠ [] → P J) →
      (∀ j s, states !! j = Some s → P (st_items s)) →
      ∀ j s, states' !! j = Some s → P (st_items s).
Proof.
  induction fuel as [|fuel IH]; intros i states states'; simpl.
  - destruct (states !! i) eqn:Hi; [done|]. intros [= <-].
    split; [apply keepsStates_refl|]. split; [|split; [done|by intros P _ ?]].
    intros j s Hij Hs. apply lookup_ge_None in Hi. apply lookup_lt_Some in Hs. lia.
  - destruct (states !! i) as [cur|] eqn:Hi.
    + destruct (forEachM _ states allSymbols) as [states1| |] eqn:Hsyms; try done.
      simpl. intros Hrest.
      destruct (dfaSymbols_complete g i (st_items cur) allSymbols allSymbols
                  states states1 Hsyms)
        as (Hk1 & (s1 & Hs1 & Hc1) & Hw1 & HP1); [by exists cur | done |].
      destruct (IH (S i) states1 states' Hrest) as (Hk2 & Hc2 & Hw2 & HP2).
      split; [by eapply keepsStates_trans|]. split; [|split].
      * intros j s Hij Hs. destruct (decide (j = i)) as [->|Hne];
          [|apply (Hc2 j); [lia | done]].
        destruct (Hk2 i s1 Hs1) as (s' & Hs' & Hitems' & Htr').
        assert (s' = s) as -> by congruence.
        intros sym J Hin Hd He HJ HJne. apply Htr'.
        eapply Hc1; try done. by rewrite <- Hitems'.
      * intros Hall. by apply Hw2, Hw1.
      * intros P HPg Hall. apply (HP2 P); [done|]. apply (HP1 P); [|done].
        intros sym J. apply HPg.
    + intros [= <-]. split; [apply keepsStates_refl|].
      split; [|split; [done|by intros P _ ?]].
      intros j s Hij Hs. apply lookup_ge_None in Hi. apply lookup_lt_Some in Hs. lia.
Qed.

(** A run of [buildDFA] that returns, taken apart. *)
Lemma buildDFA_Ok fuel g states :
  buildDFA fuel g = Ok states →
  ∃ p0 rest C0,
    productions g = p0 :: rest
    ∧ getClosure [initialItem p0] g = Ok C0
    ∧ dfaLoop fuel g (nonTerminals g ++ terminals g) 0
        [{| st_id := 0; st_items := C0; st_transitions := ∅ |}] = Ok states
    ∧ dfaInvariant g C0 states.
Proof.
  unfold buildDFA. destruct (productions g) as [|p0 rest] eqn:Hp; [done|].
  fold (initialItem p0).
  destruct (buildDFA_spec g p0 rest Hp) as (C0 & states0 & HC0 & Hrun0 & Hinv).
  rewrite HC0. simpl. intros Hrun. exists p0, rest, C0.
  split; [done|]. split; [done|]. split; [done|].
  specialize (Hrun0 (stateBound g) ltac:(lia)). unfold buildDFA in Hrun0.
  rewrite Hp in Hrun0. fold (initialItem p0) in Hrun0. rewrite HC0 in Hrun0.
  simpl in Hrun0.
  by rewrite (dfaLoop_deterministic _ _ _ _ _ _ _ _ Hrun Hrun0).
Qed.



(** Every state of the automaton that [buildDFA] returns is a set of
    items that is not empty, has no item twice, is closed, and holds
    items of productions of the grammar with the dot within the body;
    there is at least one state and there are no more states than sets
    of items. *)
Theorem buildDFA_states_are_closed_sets (fuel : nat) (g : Grammar)
    (states : list State) :
  buildDFA fuel g = Ok states →
  0 < length states ∧ length states ≤ stateBound g
  ∧ Forall (λ s, st_items s ≠ [] ∧ NoDup (st_items s) ∧ closedItems g (st_items s)
                 ∧ Forall (boundedItem g) (st_items s)) states.
Proof.
  intros Hrun.
  destruct (buildDFA_Ok fuel g states Hrun) as (p0 & rest & C0 & Hp & HC0 & Hloop & Hinv).
  destruct (dfaLoop_complete _ _ _ _ _ _ Hloop) as (_ & _ & _ & HP).
  split; [|split; [by eapply dfaInvariant_bound|]].
  - destruct (dfa_initial _ _ _ Hinv) as (s0 & Hs0 & _).
    apply lookup_lt_Some in Hs0. lia.
  - apply Forall_forall. intros s Hs. apply list_elem_of_lookup in Hs as [i Hi].
    destruct (dfa_items _ _ _ Hinv i s Hi) as [Hnd Hb].
    destruct (HP (λ J, J ≠ [] ∧ closedItems g J)) with (j := i) (s := s)
      as [Hne Hclosed]; [| |done|].
    + intros items sym J HJ Hne. split; [done|].
      by destruct (getGoto_parts g _ _ _ HJ) as (? & ? & _ & _ & _ & _ & ?).
    + intros j s0 Hs0. apply list_lookup_singleton_Some in Hs0 as [_ <-]. simpl.
      destruct (getClosure_total g [initialItem p0]) as [[Hvalid _]|[_ [msg Hthrow]]];
        [|congruence].
      destruct (getClosure_spec g _ Hvalid) as (C & HC & [k Hk] & Hclosed & _).
      assert (C = C0) as -> by congruence. split; [by rewrite Hk | done].
    + split; [done|]. split; [done|]. split; [done|]. by apply Forall_forall.
Qed.

Lemma buildDFA_states_are_closed_sets_witness :
  ∃ states, buildDFA 4 nullableGrammar = Ok states ∧ length states = 4
            ∧ Forall (λ s, closedItems nullableGrammar (st_items s)) states.
Proof.
  eexists. split; [vm_compute; reflexivity|]. split; [vm_compute; reflexivity|].
  eapply Forall_impl.
  - apply (buildDFA_states_are_closed_sets 4 nullableGrammar). vm_compute. reflexivity.
  - intros s (_ & _ & Hclosed & _). exact Hclosed.
Defined.

(** [buildDFA] throws a [TypeError] when the grammar has no production.
    For every other grammar it returns, and as many passes of its loop as
    there are sets of items are enough. *)
Theorem buildDFA_returns_or_throws (g : Grammar) :
  (productions g = [] ∧ ∀ fuel, ∃ msg, buildDFA fuel g = Throw msg)
  ∨ (productions g ≠ []
     ∧ ∃ states, ∀ fuel, stateBound g ≤ fuel → buildDFA fuel g = Ok states).
Proof.
  destruct (productions g) as [|p0 rest] eqn:Hp.
  - left. split; [done|]. intros fuel. unfold buildDFA. rewrite Hp. by eexists.
  - right. split; [done|].
    destruct (buildDFA_spec g p0 rest Hp) as (C0 & states & _ & Hrun & _).
    by exists states.
Qed.

(** ** The table builder: entries, conflicts and goto *)

(** What one item does to a cell. *)
Lemma stepCell_cases g ff t c item :
  (stepCell g ff t c item = c
   ∧ ∀ prod, completedItem g item prod →
       (prod_head prod = startSymbol g → t ≠ DOLLAR ∨ c = Some Accept)
       ∧ (prod_head prod ≠ startSymbol g →
          ∀ fl, follow ff !! prod_head prod = Some fl → t ∈ fl → is_Some c))
  ∨ (∃ prod, completedItem g item prod ∧ prod_head prod = startSymbol g
             ∧ t = DOLLAR ∧ stepCell g ff t c item = Some Accept)
  ∨ (∃ prod fl, completedItem g item prod ∧ prod_head prod ≠ startSymbol g
                ∧ follow ff !! prod_head prod = Some fl ∧ t ∈ fl ∧ c = None
                ∧ stepCell g ff t c item = Some (Reduce (prod_id prod))).
Proof.
  unfold stepCell, completedItem.
  destruct (findProduction g (productionId item)) as [prod|] eqn:Hprod.
  2: { left. split; [done|]. by intros prod [? _]. }
  destruct (isComplete item prod) eqn:Hcomplete.
  2: { left. split; [done|]. intros prod' [[= <-] ?]. congruence. }
  case_bool_decide as Hhead.
  - case_bool_decide as Ht.
    + right. left. by exists prod.
    + left. split; [done|]. intros prod' [[= <-] _]. split; [by left | done].
  - destruct c as [e|].
    + left. split; [done|]. intros prod' [[= <-] _]. split; [done|].
      intros _ fl _ _. by eexists.
    + case_bool_decide as Hin.
      * destruct (follow ff !! prod_head prod) as [fl|] eqn:Hfl; simpl in Hin;
          [|by apply elem_of_nil in Hin].
        right. right. by exists prod, fl.
      * left. split; [done|]. intros prod' [[= <-] _]. split; [done|].
        intros _ fl Hfl Hinfl. exfalso. apply Hin. by rewrite Hfl.
Qed.

(** The items of a state folded over a cell that starts as [c0]. *)
Lemma foldl_stepCell g ff state t items : ∀ c0,
  (∀ item, item ∈ items → item ∈ st_items state) →
  let c := foldl (stepCell g ff t) c0 items in
  (∀ e, c = Some e → c0 = Some e ∨ offered g ff state t e)
  ∧ (c = None →
     c0 = None
     ∧ ∀ item prod, item ∈ items → completedItem g item prod →
         (prod_head prod = startSymbol g → t ≠ DOLLAR)
         ∧ (prod_head prod ≠ startSymbol g →
            ∀ fl, follow ff !! prod_head prod = Some fl → t ∉ fl))
  ∧ (∀ e, c0 = Some e → c = Some e ∨ c = Some Accept)
  ∧ (t = DOLLAR →
     (∃ item prod, item ∈ items ∧ completedItem g item prod
                   ∧ prod_head prod = startSymbol g) ∨ c0 = Some Accept →
     c = Some Accept).
Proof.
  induction items as [|item items IH]; intros c0 Hsub; simpl.
  - split; [by left|]. split; [|split; [by left|]].
    + intros ->. split; [done|]. intros item prod Hin. by apply elem_of_nil in Hin.
    + intros _ [(item & prod & Hin & _)|?]; [by apply elem_of_nil in Hin | done].
  - destruct (IH (stepCell g ff t c0 item)) as (Hsound & Hnone & Hkeep & Hacc).
    { intros it Hit. apply Hsub. by right. }
    assert (item ∈ st_items state) as Hitem by (apply Hsub; left).
    cbv zeta in *.
    destruct (stepCell_cases g ff t c0 item)
      as [[Heq Hno]|[(prod & Hc & Hh & Ht & Heq)|(prod & fl & Hc & Hh & Hfl & Hin & Hc0 & Heq)]];
      rewrite Heq in *.
    + split; [done|]. split; [|split; [done|]].
      * intros Hn. destruct (Hnone Hn) as [-> Hrest]. split; [done|].
        intros it prod Hit Hcomp. apply elem_of_cons in Hit as [->|Hit];
          [|by apply (Hrest it prod)].
        destruct (Hno prod Hcomp) as [Hs Hr]. split.
        -- intros Hh. by destruct (Hs Hh).
        -- intros Hh fl Hfl Hin. by destruct (Hr Hh fl Hfl Hin).
      * intros Ht [(it & prod & Hit & Hcomp & Hh)|Hc0]; [|by apply Hacc; [|right]].
        apply elem_of_cons in Hit as [->|Hit].
        -- apply Hacc; [done|]. right. destruct (Hno prod Hcomp) as [Hs _].
           by destruct (Hs Hh).
        -- apply Hacc; [done|]. left. by exists it, prod.
    + assert (foldl (stepCell g ff t) (Some Accept) items = Some Accept) as Hfin
        by (apply Hacc; [done | by right]).
      rewrite Hfin. split; [|split; [done|split; [by right|done]]].
      intros e [= <-]. right. by eapply offered_accept.
    + subst c0. split; [|split; [|split; [done|]]].
      * intros e He. right. destruct (Hsound e He) as [[= <-]|?]; [|done].
        by eapply offered_reduce.
      * intros Hn. destruct (Hnone Hn) as [? _]. done.
      * intros Ht [(it & prod' & Hit & Hcomp & Hh')|?]; [|done].
        apply elem_of_cons in Hit as [->|Hit].
        -- destruct Hc as [Hf _], Hcomp as [Hf' _]. congruence.
        -- apply Hacc; [done|]. left. by exists it, prod'.
Qed.


(** The examples are what the code computes for [nullableGrammar]. *)
Lemma nullableGrammar_pipeline :
  buildDFA 4 nullableGrammar = Ok nullableStates
  ∧ computeFirstFollow 9 nullableGrammar = Ok nullableSets
  ∧ buildTable nullableGrammar nullableStates nullableSets = Ok nullableTable.
Proof. vm_compute. done. Qed.

Lemma nullableStates_ids : NoDup (st_id <$> nullableStates).
Proof.
  apply (bool_decide_unpack _). by vm_compute.
Qed.


(** *** A table without conflicts *)

Lemma appendsOnly_nil cs : appendsOnly cs [] → cs = [].
Proof. intros [new Hnew]. symmetry in Hnew. by apply app_eq_nil in Hnew as [-> _]. Qed.

(** One item that leaves the log empty. *)
Lemma processItem_quiet g ff sid a cs item a' :
  processItem g ff sid (a, cs) item = Ok (a', []) →
  cs = []
  ∧ (∀ t e, cell a sid t = Some e → cell a' sid t = Some e)
  ∧ ∀ prod, completedItem g item prod →
      (prod_head prod = startSymbol g → cell a' sid DOLLAR = Some Accept)
      ∧ (prod_head prod ≠ startSymbol g →
         ∀ fl t, follow ff !! prod_head prod = Some fl → t ∈ fl →
                 cell a' sid t = Some (Reduce (prod_id prod))).
Proof.
  unfold processItem, completedItem.
  destruct (findProduction g (productionId item)) as [prod|]; [|done].
  destruct (isComplete item prod) eqn:Hcomplete.
  2: { intros [= <- <-]. split; [done|]. split; [done|]. intros p [[= <-] ?]. congruence. }
  case_bool_decide as Hhead.
  - intros Hrun. apply installAccept_spec in Hrun as (Happ & _ & Hacc & Hother & Hlog).
    split; [by apply appendsOnly_nil|]. split.
    + intros t e He. destruct (decide (t = DOLLAR)) as [->|Hne].
      * destruct (decide (e = Accept)) as [->|Hna]; [done|].
        specialize (Hlog e He Hna). by apply elem_of_nil in Hlog.
      * rewrite Hother; [done | congruence].
    + intros p [[= <-] _]. split; done.
  - destruct (follow ff !! prod_head prod) as [fl|] eqn:Hfl.
    + intros Hrun. apply reduceCandidates_spec in Hrun as (Happ & _ & Hkeep & Hfl').
      split; [by apply appendsOnly_nil|]. split; [by intros t e; apply Hkeep|].
      intros p [[= <-] _]. split; [done|]. intros _ fl' t Heq Ht.
      rewrite Hfl in Heq. injection Heq as <-.
      specialize (Hfl' t Ht). destruct (cell a sid t) as [e|]; [|done].
      destruct Hfl' as (_ & c & Hc & _). by apply elem_of_nil in Hc.
    + intros [= <- <-]. split; [done|]. split; [done|].
      intros p [[= <-] _]. split; [done|]. intros _ fl t. congruence.
Qed.

Lemma processItems_quiet g ff sid items : ∀ a cs a',
  forEachM (processItem g ff sid) (a, cs) items = Ok (a', []) →
  cs = []
  ∧ (∀ t e, cell a sid t = Some e → cell a' sid t = Some e)
  ∧ ∀ item prod, item ∈ items → completedItem g item prod →
      (prod_head prod = startSymbol g → cell a' sid DOLLAR = Some Accept)
      ∧ (prod_head prod ≠ startSymbol g →
         ∀ fl t, follow ff !! prod_head prod = Some fl → t ∈ fl →
                 cell a' sid t = Some (Reduce (prod_id prod))).
Proof.
  induction items as [|item items IH]; intros a cs a'; simpl.
  - intros [= <- <-]. split; [done|]. split; [done|].
    intros item prod Hin. by apply elem_of_nil in Hin.
  - destruct (processItem g ff sid (a, cs) item) as [[a1 cs1]| |] eqn:Hitem; try done.
    simpl. intros Hrest. apply IH in Hrest as (-> & Hkeep2 & Hrest).
    apply processItem_quiet in Hitem as (-> & Hkeep1 & Hthis).
    split; [done|]. split; [by intros t e He; apply Hkeep2, Hkeep1|].
    intros it prod Hin Hcomp. apply elem_of_cons in Hin as [->|Hin];
      [|by apply (Hrest it prod)].
    destruct (Hthis prod Hcomp) as [Hs Hr]. split.
    + intros Hh. by apply Hkeep2, Hs.
    + intros Hh fl t Hfl Ht. by eapply Hkeep2, Hr.
Qed.

Lemma processState_quiet g ff acc state acc' :
  processState g ff acc state = Ok acc' → acc_conflicts acc' = [] →
  acc_conflicts acc = []
  ∧ ∀ t e, offered g ff state t e → cell (acc_action acc') (st_id state) t = Some e.
Proof.
  unfold processState.
  pose proof (installTransitions_row g (st_id state)
                (<[st_id state := ∅]> (acc_action acc))
                (<[st_id state := ∅]> (acc_goto acc)) (st_transitions state)
                (lookup_insert_eq _ _ _)) as [_ Hrow].
  cbv zeta in Hrow.
  destruct (map_fold _ _ _) as [action1 goto1]. simpl in Hrow.
  destruct (forEachM _ _ _) as [[action2 conflicts]| |] eqn:Hitems; try done.
  simpl. intros [= <-]. simpl. intros ->.
  apply processItems_quiet in Hitems as (Hcs & Hkeep & Hoffers).
  split; [done|]. intros t e Hoff.
  destruct Hoff as [n Htr Hterm|item prod Hitem Hcomp Hh Ht|item prod fl Hitem Hcomp Hh Hfl Ht].
  - apply Hkeep. rewrite Hrow, Htr. simpl. unfold jsset_has.
    by rewrite bool_decide_true.
  - subst t. by apply (Hoffers item prod).
  - by eapply (Hoffers item prod).
Qed.

Lemma processStates_quiet g ff states : ∀ acc acc',
  forEachM (processState g ff) acc states = Ok acc' → acc_conflicts acc' = [] →
  NoDup (st_id <$> states) →
  ∀ state t e, state ∈ states → offered g ff state t e →
               cell (acc_action acc') (st_id state) t = Some e.
Proof.
  induction states as [|state states IH]; intros acc acc'; simpl.
  - intros _ _ _ state t e Hin. by apply elem_of_nil in Hin.
  - destruct (processState g ff acc state) as [acc1| |] eqn:Hstate; try done.
    simpl. intros Hrest Hquiet Hnd. apply NoDup_cons in Hnd as [Hnotin Hnd].
    intros st t e Hin Hoff. apply elem_of_cons in Hin as [->|Hin];
      [|by eapply IH].
    pose proof (processStates_log _ _ _ _ _ Hrest) as [Happ _].
    rewrite Hquiet in Happ. apply appendsOnly_nil in Happ.
    apply processState_quiet in Hstate as [_ Hcells]; [|done].
    destruct (processStates_rows _ _ _ _ _ Hrest Hnd) as [_ Hothers].
    rewrite Hothers by done. by apply Hcells.
Qed.

(** When [buildTable], run on states with pairwise different ids,
    reports no conflict, every action that was offered for a cell is the
    entry of that cell; so no cell was offered two different actions. *)
Theorem buildTable_without_conflicts (g : Grammar) (states : list State)
    (ff : FirstFollowSets) (table : ParsingTable) :
  buildTable g states ff = Ok table →
  NoDup (st_id <$> states) → t_conflicts table = [] →
  ∀ state t, state ∈ states →
    (∀ e, offered g ff state t e → cell (t_action table) (st_id state) t = Some e)
    ∧ (∀ e1 e2, offered g ff state t e1 → offered g ff state t e2 → e1 = e2).
Proof.
  unfold buildTable.
  destruct (forEachM _ _ _) as [acc| |] eqn:Hrun; try done.
  simpl. intros [= <-] Hnd Hquiet state t Hin. simpl in *.
  pose proof (processStates_quiet _ _ _ _ _ Hrun Hquiet Hnd state t) as Hcells.
  split; [by intros e; apply Hcells|].
  intros e1 e2 H1 H2. apply Hcells in H1, H2; [|done|done]. congruence.
Qed.

Lemma buildTable_without_conflicts_witness :
  cell (t_action nullableTable) 2 DOLLAR = Some (Reduce 2).
Proof.
  apply (buildTable_without_conflicts nullableGrammar nullableStates nullableSets
           nullableTable (proj2 (proj2 nullableGrammar_pipeline)) nullableStates_ids
           eq_refl
           {| st_id := 2; st_items := [mkItem 1 1; mkItem 1 0; mkItem 2 0];
              st_transitions := {[ js "A" := 3; js "a" := 2 ]} |} DOLLAR).
  - do 2 right. left.
  - apply (offered_reduce _ _ _ _ (mkItem 2 0)
             {| prod_head := js "A"; prod_body := [EPS]; prod_id := 2 |} [DOLLAR]).
    + do 2 right. left.
    + split; vm_compute; reflexivity.
    + vm_compute. done.
    + vm_compute. reflexivity.
    + left.
Defined.

(** *** The goto table *)

Lemma installTransitions_goto (g : Grammar) (sid : nat) (a0 : ActionTable)
    (g0 : GotoTable) (tr : gmap jsstring nat) :
  g0 !! sid = Some ∅ →
  let r := map_fold (installTransition g sid) (a0, g0) tr in
  (∀ s, s ≠ sid → r.2 !! s = g0 !! s)
  ∧ ∃ row, r.2 !! sid = Some row
      ∧ ∀ sym, row !! sym
               = (n ← tr !! sym;
                  if jsset_has sym (terminals g) then None
                  else if jsset_has sym (nonTerminals g) then Some n else None).
Proof.
  intros Hrow. cbv zeta.
  apply (map_fold_weak_ind
           (λ (r : ActionTable * GotoTable) (m : gmap jsstring nat),
              (∀ s, s ≠ sid → r.2 !! s = g0 !! s)
              ∧ ∃ row, r.2 !! sid = Some row
                  ∧ ∀ sym, row !! sym
                           = (n ← m !! sym;
                              if jsset_has sym (terminals g) then None
                              else if jsset_has sym (nonTerminals g) then Some n
                                   else None))).
  - simpl. split; [done|]. exists ∅. split; [done|]. intros sym.
    by rewrite !lookup_empty.
  - intros sym n m [a1 g1] Hfresh (Hother & row & Hr & Hcells). simpl in *.
    unfold installTransition. simpl.
    destruct (jsset_has sym (terminals g)) eqn:Hterm; simpl.
    + split; [done|]. exists row. split; [done|]. intros x. rewrite Hcells.
      destruct (decide (x = sym)) as [->|Hne].
      * rewrite lookup_insert_eq, Hfresh. simpl. by rewrite Hterm.
      * by rewrite lookup_insert_ne.
    + destruct (jsset_has sym (nonTerminals g)) eqn:Hnt; simpl.
      * split.
        -- intros s Hs. unfold setGoto. rewrite lookup_alter_ne by done. by apply Hother.
        -- exists (<[sym := n]> row). split.
           ++ unfold setGoto. by rewrite lookup_alter_eq, Hr.
           ++ intros x. destruct (decide (x = sym)) as [->|Hne].
              ** rewrite !lookup_insert_eq. simpl. by rewrite Hterm, Hnt.
              ** rewrite !lookup_insert_ne by done. apply Hcells.
      * split; [done|]. exists row. split; [done|]. intros x. rewrite Hcells.
        destruct (decide (x = sym)) as [->|Hne].
        -- rewrite lookup_insert_eq, Hfresh. simpl. by rewrite Hterm, Hnt.
        -- by rewrite lookup_insert_ne.
Qed.

Lemma processState_goto g ff acc state acc' :
  processState g ff acc state = Ok acc' →
  (∀ s, s ≠ st_id state → acc_goto acc' !! s = acc_goto acc !! s)
  ∧ ∃ row, acc_goto acc' !! st_id state = Some row
      ∧ ∀ sym, row !! sym
               = (n ← st_transitions state !! sym;
                  if jsset_has sym (terminals g) then None
                  else if jsset_has sym (nonTerminals g) then Some n else None).
Proof.
  unfold processState.
  pose proof (installTransitions_goto g (st_id state)
                (<[st_id state := ∅]> (acc_action acc))
                (<[st_id state := ∅]> (acc_goto acc)) (st_transitions state)
                (lookup_insert_eq _ _ _)) as [Hother Hrow].
  cbv zeta in Hother, Hrow.
  destruct (map_fold _ _ _) as [action1 goto1]. simpl in Hother, Hrow.
  destruct (forEachM _ _ _) as [[action2 conflicts]| |]; try done.
  simpl. intros [= <-]. simpl. split; [|done].
  intros s Hs. rewrite Hother by done. by rewrite lookup_insert_ne.
Qed.

Lemma processStates_goto g ff states : ∀ acc acc',
  forEachM (processState g ff) acc states = Ok acc' →
  NoDup (st_id <$> states) →
  (∀ s, s ∉ st_id <$> states → acc_goto acc' !! s = acc_goto acc !! s)
  ∧ ∀ state, state ∈ states →
      ∃ row, acc_goto acc' !! st_id state = Some row
        ∧ ∀ sym, row !! sym
                 = (n ← st_transitions state !! sym;
                    if jsset_has sym (terminals g) then None
                    else if jsset_has sym (nonTerminals g) then Some n else None).
Proof.
  induction states as [|state states IH]; intros acc acc'; simpl.
  - intros [= <-] _. split; [done|]. intros state Hin. by apply elem_of_nil in Hin.
  - destruct (processState g ff acc state) as [acc1| |] eqn:Hstate; try done.
    simpl. intros Hrest Hnd. apply NoDup_cons in Hnd as [Hnotin Hnd].
    apply processState_goto in Hstate as [Hother Hrow].
    destruct (IH _ _ Hrest Hnd) as [Hothers Hrows]. split.
    + intros s Hs. apply not_elem_of_cons in Hs as [Hne Hs].
      by rewrite Hothers, Hother.
    + intros st Hin. apply elem_of_cons in Hin as [->|Hin]; [|by apply Hrows].
      by rewrite Hothers.
Qed.



(** *** The builder returns or throws *)

Lemma reduceCandidates_total sid prod fl : ∀ a cs,
  is_Some (a !! sid) →
  ∃ a' cs', forEachM (reduceCandidate sid prod) (a, cs) fl = Ok (a', cs')
            ∧ is_Some (a' !! sid).
Proof.
  induction fl as [|t fl IH]; intros a cs Hrow; simpl; [by eexists _, _|].
  assert (∃ a1 cs1, reduceCandidate sid prod (a, cs) t = Ok (a1, cs1)
                    ∧ is_Some (a1 !! sid)) as (a1 & cs1 & -> & Hrow1).
  { unfold reduceCandidate. simpl. destruct Hrow as [row Hrow]. rewrite Hrow.
    destruct (row !! t) as [existing|].
    - destruct (isDuplicate _ _ _ _ _); eexists _, _; (split; [done|]);
        simpl; by rewrite Hrow.
    - eexists _, _. split; [done|]. unfold setCell.
      rewrite lookup_alter_eq, Hrow. by eexists. }
  simpl. by apply IH.
Qed.

Lemma processItem_total g ff sid a cs item :
  is_Some (a !! sid) →
  (validItem g item ∧ ∃ a' cs', processItem g ff sid (a, cs) item = Ok (a', cs')
                                ∧ is_Some (a' !! sid))
  ∨ (¬ validItem g item ∧ processItem g ff sid (a, cs) item = Throw PROD_MISSING).
Proof.
  intros Hrow. unfold processItem, validItem.
  destruct (findProduction g (productionId item)) as [prod|].
  2: { right. split; [by intros [? ?] | done]. }
  left. split; [by eexists|].
  destruct (isComplete item prod); [|by eexists _, _].
  case_bool_decide.
  - unfold installAccept. simpl. destruct Hrow as [row Hrow]. rewrite Hrow.
    eexists _, _. split; [done|]. unfold setCell.
    rewrite lookup_alter_eq, Hrow. by eexists.
  - destruct (follow ff !! prod_head prod) as [fl|]; [|by eexists _, _].
    by apply reduceCandidates_total.
Qed.

Lemma processItems_total g ff sid items : ∀ a cs,
  is_Some (a !! sid) →
  (allValid g items ∧ ∃ r, forEachM (processItem g ff sid) (a, cs) items = Ok r)
  ∨ (¬ allValid g items
     ∧ forEachM (processItem g ff sid) (a, cs) items = Throw PROD_MISSING).
Proof.
  induction items as [|item items IH]; intros a cs Hrow; simpl.
  - left. split; [|by eexists]. intros item Hin. by apply elem_of_nil in Hin.
  - destruct (processItem_total g ff sid a cs item Hrow)
      as [(Hvalid & a1 & cs1 & -> & Hrow1)|[Hinvalid ->]]; simpl.
    + destruct (IH a1 cs1 Hrow1) as [[Hall Hrun]|[Hnot Hrun]].
      * left. split; [|done]. intros it Hit.
        apply elem_of_cons in Hit as [->|Hit]; [done | by apply Hall].
      * right. split; [|done]. intros Hall. apply Hnot. intros it Hit.
        apply Hall. by right.
    + right. split; [|done]. intros Hall. apply Hinvalid, Hall. left.
Qed.

Lemma installTransitions_keeps_row (g : Grammar) (sid : nat) (a0 : ActionTable)
    (g0 : GotoTable) (tr : gmap jsstring nat) :
  is_Some (a0 !! sid) →
  is_Some ((map_fold (installTransition g sid) (a0, g0) tr).1 !! sid).
Proof.
  intros Hrow.
  apply (map_fold_weak_ind
           (λ (r : ActionTable * GotoTable) (m : gmap jsstring nat),
              is_Some (r.1 !! sid))); [done|].
  intros sym n m [a1 g1] _ [row Hr]. simpl in *. unfold installTransition. simpl.
  destruct (jsset_has sym (terminals g)); simpl.
  - unfold setCell. rewrite lookup_alter_eq, Hr. by eexists.
  - destruct (jsset_has sym (nonTerminals g)); by eexists.
Qed.

Lemma processState_total g ff acc state :
  (allValid g (st_items state) ∧ ∃ acc', processState g ff acc state = Ok acc')
  ∨ (¬ allValid g (st_items state)
     ∧ processState g ff acc state = Throw PROD_MISSING).
Proof.
  unfold processState.
  pose proof (installTransitions_keeps_row g (st_id state)
                (<[st_id state := ∅]> (acc_action acc))
                (<[st_id state := ∅]> (acc_goto acc)) (st_transitions state)) as Hrow.
  destruct (map_fold _ _ _) as [action1 goto1]. simpl in Hrow.
  destruct (processItems_total g ff (st_id state) (st_items state) action1
              (acc_conflicts acc)) as [[Hall [[a' cs'] Hrun]]|[Hnot Hrun]];
    [apply Hrow; rewrite lookup_insert_eq; by eexists | |].
  - left. split; [done|]. rewrite Hrun. simpl. by eexists.
  - right. split; [done|]. by rewrite Hrun.
Qed.

Lemma buildTable_total (g : Grammar) (states : list State) (ff : FirstFollowSets) :
  ((∀ state, state ∈ states → allValid g (st_items state))
   ∧ ∃ table, buildTable g states ff = Ok table)
  ∨ ((¬ ∀ state, state ∈ states → allValid g (st_items state))
     ∧ buildTable g states ff = Throw PROD_MISSING).
Proof.
  unfold buildTable.
  generalize {| acc_action := ∅; acc_goto := ∅; acc_conflicts := [] |}.
  induction states as [|state states IH]; intros acc; simpl.
  - left. split; [|by eexists]. intros state Hin. by apply elem_of_nil in Hin.
  - destruct (processState_total g ff acc state) as [[Hvalid [acc1 ->]]|[Hinvalid ->]];
      simpl.
    + destruct (IH acc1) as [[Hall Hrun]|[Hnot Hrun]].
      * left. split; [|done]. intros st Hin.
        apply elem_of_cons in Hin as [->|Hin]; [done | by apply Hall].
      * right. split; [|done]. intros Hall. apply Hnot. intros st Hin.
        apply Hall. by right.
    + right. split; [|done]. intros Hall. apply Hinvalid, Hall. left.
Qed.


(** ** FIRST: the least solution of the rules *)

Lemma forEachM_invariant {A B} (P : A → Prop) (f : A → B → outcome A) (l : list B) :
  (∀ a x a', x ∈ l → P a → f a x = Ok a' → P a') →
  ∀ a r, P a → forEachM f a l = Ok r → P r.
Proof.
  induction l as [|x l IH]; intros Hstep a r Ha; simpl.
  - by intros [= <-].
  - destruct (f a x) as [a1| |] eqn:Hf; try done. simpl. apply IH.
    + intros a' y a'' Hy. apply Hstep. by right.
    + eapply Hstep; [left | done | done].
Qed.

Lemma whileChanged_invariant (P : SetMap → Prop) pass fuel :
  (∀ m m' ch, P m → pass m = Ok (m', ch) → P m') →
  ∀ m r, P m → whileChanged fuel pass m = Ok r → P r.
Proof.
  intros Hpass. induction fuel as [|fuel IH]; intros m r Hm; simpl; [done|].
  destruct (pass m) as [[m' ch]| |] eqn:Hp; try done. simpl.
  destruct ch; [apply IH | intros [= <-]]; by eapply Hpass.
Qed.

(** The loop ends with a pass that changes nothing. *)
Lemma whileChanged_last pass fuel : ∀ m r,
  whileChanged fuel pass m = Ok r → ∃ m', pass m' = Ok (r, false).
Proof.
  induction fuel as [|fuel IH]; intros m r; simpl; [done|].
  destruct (pass m) as [[m' ch]| |] eqn:Hp; try done. simpl.
  destruct ch; [apply IH|]. intros [= <-]. by exists m.
Qed.

Lemma prefix_sandwich {A} (l1 l2 l3 : list A) :
  l1 `prefix_of` l2 → l2 `prefix_of` l3 → length l3 ≤ length l1 → l1 = l2 ∧ l2 = l3.
Proof.
  intros [k1 ->] [k2 ->]. rewrite !length_app. intros Hlen.
  destruct k1; [|simpl in Hlen; lia]. destruct k2; [|simpl in Hlen; lia].
  by rewrite !app_nil_r.
Qed.

(** The symbols of a body folded into the set of the head, and what it
    means that the set has not grown. *)
Lemma firstBody_shape head body : ∀ (m : SetMap) before,
  m !! head = Some before →
  ∃ l1, (firstBody head body m).1 = <[head := l1]> m ∧ before `prefix_of` l1
    ∧ (l1 = before →
       (∀ i sym x, body !! i = Some sym → nullableBefore m body i →
                   x ∈ firstOf m sym → x ≠ EPS → x ∈ before)
       ∧ ((firstBody head body m).2 = true ↔ ∀ s, s ∈ body → EPS ∈ firstOf m s)).
Proof.
  induction body as [|symbol rest IH]; intros m before Hhead; simpl.
  - exists before. split; [by rewrite insert_id|]. split; [done|]. intros _. split.
    + intros i sym x Hi. by rewrite lookup_nil in Hi.
    + split; [|done]. intros _ s Hs. by apply elem_of_nil in Hs.
  - set (sf := firstOf m symbol).
    rewrite (alter_as_insert _ _ _ _ Hhead).
    set (l' := addAllExceptEps sf before).
    assert (before `prefix_of` l') as Hpre by apply addAllExceptEps_prefix.
    unfold jsset_has. case_bool_decide as Heps.
    + destruct (IH (<[head := l']> m) l') as (l1 & Heq & Hpre1 & Hfix);
        [apply lookup_insert_eq|].
      exists l1. rewrite Heq, insert_insert_eq. split; [done|].
      split; [by etrans|]. intros ->.
      assert (l' = before) as Hl' by (by apply (anti_symm prefix)).
      rewrite Hl' in *. rewrite (insert_id m head before Hhead) in *.
      destruct (Hfix eq_refl) as [Hrule Hnull]. split.
      * intros [|i] sym x Hi Hnb Hx Hne; simpl in Hi.
        -- injection Hi as <-.
           assert (x ∈ l') as Hin by (apply addAllExceptEps_elem; right; done).
           by rewrite Hl' in Hin.
        -- apply (Hrule i sym x Hi); [|done|done].
           intros j s Hj Hs. apply (Hnb (S j) s); [lia | done].
      * rewrite Hnull. split.
        -- intros Hall s Hs. apply elem_of_cons in Hs as [->|Hs]; [done | by apply Hall].
        -- intros Hall s Hs. apply Hall. by right.
    + exists l'. simpl. split; [done|]. split; [done|]. intros Hl'. split.
      * intros [|i] sym x Hi Hnb Hx Hne; simpl in Hi.
        -- injection Hi as <-. rewrite <- Hl'. apply addAllExceptEps_elem. by right.
        -- destruct Heps. apply (Hnb 0 symbol); [lia | done].
      * split; [done|]. intros Hall. destruct Heps. apply Hall. left.
Qed.

(** A production that leaves the flag unset has changed nothing, and its
    rule holds. *)
Lemma firstProduction_fixed (m : SetMap) ch p m' :
  firstProduction (m, ch) p = Ok (m', false) → ch = false ∧ m' = m ∧ firstRule m p.
Proof.
  unfold firstProduction. simpl.
  destruct (m !! prod_head p) as [before|] eqn:Hhead; [|done].
  destruct (firstBody_shape (prod_head p) (prod_body p) m before Hhead)
    as (l1 & Heq & Hpre & Hfix).
  destruct (firstBody (prod_head p) (prod_body p) m) as [first1 allNullable].
  simpl in Heq, Hfix. subst first1.
  set (l2 := if allNullable then jsset_add EPS l1 else l1).
  assert ((if allNullable
           then alter (jsset_add EPS) (prod_head p) (<[prod_head p := l1]> m)
           else <[prod_head p := l1]> m) = <[prod_head p := l2]> m) as ->.
  { unfold l2. destruct allNullable; [|done].
    rewrite (alter_as_insert _ _ _ l1) by apply lookup_insert_eq.
    by rewrite insert_insert_eq. }
  assert (l1 `prefix_of` l2) as Hpre2.
  { unfold l2. destruct allNullable; [apply jsset_add_prefix | done]. }
  rewrite lookup_insert_eq. simpl. case_bool_decide as Hlen; [done|].
  intros [= <- ->].
  destruct (prefix_sandwich before l1 l2 Hpre Hpre2) as [<- Hl2]; [lia|].
  split; [done|]. split; [by rewrite <- Hl2, insert_id|].
  destruct (Hfix eq_refl) as [Hrule Hnull].
  exists before. split; [done|]. split; [done|].
  intros Hall. apply Hnull in Hall. subst allNullable. unfold l2 in Hl2.
  rewrite Hl2. apply jsset_add_elem. by left.
Qed.

Lemma firstProductions_fixed ps : ∀ (m : SetMap) ch r,
  forEachM firstProduction (m, ch) ps = Ok (r, false) →
  ch = false ∧ r = m ∧ ∀ p, p ∈ ps → firstRule m p.
Proof.
  induction ps as [|p ps IH]; intros m ch r; simpl.
  - intros [= <- <-]. split; [done|]. split; [done|]. intros p Hp.
    by apply elem_of_nil in Hp.
  - destruct (firstProduction (m, ch) p) as [[m1 ch1]| |] eqn:Hstep; try done.
    simpl. intros Hrest. apply IH in Hrest as (-> & -> & Hrules).
    apply firstProduction_fixed in Hstep as (-> & -> & Hrule).
    split; [done|]. split; [done|]. intros q Hq.
    apply elem_of_cons in Hq as [->|Hq]; [done | by apply Hrules].
Qed.

Lemma computeFirstFollow_Ok fuel g ff :
  computeFirstFollow fuel g = Ok ff →
  ∃ follow0,
    firstWhile fuel g (initFirst g) = Ok (first ff)
    ∧ seedFollow g (initFollow g) = Ok follow0
    ∧ followWhile fuel g (first ff) follow0 = Ok (follow ff).
Proof.
  unfold computeFirstFollow.
  destruct (firstWhile fuel g (initFirst g)) as [first| |]; try done. simpl.
  destruct (seedFollow g (initFollow g)) as [follow0| |]; try done. simpl.
  destruct (followWhile fuel g first follow0) as [follow| |] eqn:Hf; try done. simpl.
  intros [= <-]. by exists follow0.
Qed.

(** The FIRST sets that [computeFirstFollow] returns satisfy the rule of
    every production [A -> X1 ... Xn]: FIRST(A) contains the elements of
    FIRST(Xi) other than ['ε'] whenever ['ε'] is in FIRST of each of
    [X1 ... Xi-1], and it contains ['ε'] when ['ε'] is in FIRST of every
    [Xi].  (A symbol without a set counts as its own FIRST set, as in
    the code.) *)
Theorem computeFirstFollow_first_closed (fuel : nat) (g : Grammar)
    (ff : FirstFollowSets) (p : Production) :
  computeFirstFollow fuel g = Ok ff → p ∈ productions g →
  ∃ l, first ff !! prod_head p = Some l
    ∧ (∀ i sym x,
         prod_body p !! i = Some sym →
         (∀ j s, j < i → prod_body p !! j = Some s → EPS ∈ firstOf (first ff) s) →
         x ∈ firstOf (first ff) sym → x ≠ EPS → x ∈ l)
    ∧ ((∀ s, s ∈ prod_body p → EPS ∈ firstOf (first ff) s) → EPS ∈ l).
Proof.
  intros Hrun Hp. apply computeFirstFollow_Ok in Hrun as (_ & Hfirst & _).
  apply whileChanged_last in Hfirst as (m' & Hpass).
  apply firstProductions_fixed in Hpass as (_ & -> & Hrules).
  by apply Hrules.
Qed.

Lemma computeFirstFollow_first_closed_witness :
  ∃ l, first nullableSets !! js "A" = Some l ∧ EPS ∈ l.
Proof.
  destruct (computeFirstFollow_first_closed 9 nullableGrammar nullableSets
              {| prod_head := js "A"; prod_body := [EPS]; prod_id := 2 |})
    as (l & Hl & _ & Heps).
  - apply nullableGrammar_pipeline.
  - do 2 right. left.
  - exists l. split; [exact Hl|]. apply Heps. intros s Hs.
    apply list_elem_of_singleton in Hs as ->. vm_compute. left.
Defined.

Lemma firstOf_model (g : Grammar) (F : jsstring → jsstring → Prop) (m : SetMap) s x :
  firstModel g F → withinModel g F m → x ∈ firstOf m s → F s x.
Proof.
  intros [Hinit _] [Hin Hkeys]. unfold firstOf.
  destruct (m !! s) as [l|] eqn:Hs; simpl.
  - by apply Hin.
  - intros Hx. apply list_elem_of_singleton in Hx as ->. apply Hinit.
    right. right. intros Hnt. destruct (Hkeys s Hnt) as [l Hl]. congruence.
Qed.

Lemma withinModel_alter (g : Grammar) (F : jsstring → jsstring → Prop) (m : SetMap) k
    (f : list jsstring → list jsstring) :
  withinModel g F m → (∀ l x, m !! k = Some l → x ∈ f l → F k x) →
  withinModel g F (alter f k m).
Proof.
  intros [Hin Hkeys] Hf. split.
  - intros j l x Hl Hx. destruct (decide (k = j)) as [->|Hne].
    + rewrite lookup_alter_eq in Hl. destruct (m !! j) as [l0|] eqn:Hj; [|done].
      injection Hl as <-. by eapply Hf.
    + rewrite lookup_alter_ne in Hl by done. by eapply Hin.
  - intros nt Hnt. destruct (decide (k = nt)) as [->|Hne].
    + rewrite lookup_alter_eq. destruct (Hkeys nt Hnt) as [l ->]. by eexists.
    + rewrite lookup_alter_ne by done. by apply Hkeys.
Qed.

Lemma firstBody_model (g : Grammar) (F : jsstring → jsstring → Prop) p body : ∀ pre (m : SetMap),
  firstModel g F → p ∈ productions g → prod_body p = pre ++ body →
  (∀ s, s ∈ pre → F s EPS) → withinModel g F m →
  withinModel g F (firstBody (prod_head p) body m).1
  ∧ ((firstBody (prod_head p) body m).2 = true → ∀ s, s ∈ body → F s EPS).
Proof.
  induction body as [|symbol rest IH]; intros pre m HF Hp Hbody Hpre Hm; simpl.
  - split; [done|]. intros _ s Hs. by apply elem_of_nil in Hs.
  - set (sf := firstOf m symbol).
    assert (withinModel g F (alter (addAllExceptEps sf) (prod_head p) m)) as Hm1.
    { apply withinModel_alter; [done|]. intros l x Hl Hx.
      apply addAllExceptEps_elem in Hx as [Hx|[Hx Hne]]; [by eapply (proj1 Hm)|].
      destruct HF as [Hinit Hrules]. destruct (Hrules p Hp) as [Hrule _].
      apply (Hrule (length pre) symbol x);
        [| |apply (firstOf_model g F m); [by split | done | exact Hx]|done].
      - rewrite Hbody. by rewrite list_lookup_middle.
      - intros j s Hj Hs. apply Hpre. rewrite Hbody, lookup_app_l in Hs by done.
        by eapply list_elem_of_lookup_2. }
    unfold jsset_has. case_bool_decide as Heps; [|by split].
    destruct (IH (pre ++ [symbol]) (alter (addAllExceptEps sf) (prod_head p) m))
      as [Hm2 Hnull]; try done.
    { by rewrite <- app_assoc. }
    { intros s Hs. apply elem_of_app in Hs as [Hs|Hs]; [by apply Hpre|].
      apply list_elem_of_singleton in Hs as ->.
      apply (firstOf_model g F m); [done | done | exact Heps]. }
    split; [done|]. intros Hall s Hs.
    apply elem_of_cons in Hs as [->|Hs]; [|by apply Hnull].
    apply (firstOf_model g F m); [done | done | exact Heps].
Qed.

Lemma firstProduction_model (g : Grammar) (F : jsstring → jsstring → Prop) (m : SetMap) ch p m' ch' :
  firstModel g F → p ∈ productions g → withinModel g F m →
  firstProduction (m, ch) p = Ok (m', ch') → withinModel g F m'.
Proof.
  intros HF Hp Hm. unfold firstProduction. simpl.
  destruct (m !! prod_head p) as [before|]; [|done].
  destruct (firstBody_model g F p (prod_body p) [] m HF Hp eq_refl) as [Hm1 Hnull];
    [by intros s Hs; apply elem_of_nil in Hs | done |].
  destruct (firstBody (prod_head p) (prod_body p) m) as [first1 allNullable].
  simpl in *. intros [= <- _]. destruct allNullable; [|done].
  apply withinModel_alter; [done|]. intros l x Hl Hx.
  apply jsset_add_elem in Hx as [->|Hx]; [|by eapply (proj1 Hm1)].
  destruct HF as [_ Hrules]. destruct (Hrules p Hp) as [_ Hrule]. by apply Hrule, Hnull.
Qed.

Lemma initFirst_model (g : Grammar) (F : jsstring → jsstring → Prop) :
  firstModel g F → withinModel g F (initFirst g).
Proof.
  intros [Hinit _]. split; [|apply initFirst_nonTerminal].
  intros k l x. rewrite initFirst_lookup.
  repeat case_bool_decide; intros [= <-] Hx; try (by apply elem_of_nil in Hx);
    apply list_elem_of_singleton in Hx as ->; subst; apply Hinit; auto.
Qed.

(** The FIRST sets that [computeFirstFollow] returns hold nothing that
    the rules do not force: they lie within every relation that relates
    each terminal, ['ε'] and each symbol that is no nonterminal to itself
    and satisfies the rule of every production. *)
Theorem computeFirstFollow_first_least (fuel : nat) (g : Grammar)
    (ff : FirstFollowSets) (F : jsstring → jsstring → Prop) (s x : jsstring) :
  computeFirstFollow fuel g = Ok ff → firstModel g F →
  x ∈ firstOf (first ff) s → F s x.
Proof.
  intros Hrun HF. apply computeFirstFollow_Ok in Hrun as (_ & Hfirst & _).
  eapply firstOf_model; [done|].
  eapply (whileChanged_invariant (withinModel g F)); [|by apply initFirst_model|done].
  intros m m' ch Hm Hpass. unfold firstPass in Hpass.
  apply (forEachM_invariant (λ a, withinModel g F a.1) firstProduction (productions g))
    with (a := (m, false)) (r := (m', ch)); [|done|done].
  intros [m1 ch1] p [m2 ch2] Hp Hm1 Hstep. simpl in *.
  by eapply firstProduction_model.
Qed.

Lemma computeFirstFollow_first_least_witness :
  js "a" = js "A" ∨ js "a" ∈ [js "a"; js "A"; EPS].
Proof.
  apply (computeFirstFollow_first_least 9 nullableGrammar nullableSets
           (λ s x, x = s ∨ x ∈ [js "a"; js "A"; EPS]) (js "A") (js "a")).
  - apply nullableGrammar_pipeline.
  - split; [by left|]. intros p Hp.
    assert (∀ sym, sym ∈ prod_body p → sym ∈ [js "a"; js "A"; EPS]) as Hbody.
    { intros sym Hsym.
      repeat (apply elem_of_cons in Hp as [->|Hp]);
        [| | |by apply elem_of_nil in Hp]; simpl in Hsym;
        repeat (apply elem_of_cons in Hsym as [->|Hsym]);
        try (by apply elem_of_nil in Hsym); set_solver. }
    split.
    + intros i sym x Hi _ [->|Hx] _; right; [|done].
      apply Hbody. by eapply list_elem_of_lookup_2.
    + intros _. right. set_solver.
  - vm_compute. left.
Defined.

(** ** FOLLOW: the least solution of the rules *)

(** The symbols after [B] folded into the set of [B], and what it means
    that the set has not grown. *)
Lemma followBeta_shape (first : SetMap) B beta : ∀ (m : SetMap) before,
  m !! B = Some before →
  ∃ l1, (followBeta first B beta m).1 = <[B := l1]> m ∧ before `prefix_of` l1
    ∧ ((followBeta first B beta m).2 = true ↔ ∀ s, s ∈ beta → EPS ∈ firstOf first s)
    ∧ (∀ x, x ∈ l1 →
         x ∈ before
         ∨ ∃ k sym, beta !! k = Some sym ∧ nullableBefore first beta k
                    ∧ x ∈ firstOf first sym ∧ x ≠ EPS)
    ∧ (l1 = before →
       ∀ k sym x, beta !! k = Some sym → nullableBefore first beta k →
                  x ∈ firstOf first sym → x ≠ EPS → x ∈ before).
Proof.
  induction beta as [|sym rest IH]; intros m before HB; simpl.
  - exists before. split; [by rewrite insert_id|]. split; [done|]. split; [|split].
    + split; [|done]. intros _ s Hs. by apply elem_of_nil in Hs.
    + intros x Hx. by left.
    + intros _ k s x Hk. by rewrite lookup_nil in Hk.
  - set (sf := firstOf first sym).
    rewrite (alter_as_insert _ _ _ _ HB).
    set (l' := addAllExceptEps sf before).
    assert (before `prefix_of` l') as Hpre by apply addAllExceptEps_prefix.
    assert (∀ x, x ∈ l' → x ∈ before
              ∨ ∃ k s, (sym :: rest) !! k = Some s ∧ nullableBefore first (sym :: rest) k
                       ∧ x ∈ firstOf first s ∧ x ≠ EPS) as Hl'.
    { intros x Hx. apply addAllExceptEps_elem in Hx as [?|[Hx Hne]]; [by left|].
      right. exists 0, sym. split; [done|]. split; [|done]. intros j s Hj. lia. }
    unfold jsset_has. case_bool_decide as Heps.
    + destruct (IH (<[B := l']> m) l') as (l1 & Heq & Hpre1 & Hnull & Hsrc & Hfix);
        [apply lookup_insert_eq|].
      exists l1. rewrite Heq, insert_insert_eq. split; [done|].
      split; [by etrans|]. split; [|split].
      * rewrite Hnull. split.
        -- intros Hall s Hs. apply elem_of_cons in Hs as [->|Hs]; [done | by apply Hall].
        -- intros Hall s Hs. apply Hall. by right.
      * intros x Hx. destruct (Hsrc x Hx) as [Hx'|(k & s & Hk & Hnb & Hxs & Hne)];
          [by apply Hl'|].
        right. exists (S k), s. split; [done|]. split; [|done].
        intros [|j] s' Hj Hs'; simpl in Hs'; [by injection Hs' as <-|].
        apply (Hnb j s'); [lia | done].
      * intros ->.
        assert (l' = before) as Hbefore by (by apply (anti_symm prefix)).
        intros [|k] s x Hk Hnb Hx Hne; simpl in Hk.
        -- injection Hk as <-. rewrite <- Hbefore. apply addAllExceptEps_elem. by right.
        -- rewrite <- Hbefore. apply (Hfix (eq_sym Hbefore) k s x Hk); [|done|done].
           intros j s' Hj Hs'. apply (Hnb (S j) s'); [lia | done].
    + exists l'. simpl. split; [done|]. split; [done|]. split; [|split; [done|]].
      * split; [done|]. intros Hall. destruct Heps. apply Hall. left.
      * intros Hbefore [|k] s x Hk Hnb Hx Hne; simpl in Hk.
        -- injection Hk as <-. rewrite <- Hbefore. apply addAllExceptEps_elem. by right.
        -- destruct Heps. apply (Hnb 0 sym); [lia | done].
Qed.

(** One position of a body in the FOLLOW pass, when it returns. *)
Lemma followBody_step (g : Grammar) (first : SetMap) (head B : jsstring)
    (beta : list jsstring) (m : SetMap) ch r :
  followBody g first head (B :: beta) (m, ch) = Ok r →
  ((B ∉ nonTerminals g) ∧ followBody g first head beta (m, ch) = Ok r)
  ∨ ∃ before l2 ch',
      B ∈ nonTerminals g ∧ m !! B = Some before ∧ before `prefix_of` l2
      ∧ followBody g first head beta (<[B := l2]> m, ch') = Ok r
      ∧ (ch' = false → ch = false ∧ length l2 = length before)
      ∧ (∀ x, x ∈ l2 →
           x ∈ before
           ∨ (∃ k sym, beta !! k = Some sym ∧ nullableBefore first beta k
                       ∧ x ∈ firstOf first sym ∧ x ≠ EPS)
           ∨ ((∀ s, s ∈ beta → EPS ∈ firstOf first s) ∧ x ≠ EPS
              ∧ ∃ lh, m !! head = Some lh ∧ x ∈ lh))
      ∧ (l2 = before →
         (∀ k sym x, beta !! k = Some sym → nullableBefore first beta k →
                     x ∈ firstOf first sym → x ≠ EPS → x ∈ before)
         ∧ ((∀ s, s ∈ beta → EPS ∈ firstOf first s) →
            ∃ lh, m !! head = Some lh ∧ ∀ x, x ∈ lh → x ≠ EPS → x ∈ before)).
Proof.
  simpl. unfold jsset_has. case_bool_decide as HB; simpl; [|by left].
  destruct (m !! B) as [before|] eqn:Hbefore; [|done].
  destruct (followBeta_shape first B beta m before Hbefore)
    as (l1 & Heq & Hpre & Hnull & Hsrc & Hfix).
  destruct (followBeta first B beta m) as [follow1 nullable]. simpl in *. subst follow1.
  destruct nullable.
  - destruct (<[B := l1]> m !! head) as [hs|] eqn:Hhead; [|done]. simpl.
    rewrite (alter_as_insert _ _ _ l1) by apply lookup_insert_eq.
    rewrite insert_insert_eq, lookup_insert_eq. simpl.
    set (l2 := addAllExceptEps hs l1).
    assert (l1 `prefix_of` l2) as Hpre2 by apply addAllExceptEps_prefix.
    intros Hrest. right. eexists before, l2, _. split; [done|]. split; [done|].
    split; [by etrans|]. split; [exact Hrest|]. split; [|split].
    + case_bool_decide as Hlen; [done|]. done.
    + intros x Hx. apply addAllExceptEps_elem in Hx as [Hx|[Hx Hne]].
      * destruct (Hsrc x Hx) as [?|?]; auto.
      * destruct (decide (B = head)) as [->|HneB].
        -- rewrite lookup_insert_eq in Hhead. injection Hhead as <-.
           destruct (Hsrc x Hx) as [?|?]; auto.
        -- rewrite lookup_insert_ne in Hhead by done.
           right. right. split; [by apply Hnull|]. split; [done|]. by exists hs.
    + intros Hl2.
      assert (l1 = before) as Hl1.
      { destruct (prefix_sandwich before l1 l2 Hpre Hpre2); [by rewrite Hl2 | done]. }
      split; [by apply Hfix|]. intros _.
      rewrite Hl1, insert_id in Hhead by done. exists hs. split; [done|].
      intros x Hx Hne. rewrite <- Hl2. apply addAllExceptEps_elem. by right.
  - simpl. rewrite lookup_insert_eq. simpl. intros Hrest. right.
    eexists before, l1, _. split; [done|]. split; [done|]. split; [done|].
    split; [exact Hrest|]. split; [|split].
    + case_bool_decide as Hlen; [done|]. done.
    + intros x Hx. destruct (Hsrc x Hx) as [?|?]; auto.
    + intros Hl1. split; [by apply Hfix|]. intros Hall.
      apply Hnull in Hall. done.
Qed.

(** A body that leaves the flag unset has changed nothing, and the rule
    holds at each of its positions. *)
Lemma followBody_fixed (g : Grammar) (first : SetMap) (head : jsstring) body :
  ∀ (m : SetMap) ch r,
  followBody g first head body (m, ch) = Ok (r, false) →
  ch = false ∧ r = m
  ∧ ∀ pre B beta, body = pre ++ B :: beta → B ∈ nonTerminals g →
      ∃ lB, m !! B = Some lB
        ∧ (∀ k sym x, beta !! k = Some sym → nullableBefore first beta k →
                      x ∈ firstOf first sym → x ≠ EPS → x ∈ lB)
        ∧ ((∀ s, s ∈ beta → EPS ∈ firstOf first s) →
           ∃ lh, m !! head = Some lh ∧ ∀ x, x ∈ lh → x ≠ EPS → x ∈ lB).
Proof.
  induction body as [|B beta IH]; intros m ch r Hrun.
  - simpl in Hrun. injection Hrun as <- <-. split; [done|]. split; [done|].
    intros [|? ?] ? ? Heq; discriminate Heq.
  - apply followBody_step in Hrun
      as [[HB Hrun]|(before & l2 & ch' & HB & Hbefore & Hpre & Hrun & Hflag & _ & Hfix)].
    + apply IH in Hrun as (-> & -> & Hrules). split; [done|]. split; [done|].
      intros [|B' pre] B0 beta0 Heq HB0; simplify_eq/=; [done|]. by eapply Hrules.
    + apply IH in Hrun as (-> & -> & Hrules).
      destruct (Hflag eq_refl) as [-> Hlen].
      assert (l2 = before) as -> by (symmetry; by apply prefix_length_eq; [|lia]).
      rewrite insert_id in * by done.
      split; [done|]. split; [done|].
      intros [|B' pre] B0 beta0 Heq HB0; simplify_eq/=; [|by eapply Hrules].
      exists before. split; [done|]. by apply Hfix.
Qed.

Lemma followProductions_fixed (g : Grammar) (first : SetMap) ps : ∀ (m : SetMap) ch r,
  forEachM (followProduction g first) (m, ch) ps = Ok (r, false) →
  ch = false ∧ r = m ∧ ∀ p, p ∈ ps → followRule g first m p.
Proof.
  induction ps as [|p ps IH]; intros m ch r; simpl.
  - intros [= <- <-]. split; [done|]. split; [done|]. intros p Hp.
    by apply elem_of_nil in Hp.
  - destruct (followProduction g first (m, ch) p) as [[m1 ch1]| |] eqn:Hstep; try done.
    simpl. intros Hrest. apply IH in Hrest as (-> & -> & Hrules).
    apply followBody_fixed in Hstep as (-> & -> & Hrule).
    split; [done|]. split; [done|]. intros q Hq.
    apply elem_of_cons in Hq as [->|Hq]; [done | by apply Hrules].
Qed.

(** *** Sets only grow *)

Lemma keepsElements_refl m : keepsElements m m.
Proof. intros k l x Hl Hx. by exists l. Qed.

Lemma keepsElements_trans m1 m2 m3 :
  keepsElements m1 m2 → keepsElements m2 m3 → keepsElements m1 m3.
Proof.
  intros H1 H2 k l x Hl Hx. destruct (H1 k l x Hl Hx) as (l' & Hl' & Hx').
  by eapply H2.
Qed.

Lemma keepsElements_insert (m : SetMap) (k : jsstring) (l l' : list jsstring) :
  m !! k = Some l → l `prefix_of` l' → keepsElements m (<[k := l']> m).
Proof.
  intros Hl [ext ->] j lj x Hj Hx. destruct (decide (k = j)) as [->|Hne].
  - rewrite lookup_insert_eq. eexists. split; [done|].
    apply elem_of_app. left. congruence.
  - rewrite lookup_insert_ne by done. by exists lj.
Qed.

Lemma followBody_keeps (g : Grammar) (first : SetMap) (head : jsstring) body :
  ∀ (m : SetMap) ch r,
  followBody g first head body (m, ch) = Ok r → keepsElements m r.1.
Proof.
  induction body as [|B beta IH]; intros m ch r Hrun.
  - simpl in Hrun. injection Hrun as <-. apply keepsElements_refl.
  - apply followBody_step in Hrun
      as [[HB Hrun]|(before & l2 & ch' & HB & Hbefore & Hpre & Hrun & _)].
    + by eapply IH.
    + eapply keepsElements_trans;
        [by apply (keepsElements_insert m B before l2) | by eapply IH].
Qed.

Lemma followPass_keeps (g : Grammar) (first m : SetMap) r :
  followPass g first m = Ok r → keepsElements m r.1.
Proof.
  unfold followPass. generalize false. revert m r.
  induction (productions g) as [|p ps IH]; intros m r ch; simpl.
  - intros [= <-]. apply keepsElements_refl.
  - destruct (followProduction g first (m, ch) p) as [[m1 ch1]| |] eqn:Hstep; try done.
    simpl. intros Hrest. eapply keepsElements_trans; [|by eapply IH].
    by apply followBody_keeps in Hstep.
Qed.

Lemma seedFollow_seeds g follow0 :
  seedFollow g (initFollow g) = Ok follow0 →
  (∃ l, follow0 !! startSymbol g = Some l ∧ DOLLAR ∈ l)
  ∧ (∀ u, userStart g = Some u → ∃ l, follow0 !! u = Some l ∧ DOLLAR ∈ l)
  ∧ ∀ k l x, follow0 !! k = Some l → x ∈ l →
             x = DOLLAR ∧ (k = startSymbol g ∨ userStart g = Some k).
Proof.
  unfold seedFollow, userStart.
  destruct (initFollow g !! startSymbol g) as [l0|] eqn:Hstart; [|done].
  rewrite (alter_as_insert _ _ _ _ Hstart).
  assert (∀ k l, initFollow g !! k = Some l → l = []) as Hinit.
  { intros k l. rewrite initFollow_lookup. by case_bool_decide; intros [= <-]. }
  rewrite (Hinit _ _ Hstart).
  change (jsset_add DOLLAR []) with [DOLLAR].
  destruct (List.find _ (nonTerminals g)) as [[|c u]|].
  1, 3: intros [= <-]; (split; [exists [DOLLAR]; by rewrite lookup_insert_eq; split; [|left]|]);
        (split; [done|]); intros k l x Hl Hx;
        (destruct (decide (startSymbol g = k)) as [<-|Hne];
         [rewrite lookup_insert_eq in Hl; injection Hl as <-;
          apply list_elem_of_singleton in Hx as ->; auto
         |rewrite lookup_insert_ne in Hl by done; apply Hinit in Hl as ->;
          by apply elem_of_nil in Hx]).
  destruct (<[startSymbol g := [DOLLAR]]> (initFollow g) !! (c :: u)) as [lu|] eqn:Hu;
    [|done].
  rewrite (alter_as_insert _ _ _ _ Hu). intros [= <-].
  assert (lu = [DOLLAR] ∧ c :: u = startSymbol g ∨ lu = [] ∧ c :: u ≠ startSymbol g)
    as Hlu.
  { destruct (decide (startSymbol g = c :: u)) as [Heq|Hne].
    - rewrite Heq, lookup_insert_eq in Hu. injection Hu as <-. by left.
    - rewrite lookup_insert_ne in Hu by done. apply Hinit in Hu. by right. }
  assert (jsset_add DOLLAR lu = [DOLLAR]) as Hadd
    by (destruct Hlu as [[-> _]|[-> _]]; reflexivity).
  rewrite Hadd. split; [|split].
  - exists [DOLLAR]. split; [|left].
    destruct (decide (c :: u = startSymbol g)) as [->|Hne];
      [by rewrite lookup_insert_eq|].
    by rewrite lookup_insert_ne, lookup_insert_eq.
  - intros u' [= <-]. exists [DOLLAR]. by rewrite lookup_insert_eq; split; [|left].
  - intros k l x Hl Hx. destruct (decide (c :: u = k)) as [<-|Hne].
    + rewrite lookup_insert_eq in Hl. injection Hl as <-.
      apply list_elem_of_singleton in Hx as ->. auto.
    + rewrite lookup_insert_ne in Hl by done.
      destruct (decide (startSymbol g = k)) as [<-|Hne'].
      * rewrite lookup_insert_eq in Hl. injection Hl as <-.
        apply list_elem_of_singleton in Hx as ->. auto.
      * rewrite lookup_insert_ne in Hl by done. apply Hinit in Hl as ->.
        by apply elem_of_nil in Hx.
Qed.

(** The FOLLOW sets that [computeFirstFollow] returns have the seeds —
    ['$'] follows the start symbol and the first nonterminal whose name
    does not end with an apostrophe — and satisfy the rule of every
    production [A -> α B β] with a nonterminal [B]: FOLLOW(B) contains
    the elements of FIRST of each symbol of [β], other than ['ε'], as
    long as the symbols before it in [β] have ['ε'] in their FIRST sets,
    and the elements of FOLLOW(A) when every symbol of [β] has. *)
Theorem computeFirstFollow_follow_closed (fuel : nat) (g : Grammar)
    (ff : FirstFollowSets) :
  computeFirstFollow fuel g = Ok ff →
  (∃ l, follow ff !! startSymbol g = Some l ∧ DOLLAR ∈ l)
  ∧ (∀ u, userStart g = Some u → ∃ l, follow ff !! u = Some l ∧ DOLLAR ∈ l)
  ∧ ∀ p pre B beta,
      p ∈ productions g → prod_body p = pre ++ B :: beta → B ∈ nonTerminals g →
      ∃ lB, follow ff !! B = Some lB
        ∧ (∀ k sym x,
             beta !! k = Some sym →
             (∀ j s, j < k → beta !! j = Some s → EPS ∈ firstOf (first ff) s) →
             x ∈ firstOf (first ff) sym → x ≠ EPS → x ∈ lB)
        ∧ ((∀ s, s ∈ beta → EPS ∈ firstOf (first ff) s) →
           ∃ lh, follow ff !! prod_head p = Some lh
                 ∧ ∀ x, x ∈ lh → x ≠ EPS → x ∈ lB).
Proof.
  intros Hrun. apply computeFirstFollow_Ok in Hrun as (follow0 & _ & Hseed & Hfollow).
  assert (keepsElements follow0 (follow ff)) as Hkeeps.
  { eapply (whileChanged_invariant (keepsElements follow0));
      [|apply keepsElements_refl|exact Hfollow].
    intros m m' ch Hm Hpass. eapply keepsElements_trans; [done|].
    by apply followPass_keeps in Hpass. }
  apply seedFollow_seeds in Hseed as ((l & Hl & Hd) & Huser & _).
  split; [by eapply Hkeeps|]. split.
  - intros u Hu. destruct (Huser u Hu) as (lu & Hlu & Hdu). by eapply Hkeeps.
  - apply whileChanged_last in Hfollow as (m' & Hpass).
    apply followProductions_fixed in Hpass as (_ & -> & Hrules).
    intros p pre B beta Hp. by apply Hrules.
Qed.

Lemma computeFirstFollow_follow_closed_witness :
  ∃ l, follow nullableSets !! startSymbol nullableGrammar = Some l ∧ DOLLAR ∈ l.
Proof.
  destruct (computeFirstFollow_follow_closed 9 nullableGrammar nullableSets) as [H _].
  - apply nullableGrammar_pipeline.
  - exact H.
Defined.

(** *** Nothing but what the rules force *)

Lemma followBody_model (g : Grammar) (first : SetMap)
    (G : jsstring → jsstring → Prop) (p : Production) body :
  ∀ pre (m : SetMap) ch r,
  followModel g first G → p ∈ productions g → prod_body p = pre ++ body →
  setsIn G m → followBody g first (prod_head p) body (m, ch) = Ok r → setsIn G r.1.
Proof.
  induction body as [|B beta IH]; intros pre m ch r HG Hp Hbody Hm Hrun.
  - simpl in Hrun. by injection Hrun as <-.
  - apply followBody_step in Hrun
      as [[HB Hrun]|(before & l2 & ch' & HB & Hbefore & Hpre & Hrun & _ & Hsrc & _)].
    + apply (IH (pre ++ [B]) m ch r); try done. by rewrite <- app_assoc.
    + apply (IH (pre ++ [B]) (<[B := l2]> m) ch' r); try done;
        [by rewrite <- app_assoc|].
      destruct HG as (_ & _ & Hrules).
      destruct (Hrules p pre B beta Hp Hbody HB) as [Hr1 Hr2].
      intros k l x Hl Hx. destruct (decide (B = k)) as [<-|Hne].
      * rewrite lookup_insert_eq in Hl. injection Hl as <-.
        destruct (Hsrc x Hx) as [Hx'|[(j & sym & Hj & Hnb & Hxs & Hne)|(Hall & Hne & lh & Hlh & Hxh)]].
        -- by eapply Hm.
        -- by eapply Hr1.
        -- apply Hr2; [done| |done]. by eapply Hm.
      * rewrite lookup_insert_ne in Hl by done. by eapply Hm.
Qed.

Lemma followWhile_model (g : Grammar) (first follow0 : SetMap)
    (G : jsstring → jsstring → Prop) fuel r :
  followModel g first G → setsIn G follow0 →
  followWhile fuel g first follow0 = Ok r → setsIn G r.
Proof.
  intros HG H0 Hrun.
  eapply (whileChanged_invariant (setsIn G)); [|exact H0|exact Hrun].
  intros m m' ch Hm Hpass. unfold followPass in Hpass.
  apply (forEachM_invariant (λ a, setsIn G a.1) (followProduction g first)
           (productions g)) with (a := (m, false)) (r := (m', ch)); [|done|done].
  intros [m1 ch1] p r' Hp Hm1 Hstep. simpl in *.
  by apply (followBody_model g first G p (prod_body p) [] m1 ch1 r').
Qed.

Lemma computeFirstFollow_follow_within fuel (g : Grammar) ff
    (G : jsstring → jsstring → Prop) :
  computeFirstFollow fuel g = Ok ff → followModel g (first ff) G → setsIn G (follow ff).
Proof.
  intros Hrun HG. apply computeFirstFollow_Ok in Hrun as (follow0 & _ & Hseed & Hfollow).
  eapply followWhile_model; [done| |done].
  apply seedFollow_seeds in Hseed as (_ & _ & Honly).
  destruct HG as (Hstart & Huser & _).
  intros k l x Hl Hx. destruct (Honly k l x Hl Hx) as [-> [->|Hu]].
  - exact Hstart.
  - by apply Huser.
Qed.

(** The FOLLOW sets that [computeFirstFollow] returns hold nothing that
    the seeds and the rules do not force: they lie within every relation
    that has the two seeds and satisfies the rule of every production
    with respect to the FIRST sets returned. *)
Theorem computeFirstFollow_follow_least (fuel : nat) (g : Grammar)
    (ff : FirstFollowSets) (G : jsstring → jsstring → Prop)
    (k : jsstring) (l : list jsstring) (x : jsstring) :
  computeFirstFollow fuel g = Ok ff → followModel g (first ff) G →
  follow ff !! k = Some l → x ∈ l → G k x.
Proof.
  intros Hrun HG. by apply (computeFirstFollow_follow_within fuel g ff G).
Qed.

Lemma computeFirstFollow_follow_least_witness :
  DOLLAR ∈ terminals nullableGrammar.
Proof.
  apply (computeFirstFollow_follow_least 9 nullableGrammar nullableSets
           (λ _ x, x ∈ terminals nullableGrammar) (js "A") [DOLLAR] DOLLAR).
  - apply nullableGrammar_pipeline.
  - split; [by right; left|]. split; [by intros; right; left|].
    intros p pre B beta Hp Hbody HB. split.
    + intros j sym x Hj _ Hx Hne.
      assert (sym ∈ prod_body p) as Hsym.
      { rewrite Hbody. apply elem_of_app. right. right.
        by eapply list_elem_of_lookup_2. }
      revert Hx. clear -Hp Hsym Hne.
      repeat (apply elem_of_cons in Hp as [->|Hp]);
        [| | |by apply elem_of_nil in Hp]; simpl in Hsym;
        repeat (apply elem_of_cons in Hsym as [->|Hsym]);
        try (by apply elem_of_nil in Hsym); vm_compute; intros Hx;
        repeat (apply elem_of_cons in Hx as [->|Hx]);
        try (by apply elem_of_nil in Hx); try done; set_solver.
    + done.
  - reflexivity.
  - left.
Defined.

(** No FOLLOW set that [computeFirstFollow] returns contains ['ε']. *)
Theorem computeFirstFollow_follow_has_no_epsilon (fuel : nat) (g : Grammar)
    (ff : FirstFollowSets) (k : jsstring) (l : list jsstring) :
  computeFirstFollow fuel g = Ok ff → follow ff !! k = Some l → EPS ∉ l.
Proof.
  intros Hrun Hl Hin.
  apply (computeFirstFollow_follow_within fuel g ff (λ _ x, x ≠ EPS) Hrun)
    with (k := k) (l := l) (x := EPS); [|done|done|done].
  split; [done|]. split; [done|]. intros p pre B beta _ _ _. split.
  - by intros j sym x _ _ _ Hne.
  - by intros _ x _ Hne.
Qed.

Lemma computeFirstFollow_follow_has_no_epsilon_witness :
  EPS ∉ [DOLLAR].
Proof.
  apply (computeFirstFollow_follow_has_no_epsilon 9 nullableGrammar nullableSets (js "A")).
  - apply nullableGrammar_pipeline.
  - reflexivity.
Defined.

(** ** The analysis returns or throws *)

(** With heads and start symbol among the nonterminals, both loops end
    within the budget. *)
Lemma computeFirstFollow_total (g : Grammar) :
  (∀ p, p ∈ productions g → prod_head p ∈ nonTerminals g) →
  startSymbol g ∈ nonTerminals g →
  ∃ ff, ∀ fuel, firstFollowBudget g ≤ fuel → computeFirstFollow fuel g = Ok ff.
Proof.
  intros Hheads Hstart.
  assert (∀ fuel, firstFollowBudget g ≤ fuel →
            ∃ first, firstWhile fuel g (initFirst g) = Ok first
                     ∧ setsWithin (firstUniverse g) first) as Hfirst.
  { intros fuel Hfuel. apply firstWhile_spec; [done|].
    unfold firstFollowBudget in Hfuel. lia. }
  destruct (Hfirst _ (Nat.le_refl _)) as (first & Hfirst0 & Hw).
  destruct (seedFollow_spec g Hstart) as (follow0 & Hseed & Hinv0 & Hsize0 & _).
  assert (∀ fuel, firstFollowBudget g ≤ fuel →
            ∃ fol, followWhile fuel g first follow0 = Ok fol) as Hfollow.
  { intros fuel Hfuel.
    destruct (followWhile_spec g first follow0 fuel Hheads Hw Hinv0) as (fol & Hrun & _).
    { rewrite Hsize0. unfold firstFollowBudget in Hfuel. lia. }
    by exists fol. }
  destruct (Hfollow _ (Nat.le_refl _)) as (fol & Hfollow0).
  exists {| first := first; follow := fol |}.
  intros fuel Hfuel. unfold computeFirstFollow.
  destruct (Hfirst fuel Hfuel) as (first' & Hrun1 & _).
  assert (first' = first) as ->
    by (by eapply (whileChanged_deterministic (firstPass g))).
  rewrite Hrun1. cbn [obind]. rewrite Hseed. cbn [obind].
  destruct (Hfollow fuel Hfuel) as (fol' & Hrun2).
  assert (fol' = fol) as ->
    by (by eapply (whileChanged_deterministic (followPass g first))).
  by rewrite Hrun2.
Qed.

(** A production keeps the keys of the map as they are. *)
Lemma firstBody_keys head body : ∀ (m : SetMap) k,
  is_Some ((firstBody head body m).1 !! k) ↔ is_Some (m !! k).
Proof.
  induction body as [|symbol rest IH]; intros m k; simpl; [done|].
  assert (is_Some (alter (addAllExceptEps (firstOf m symbol)) head m !! k)
          ↔ is_Some (m !! k)) as Halter.
  { destruct (decide (head = k)) as [->|Hne].
    - rewrite lookup_alter_eq. by rewrite fmap_is_Some.
    - by rewrite lookup_alter_ne. }
  destruct (jsset_has EPS (firstOf m symbol)); [|done]. by rewrite IH.
Qed.

Lemma firstProduction_keys (m : SetMap) ch p m' ch' k :
  firstProduction (m, ch) p = Ok (m', ch') → is_Some (m' !! k) ↔ is_Some (m !! k).
Proof.
  unfold firstProduction. simpl. destruct (m !! prod_head p); [|done].
  pose proof (firstBody_keys (prod_head p) (prod_body p) m k) as Hkeys.
  destruct (firstBody (prod_head p) (prod_body p) m) as [first1 allNullable].
  simpl in Hkeys. intros [= <- _]. rewrite <- Hkeys.
  destruct allNullable; [|done].
  destruct (decide (prod_head p = k)) as [->|Hne].
  - rewrite lookup_alter_eq. by rewrite fmap_is_Some.
  - by rewrite lookup_alter_ne.
Qed.

(** A production whose head has no FIRST set makes the pass throw. *)
Lemma firstProductions_throw ps : ∀ (m : SetMap) ch,
  (∃ p, p ∈ ps ∧ m !! prod_head p = None) →
  ∃ msg, forEachM firstProduction (m, ch) ps = Throw msg.
Proof.
  induction ps as [|q ps IH]; intros m ch (p & Hp & Hnone); simpl.
  - by apply elem_of_nil in Hp.
  - destruct (firstProduction (m, ch) q) as [[m1 ch1]| |] eqn:Hstep; simpl.
    + apply IH. apply elem_of_cons in Hp as [->|Hp].
      * unfold firstProduction in Hstep. simpl in Hstep. by rewrite Hnone in Hstep.
      * exists p. split; [done|].
        apply eq_None_not_Some. rewrite (firstProduction_keys _ _ _ _ _ _ Hstep).
        by rewrite Hnone; intros [? ?].
    + by eexists.
    + exfalso. unfold firstProduction in Hstep. simpl in Hstep.
      destruct (m !! prod_head q); [|done].
      by destruct (firstBody _ _ _).
Qed.


(** ** From the grammar text to the run of the parser *)

Lemma parseGrammar_heads text p :
  p ∈ productions (parseGrammar text) →
  prod_head p = [] ∨ prod_head p ∈ nonTerminals (parseGrammar text).
Proof.
  destruct (parseGrammar_unfold text) as (-> & _ & ->).
  pose proof (parseGrammar_invariant text) as (_ & Hprods & _).
  cbv zeta in Hprods. rewrite Forall_forall in Hprods.
  intros Hp. by destruct (Hprods p Hp) as (? & _).
Qed.

Lemma parseGrammar_no_empty_symbol text :
  ([] ∉ terminals (parseGrammar text)) ∧ ([] ∉ nonTerminals (parseGrammar text)).
Proof.
  destruct (parseGrammar_unfold text) as (_ & -> & ->).
  pose proof (parseGrammar_invariant text) as (_ & Hprods & _ & Hterms).
  pose proof (collectHeads_names (grammarLines text)) as [_ Hnames].
  cbv zeta in *. rewrite Forall_forall in Hprods. split.
  - intros Hin. apply jsset_add_elem in Hin as [?|Hin]; [done|].
    destruct (Hterms _ Hin) as (_ & _ & p & Hp & Hb).
    destruct (Hprods p Hp) as (_ & _ & Hsyms).
    destruct (Hsyms _ Hb) as (Hw & _). by apply isBodyWord_nonempty in Hw.
  - intros Hin. by destruct (Hnames _ Hin).
Qed.

Lemma augment_production g0 p :
  p ∈ productions g0 →
  ∃ p', p' ∈ productions (augmentGrammar g0) ∧ prod_head p' = prod_head p.
Proof.
  intros Hp. apply list_elem_of_lookup in Hp as [i Hi].
  eexists. split.
  - apply list_elem_of_lookup. exists (S i). rewrite augment_lookup_S, Hi. done.
  - done.
Qed.





(** ** Productions found by their id *)

Lemma find_by_id (l : list Production) : ∀ k i,
  prod_id <$> l = seq k (length l) →
  List.find (λ p, Nat.eqb (prod_id p) (k + i)) l = l !! i.
Proof.
  induction l as [|p l IH]; intros k i Hids; [done|].
  simpl in Hids. injection Hids as Hp Hl. cbn [List.find]. destruct i as [|i].
  - by rewrite Nat.add_0_r, Hp, Nat.eqb_refl.
  - assert ((prod_id p =? k + S i) = false) as -> by (apply Nat.eqb_neq; lia).
    change ((p :: l) !! S i) with (l !! i). rewrite <- (IH (S k) i Hl).
    by replace (S k + i) with (k + S i) by lia.
Qed.

Lemma augment_ids g :
  prod_id <$> productions (augmentGrammar g) = seq 0 (S (length (productions g))).
Proof.
  simpl. f_equal. apply list_eq. intros i.
  rewrite list_lookup_fmap, list_lookup_imap.
  destruct (productions g !! i) as [p|] eqn:Hp; simpl.
  - symmetry. apply lookup_seq. apply lookup_lt_Some in Hp. split; [lia | done].
  - symmetry. apply lookup_ge_None. rewrite length_seq. by apply lookup_ge_None.
Qed.

(** In an augmented grammar the ids are the positions, so that
    [grammar.productions.find(p => p.id === id)], the lookup that the
    item-set functions, the table builder and the simulator use, returns
    the production at index [id], and [undefined] only past the end. *)
Theorem augmentGrammar_finds_by_index (g : Grammar) (id : nat) :
  findProduction (augmentGrammar g) id = productions (augmentGrammar g) !! id.
Proof.
  unfold findProduction. apply (find_by_id _ 0 id).
  rewrite augment_ids. f_equal. simpl. by rewrite length_imap.
Qed.
